(** * H-Terminal: command-line pipeline and virtual file tree

    A shallow embedding of the TypeScript sources
    - [core/CommandProcessor.ts]  (tokenizer, input parser, registry, dispatcher),
    - [core/VirtualFileSystem.ts] (the virtual tree and the path resolver),
    - [core/BashInterpreter.ts]   (the script interpreter),
    - [commands/BaseCommand.ts], [commands/BasicCommands.ts] (result helpers, echo),
    - [commands/FileCommands.ts]   (pwd, cd, mkdir, cat, rm),
    - [core/Terminal.ts]          (the command history),
    followed by the properties of the specification that were checked
    against them and by further properties of the modelled code.

    Conventions of the embedding.
    - A JavaScript string is a [string]; its characters are [ascii] values
      (one per UTF-16 code unit of the source, restricted to one byte).
    - A [Map] whose iteration order is observed (the [children] of a node)
      is an association list in insertion order, see [JsMap]; the registry
      tables, the flag table and the environment, which are only looked up
      by key, are [gmap]s.
    - [this] of a class is an explicit record that every method takes and,
      when it mutates, returns.
    - [new Date()] is a natural number handed to the method by its caller.
    - [localStorage] persistence has no effect on the in-memory state:
      the mutating methods do not carry the write.  [saveToStorage] is the
      function from a state to the object it writes, and the loading
      functions take the stored object as an argument. *)

From Stdlib Require Import ZArith List String Ascii Bool Lia DecimalString.
From Stdlib Require Import Sorting.Sorted Sorting.Permutation.
From stdpp Require Import gmap strings.
Import ListNotations.

#[local] Open Scope string_scope.
#[local] Open Scope list_scope.

(** ** JavaScript string primitives *)

Module Js.

(** [s.startsWith(p)] *)
Fixpoint startsWith (s p : string) {struct p} : bool :=
  match p with
  | EmptyString => true
  | String c p' =>
      match s with
      | EmptyString => false
      | String d s' => Ascii.eqb d c && startsWith s' p'
      end
  end.

(** [s.slice(n)] for a non-negative [n]: the suffix from index [n]. *)
Fixpoint slice (n : nat) (s : string) : string :=
  match n, s with
  | O, _ => s
  | S _, EmptyString => EmptyString
  | S n', String _ s' => slice n' s'
  end.

(** The first [n] characters. *)
Fixpoint take (n : nat) (s : string) : string :=
  match n, s with
  | O, _ => EmptyString
  | S _, EmptyString => EmptyString
  | S n', String c s' => String c (take n' s')
  end.

(** [s.substring(a, b)]: indices are clamped to the length and swapped
    when [a > b]. *)
Definition substring (a b : nat) (s : string) : string :=
  let lo := Nat.min (Nat.min a b) (String.length s) in
  let hi := Nat.min (Nat.max a b) (String.length s) in
  take (hi - lo) (slice lo s).

(** [s.indexOf(c)] for a one-character needle: [-1] when absent. *)
Fixpoint indexOf (c : ascii) (s : string) : Z :=
  match s with
  | EmptyString => (-1)%Z
  | String d s' =>
      if Ascii.eqb d c then 0%Z
      else let r := indexOf c s' in
           if (r <? 0)%Z then (-1)%Z else (r + 1)%Z
  end.

(** [s.includes(c)] for a one-character needle. *)
Fixpoint includesChar (c : ascii) (s : string) : bool :=
  match s with
  | EmptyString => false
  | String d s' => Ascii.eqb d c || includesChar c s'
  end.

(** [s.includes(sub)] *)
Fixpoint includes (sub s : string) : bool :=
  startsWith s sub ||
  match s with
  | EmptyString => false
  | String _ s' => includes sub s'
  end.

(** [s.endsWith(c)] for a one-character suffix. *)
Fixpoint endsWithChar (c : ascii) (s : string) : bool :=
  match s with
  | EmptyString => false
  | String d EmptyString => Ascii.eqb d c
  | String _ s' => endsWithChar c s'
  end.

(** [s.split(c)] for a one-character separator; the empty string splits
    into one empty piece. *)
Fixpoint splitAux (c : ascii) (cur : string) (s : string) : list string :=
  match s with
  | EmptyString => [cur]
  | String d s' =>
      if Ascii.eqb d c then cur :: splitAux c EmptyString s'
      else splitAux c (cur +:+ String d EmptyString) s'
  end.

Definition split (c : ascii) (s : string) : list string :=
  splitAux c EmptyString s.

(** [l.join(sep)] *)
Definition join (sep : string) (l : list string) : string :=
  String.concat sep l.

(** A string is truthy when it is not empty. *)
Definition truthy (s : string) : bool :=
  match s with EmptyString => false | String _ _ => true end.

(** [l.filter(p => p)] on a list of strings. *)
Definition filterTruthy (l : list string) : list string :=
  List.filter truthy l.

(** [l.pop()], for its effect on the list. *)
Definition pop {A} (l : list A) : list A := removelast l.

(** ASCII white space, as removed by [trim]. *)
Definition isSpace (c : ascii) : bool :=
  match nat_of_ascii c with
  | 9 | 10 | 11 | 12 | 13 | 32 => true
  | _ => false
  end.

Fixpoint trimStart (s : string) : string :=
  match s with
  | EmptyString => EmptyString
  | String c s' => if isSpace c then trimStart s' else s
  end.

(** Drops trailing white space: a character is kept when something
    that is kept follows it or when it is not white space. *)
Fixpoint trimEnd (s : string) : string :=
  match s with
  | EmptyString => EmptyString
  | String c s' =>
      match trimEnd s' with
      | EmptyString => if isSpace c then EmptyString else String c EmptyString
      | r => String c r
      end
  end.

(** [s.trim()] *)
Definition trim (s : string) : string := trimEnd (trimStart s).

Definition lowerChar (c : ascii) : ascii :=
  let n := nat_of_ascii c in
  if (65 <=? n)%nat && (n <=? 90)%nat then ascii_of_nat (n + 32) else c.

(** [s.toLowerCase()] on the ASCII range. *)
Fixpoint toLowerCase (s : string) : string :=
  match s with
  | EmptyString => EmptyString
  | String c s' => String (lowerChar c) (toLowerCase s')
  end.

End Js.

(** ** Tokenizer ([CommandProcessor.tokenize]) *)

(** The scanner's local variables.  [quoteChar] is [None] for the empty
    string the source stores outside quotes. *)
Record TokState := mkTok {
  tokens : list string;
  current : string;
  inQuotes : bool;
  quoteChar : option ascii;
  escaped : bool
}.

(** The double-quote character (code 34). *)
Definition dquote : ascii := "034"%char.

Definition isQuote (c : ascii) : bool :=
  Ascii.eqb c dquote || Ascii.eqb c "'"%char.

Definition sameChar (q : option ascii) (c : ascii) : bool :=
  match q with Some d => Ascii.eqb c d | None => false end.

(** One iteration of the scanning loop, the branches in source order. *)
Definition tokenizeStep (st : TokState) (c : ascii) : TokState :=
  if escaped st then
    mkTok (tokens st) (current st +:+ String c EmptyString)
          (inQuotes st) (quoteChar st) false
  else if Ascii.eqb c "\"%char then
    mkTok (tokens st) (current st) (inQuotes st) (quoteChar st) true
  else if negb (inQuotes st) && isQuote c then
    mkTok (tokens st) (current st) true (Some c) false
  else if inQuotes st && sameChar (quoteChar st) c then
    mkTok (tokens st) (current st) false None false
  else if negb (inQuotes st) && Ascii.eqb c " "%char then
    if Js.truthy (current st)
    then mkTok (tokens st ++ [current st]) EmptyString
               (inQuotes st) (quoteChar st) false
    else st
  else
    mkTok (tokens st) (current st +:+ String c EmptyString)
          (inQuotes st) (quoteChar st) false.

Fixpoint tokenizeLoop (st : TokState) (input : string) : TokState :=
  match input with
  | EmptyString => st
  | String c rest => tokenizeLoop (tokenizeStep st c) rest
  end.

(** The flush after the loop. *)
Definition tokenizeEnd (st : TokState) : list string :=
  if Js.truthy (current st) then tokens st ++ [current st] else tokens st.

Definition tokenizeInit : TokState := mkTok [] EmptyString false None false.

Definition tokenize (input : string) : list string :=
  tokenizeEnd (tokenizeLoop tokenizeInit input).

(** ** Input parser ([CommandProcessor.parseInput], [processToken]) *)

(** A flag is stored as a boolean or as a string value. *)
Inductive FlagValue :=
| FlagBool (b : bool)
| FlagString (s : string).

Inductive RedirectMode := write | append.

(** What the parsing loop accumulates: [args] and [flags] are mutated
    in place by [processToken]; the redirect fields are the two locals
    of [parseInput] that its [onRedirect] callback assigns. *)
Record ParseAcc := mkAcc {
  accArgs : list string;
  accFlags : gmap string FlagValue;
  accRedirectToFile : option string;
  accRedirectMode : option RedirectMode
}.

Definition setFlag (k : string) (v : FlagValue) (a : ParseAcc) : ParseAcc :=
  mkAcc (accArgs a) (<[k := v]> (accFlags a))
        (accRedirectToFile a) (accRedirectMode a).

Definition pushArg (t : string) (a : ParseAcc) : ParseAcc :=
  mkAcc (accArgs a ++ [t]) (accFlags a)
        (accRedirectToFile a) (accRedirectMode a).

Definition onRedirect (f : string) (m : RedirectMode) (a : ParseAcc) : ParseAcc :=
  mkAcc (accArgs a) (accFlags a) (Some f) (Some m).

(** [i + 1 < tokens.length && !tokens[i + 1].startsWith('-')], giving the
    look-ahead token when the test holds. *)
Definition flagValueAhead (toks : list string) (i : nat) : option string :=
  match toks !! (i + 1)%nat with
  | Some t => if Js.startsWith t "-" then None else Some t
  | None => None
  end.

(** The loop over the characters of a short-flag group: [j] is the index
    of the head of [chars] in [flagChars], [len] is [flagChars.length]. *)
Fixpoint shortFlags (chars : string) (j len : nat) (toks : list string)
    (i : nat) (a : ParseAcc) : nat * ParseAcc :=
  match chars with
  | EmptyString => (i, a)
  | String flagChar rest =>
      let key := String flagChar EmptyString in
      let '(i', a') :=
        if (j =? len - 1)%nat then
          match flagValueAhead toks i with
          | Some v => ((i + 1)%nat, setFlag key (FlagString v) a)
          | None => (i, setFlag key (FlagBool true) a)
          end
        else (i, setFlag key (FlagBool true) a) in
      shortFlags rest (S j) len toks i' a'
  end.

(** [processToken(token, tokens, currentIndex, args, flags, onRedirect)]:
    returns the index of the last token it consumed.  Both call sites
    pass the callback, so the test [&& onRedirect] is always true. *)
Definition processToken (token : string) (toks : list string)
    (currentIndex : nat) (a : ParseAcc) : nat * ParseAcc :=
  let i := currentIndex in
  if String.eqb token ">" || String.eqb token ">>" then
    let mode := if String.eqb token ">>" then append else write in
    match toks !! (i + 1)%nat with
    | Some target => ((i + 1)%nat, onRedirect target mode a)
    | None => (i, a)
    end
  else if Js.startsWith token "--" then
    let equalIndex := Js.indexOf "="%char token in
    if (0 <? equalIndex)%Z then
      let flagName := Js.substring 2 (Z.to_nat equalIndex) token in
      let flagValue := Js.slice (Z.to_nat equalIndex + 1) token in
      (i, setFlag flagName (FlagString flagValue) a)
    else
      let flagName := Js.slice 2 token in
      match flagValueAhead toks i with
      | Some v => ((i + 1)%nat, setFlag flagName (FlagString v) a)
      | None => (i, setFlag flagName (FlagBool true) a)
      end
  else if Js.startsWith token "-" && (1 <? String.length token)%nat then
    let flagChars := Js.slice 1 token in
    shortFlags flagChars 0 (String.length flagChars) toks i a
  else
    (i, pushArg token a).

(** [for (let i = start; i < tokens.length; i++) i = processToken(...)].
    Every iteration moves [i] forward, so [tokens.length] iterations are
    enough; [fuel] bounds their number. *)
Fixpoint parseLoop (fuel : nat) (toks : list string) (i : nat)
    (a : ParseAcc) : ParseAcc :=
  match fuel with
  | O => a
  | S fuel' =>
      match toks !! i with
      | None => a
      | Some token =>
          let '(i', a') := processToken token toks i a in
          parseLoop fuel' toks (S i') a'
      end
  end.

Record ParsedInput := mkParsed {
  command : string;
  args : list string;
  flags : gmap string FlagValue;
  redirectToFile : option string;
  redirectMode : option RedirectMode
}.

Definition parsedOf (cmd : string) (a : ParseAcc) : ParsedInput :=
  mkParsed cmd (accArgs a) (accFlags a)
           (accRedirectToFile a) (accRedirectMode a).

Definition parseInput (input : string) : ParsedInput :=
  let toks := tokenize input in
  match toks with
  | [] => mkParsed "" [] ∅ None None
  | command0 :: _ =>
      if Js.startsWith command0 "./" && (2 <? String.length command0)%nat then
        let scriptName := Js.slice 2 command0 in
        parsedOf "./"
          (parseLoop (length toks) toks 1 (mkAcc [scriptName] ∅ None None))
      else
        parsedOf command0
          (parseLoop (length toks) toks 1 (mkAcc [] ∅ None None))
  end.

(** ** Insertion-ordered maps (the [Map] of a node's [children]) *)

Module JsMap.
Section Ops.
Context {V : Type}.

Definition t := list (string * V).

(** [m.get(k)] *)
Fixpoint get (k : string) (m : t) : option V :=
  match m with
  | [] => None
  | (k', v) :: m' => if String.eqb k' k then Some v else get k m'
  end.

(** [m.has(k)] *)
Definition has (k : string) (m : t) : bool :=
  match get k m with Some _ => true | None => false end.

(** [m.set(k, v)]: an existing key keeps its position, a new key goes
    last. *)
Fixpoint set (k : string) (v : V) (m : t) : t :=
  match m with
  | [] => [(k, v)]
  | (k', v') :: m' =>
      if String.eqb k' k then (k', v) :: m' else (k', v') :: set k v m'
  end.

(** [m.delete(k)] *)
Fixpoint delete (k : string) (m : t) : t :=
  match m with
  | [] => []
  | (k', v') :: m' =>
      if String.eqb k' k then delete k m' else (k', v') :: delete k m'
  end.

(** [Array.from(m.values())] *)
Definition values (m : t) : list V := List.map snd m.

Definition keys (m : t) : list string := List.map fst m.

(** [m.size] *)
Definition size (m : t) : nat := List.length m.
End Ops.
Arguments t : clear implicits.
End JsMap.

(** ** Virtual tree ([VirtualFileSystem]) *)

Definition Date := nat.

Inductive NodeType := file | directory.

Definition NodeType_eqb (a b : NodeType) : bool :=
  match a, b with
  | file, file | directory, directory => true
  | _, _ => false
  end.

#[local] Unset Elimination Schemes.
(** [IFileSystemNode]; the optional fields are options. *)
Inductive IFileSystemNode := mkNode {
  name : string;
  type : NodeType;
  content : option string;
  children : option (list (string * IFileSystemNode));
  permissions : string;
  created : Date;
  modified : Date;
  size : nat
}.
#[local] Set Elimination Schemes.

Definition withChildren (n : IFileSystemNode)
    (ch : JsMap.t IFileSystemNode) : IFileSystemNode :=
  mkNode (name n) (type n) (content n) (Some ch) (permissions n)
         (created n) (modified n) (size n).

Definition withModified (n : IFileSystemNode) (now : Date) : IFileSystemNode :=
  mkNode (name n) (type n) (content n) (children n) (permissions n)
         (created n) now (size n).

(** [node.content = c; node.size = c.length; node.modified = now] *)
Definition withContent (c : string) (now : Date)
    (n : IFileSystemNode) : IFileSystemNode :=
  mkNode (name n) (type n) (Some c) (children n) (permissions n)
         (created n) now (String.length c).

Record VirtualFileSystem := mkFs {
  root : IFileSystemNode;
  currentPath : string;
  homeDirectory : string
}.

(** [createNode(name, type, content?)] *)
Definition createNode (nm : string) (ty : NodeType) (c : option string)
    (now : Date) : IFileSystemNode :=
  let text := match c with Some s => s | None => "" end in
  mkNode nm ty (Some text)
         (match ty with directory => Some [] | file => None end)
         (match ty with directory => "rwxr-xr-x" | file => "rw-r--r--" end)
         now now (String.length text).

Definition newline : string := String "010"%char EmptyString.

(** [createInitialStructure()] *)
Definition createInitialStructure (now : Date) : IFileSystemNode :=
  let documents := createNode "Documents" directory None now in
  let downloads := createNode "Downloads" directory None now in
  let pictures := createNode "Pictures" directory None now in
  let videos := createNode "Videos" directory None now in
  let readme := createNode "readme.txt" file
      (Some ("Welcome to H-Terminal!" +:+ newline +:+
             "This is a virtual file system.")) now in
  let script := createNode "script.sh" file
      (Some ("#!/bin/bash" +:+ newline +:+ "echo " +:+ String dquote
             "Hello World!" +:+ String dquote "")) now in
  let user := withChildren (createNode "user" directory None now)
      (JsMap.set "script.sh" script
        (JsMap.set "readme.txt" readme
          (JsMap.set "Videos" videos
            (JsMap.set "Pictures" pictures
              (JsMap.set "Downloads" downloads
                (JsMap.set "Documents" documents [])))))) in
  let home := withChildren (createNode "home" directory None now)
      (JsMap.set "user" user []) in
  mkNode "" directory None (Some (JsMap.set "home" home []))
         "rwxr-xr-x" now now 0.

(** The constructor, with nothing in storage. *)
Definition newVirtualFileSystem (home : string) (now : Date) : VirtualFileSystem :=
  mkFs (createInitialStructure now) "~" home.

(** The segments [absolutePath.split('/').filter(p => p)]. *)
Definition pathParts (absolutePath : string) : list string :=
  Js.filterTruthy (Js.split "/" absolutePath).

(** The loop of [getNodeByPath]: walk down from [cur] by child name. *)
Fixpoint walk (parts : list string) (cur : IFileSystemNode)
    : option IFileSystemNode :=
  match parts with
  | [] => Some cur
  | part :: rest =>
      match children cur with
      | None => None
      | Some ch =>
          match JsMap.get part ch with
          | None => None
          | Some child => walk rest child
          end
      end
  end.

(** The in-place mutation [f] of the node that [walk parts] reaches,
    seen from the node the walk starts at. *)
Fixpoint updateAt (parts : list string)
    (f : IFileSystemNode -> IFileSystemNode)
    (cur : IFileSystemNode) : IFileSystemNode :=
  match parts with
  | [] => f cur
  | part :: rest =>
      match children cur with
      | None => cur
      | Some ch =>
          match JsMap.get part ch with
          | None => cur
          | Some child =>
              withChildren cur (JsMap.set part (updateAt rest f child) ch)
          end
      end
  end.

(** Updating the entry [k] of the node at [parts] is an update of that
    node. *)
Definition updateChild (k : string)
    (f : IFileSystemNode -> IFileSystemNode)
    (cur : IFileSystemNode) : IFileSystemNode :=
  match children cur with
  | Some ch =>
      match JsMap.get k ch with
      | Some c => withChildren cur (JsMap.set k (f c) ch)
      | None => cur
      end
  | None => cur
  end.

Section Fs.

(** [String.prototype.localeCompare]: the host's collation, negative,
    zero or positive. *)
Variable localeCompare : string -> string -> Z.

Definition getCurrentDirectory (fs : VirtualFileSystem) : string :=
  currentPath fs.

Definition getAbsolutePath (fs : VirtualFileSystem) (path : string) : string :=
  if String.eqb path "~" then homeDirectory fs
  else if Js.startsWith path "~/" then homeDirectory fs +:+ Js.slice 1 path
  else if Js.startsWith path "/" then path
  else homeDirectory fs +:+ "/" +:+ path.

(** The loop of [resolvePath] over the pieces of a [../] path. *)
Definition resolveDots (parts pathPieces : list string) : list string :=
  fold_left (fun acc part =>
               if String.eqb part ".." then Js.pop acc
               else if negb (String.eqb part ".") then acc ++ [part]
               else acc)
            pathPieces parts.

Definition resolvePath (fs : VirtualFileSystem) (path : string) : string :=
  if String.eqb path "~" then homeDirectory fs
  else if Js.startsWith path "~/" then homeDirectory fs +:+ Js.slice 1 path
  else if Js.startsWith path "/" then path
  else
    let currentAbsolute := getAbsolutePath fs (currentPath fs) in
    if String.eqb path "." then currentAbsolute
    else if String.eqb path ".." then
      "/" +:+ Js.join "/" (Js.pop (pathParts currentAbsolute))
    else if Js.startsWith path "../" then
      "/" +:+ Js.join "/"
        (resolveDots (pathParts currentAbsolute) (Js.split "/" path))
    else
      currentAbsolute +:+
        (if Js.endsWithChar "/" currentAbsolute then "" else "/") +:+ path.

Definition getNodeByPath (fs : VirtualFileSystem) (absolutePath : string)
    : option IFileSystemNode :=
  if String.eqb absolutePath "/" then Some (root fs)
  else walk (pathParts absolutePath) (root fs).

Definition getCurrentDirectoryNode (fs : VirtualFileSystem)
    : option IFileSystemNode :=
  getNodeByPath fs (getAbsolutePath fs (currentPath fs)).

Definition normalizeDisplayPath (fs : VirtualFileSystem)
    (absolutePath : string) : string :=
  if String.eqb absolutePath (homeDirectory fs) then "~"
  else if Js.startsWith absolutePath (homeDirectory fs +:+ "/") then
    "~" +:+ Js.slice (String.length (homeDirectory fs)) absolutePath
  else absolutePath.

Definition isDirectory (n : IFileSystemNode) : bool :=
  NodeType_eqb (type n) directory.

Definition isFile (n : IFileSystemNode) : bool :=
  NodeType_eqb (type n) file.

Definition setCurrentDirectory (fs : VirtualFileSystem) (path : string)
    : bool * VirtualFileSystem :=
  let resolvedPath := resolvePath fs path in
  match getNodeByPath fs resolvedPath with
  | None => (false, fs)
  | Some node =>
      if negb (isDirectory node) then (false, fs)
      else (true, mkFs (root fs) (normalizeDisplayPath fs resolvedPath)
                       (homeDirectory fs))
  end.

(** The comparator handed to [sort] in [listDirectory]. *)
Definition compareNodes (a b : IFileSystemNode) : Z :=
  if negb (NodeType_eqb (type a) (type b)) then
    (if isDirectory a then (-1)%Z else 1%Z)
  else localeCompare (name a) (name b).

(** [Array.prototype.sort(cmp)], as a stable insertion sort. *)
Fixpoint insertBy {A} (cmp : A -> A -> Z) (x : A) (l : list A) : list A :=
  match l with
  | [] => [x]
  | y :: l' =>
      if (cmp x y <=? 0)%Z then x :: y :: l' else y :: insertBy cmp x l'
  end.

Definition sortBy {A} (cmp : A -> A -> Z) (l : list A) : list A :=
  fold_right (insertBy cmp) [] l.

(** [path ? this.resolvePath(path) : this.getAbsolutePath(this.currentPath)]:
    an absent or empty [path] means the current directory. *)
Definition listTarget (fs : VirtualFileSystem) (path : option string)
    : string :=
  match path with
  | Some p => if Js.truthy p then resolvePath fs p
              else getAbsolutePath fs (currentPath fs)
  | None => getAbsolutePath fs (currentPath fs)
  end.

(** [listDirectory(path?)] *)
Definition listDirectory (fs : VirtualFileSystem) (path : option string)
    : list IFileSystemNode :=
  let targetPath := listTarget fs path in
  match getNodeByPath fs targetPath with
  | None => []
  | Some node =>
      if negb (isDirectory node) then []
      else match children node with
           | None => []
           | Some ch => sortBy compareNodes (JsMap.values ch)
           end
  end.

Definition getNode (fs : VirtualFileSystem) (path : string)
    : option IFileSystemNode :=
  if Js.includesChar "/" path then getNodeByPath fs (resolvePath fs path)
  else
    match getCurrentDirectoryNode fs with
    | None => None
    | Some currentNode =>
        match children currentNode with
        | None => None
        | Some ch => JsMap.get path ch
        end
    end.

Definition exists_ (fs : VirtualFileSystem) (path : string) : bool :=
  match getNode fs path with Some _ => true | None => false end.

(** The segments leading to the current directory node. *)
Definition currentParts (fs : VirtualFileSystem) : list string :=
  pathParts (getAbsolutePath fs (currentPath fs)).

(** The segments leading to the node that [getNode path] returns. *)
Definition getNodeParts (fs : VirtualFileSystem) (path : string)
    : list string :=
  if Js.includesChar "/" path then pathParts (resolvePath fs path)
  else currentParts fs ++ [path].

Definition updateRoot (fs : VirtualFileSystem) (parts : list string)
    (f : IFileSystemNode -> IFileSystemNode) : VirtualFileSystem :=
  mkFs (updateAt parts f (root fs)) (currentPath fs) (homeDirectory fs).

(** [currentNode.children.set(k, v); currentNode.modified = now] *)
Definition addChild (k : string) (v : IFileSystemNode) (now : Date)
    (cur : IFileSystemNode) : IFileSystemNode :=
  match children cur with
  | Some ch => withModified (withChildren cur (JsMap.set k v ch)) now
  | None => cur
  end.

(** [currentNode.children.delete(k); currentNode.modified = now] *)
Definition removeChild (k : string) (now : Date)
    (cur : IFileSystemNode) : IFileSystemNode :=
  match children cur with
  | Some ch => withModified (withChildren cur (JsMap.delete k ch)) now
  | None => cur
  end.

(** The common body of [createFile] and [createDirectory]. *)
Definition createEntry (fs : VirtualFileSystem) (nm : string)
    (ty : NodeType) (c : option string) (now : Date)
    : bool * VirtualFileSystem :=
  if exists_ fs nm then (false, fs)
  else
    match getCurrentDirectoryNode fs with
    | None => (false, fs)
    | Some currentNode =>
        match children currentNode with
        | None => (false, fs)
        | Some _ =>
            (true, updateRoot fs (currentParts fs)
                     (addChild nm (createNode nm ty c now) now))
        end
    end.

(** [createFile(name, content = '')] *)
Definition createFile (fs : VirtualFileSystem) (nm : string)
    (c : string) (now : Date) : bool * VirtualFileSystem :=
  createEntry fs nm file (Some c) now.

Definition createDirectory (fs : VirtualFileSystem) (nm : string)
    (now : Date) : bool * VirtualFileSystem :=
  createEntry fs nm directory None now.

(** [node.children && node.children.size > 0] *)
Definition hasChildren (n : IFileSystemNode) : bool :=
  match children n with
  | Some ch => (0 <? JsMap.size ch)%nat
  | None => false
  end.

(** [deleteNode(name, recursive = false)] *)
Definition deleteNode (fs : VirtualFileSystem) (nm : string)
    (recursive : bool) (now : Date) : bool * VirtualFileSystem :=
  match getCurrentDirectoryNode fs with
  | None => (false, fs)
  | Some currentNode =>
      match children currentNode with
      | None => (false, fs)
      | Some ch =>
          match JsMap.get nm ch with
          | None => (false, fs)
          | Some node =>
              if isDirectory node && hasChildren node && negb recursive
              then (false, fs)
              else (true, updateRoot fs (currentParts fs)
                            (removeChild nm now))
          end
      end
  end.

(** [readFile(name)]: [None] is the source's [null]. *)
Definition readFile (fs : VirtualFileSystem) (nm : string) : option string :=
  match getNode fs nm with
  | None => None
  | Some node =>
      if negb (isFile node) then None
      else Some (match content node with Some s => s | None => "" end)
  end.

Definition writeFile (fs : VirtualFileSystem) (nm : string) (c : string)
    (now : Date) : bool * VirtualFileSystem :=
  match getNode fs nm with
  | Some node =>
      if isFile node
      then (true, updateRoot fs (getNodeParts fs nm) (withContent c now))
      else createFile fs nm c now
  | None => createFile fs nm c now
  end.

End Fs.

(** ** Commands, registry and dispatcher ([CommandProcessor]) *)

(** The objects a command context refers to and a handler may mutate:
    the virtual tree, the environment table, the lines handed to the
    terminal ([addOutput(text, className)], newest last), and the
    reading of the clock during the dispatch. *)
Record World := mkWorld {
  fileSystem : VirtualFileSystem;
  environment : gmap string string;
  terminal : list (string * string);
  clock : Date
}.

Definition withFileSystem (w : World) (fs : VirtualFileSystem) : World :=
  mkWorld fs (environment w) (terminal w) (clock w).

Definition addOutput (text className : string) (w : World) : World :=
  mkWorld (fileSystem w) (environment w)
          (terminal w ++ [(text, className)]) (clock w).

(** The value fields of [ICommandContext]. *)
Record ICommandContext := mkContext {
  ctxArgs : list string;
  ctxFlags : gmap string FlagValue;
  workingDirectory : string
}.

Record ICommandResult := mkResult {
  success : bool;
  output : option (list string);
  error : option string;
  exitCode : nat
}.

(** How a handler ends: with a result, or by throwing; [message] is
    [Some] for an [Error] instance. *)
Inductive Outcome :=
| Returned (r : ICommandResult) (w : World)
| Thrown (message : option string) (w : World).

Record ICommand := mkCommand {
  cmdName : string;
  cmdDescription : string;
  cmdUsage : string;
  cmdAliases : option (list string);
  execute : ICommandContext -> World -> Outcome
}.

(** [BaseCommand.success(output?)] and [BaseCommand.error(message)] *)
Definition resultSuccess (out : option (list string)) : ICommandResult :=
  mkResult true (Some (match out with Some l => l | None => [] end)) None 0.

Definition resultError (message : string) : ICommandResult :=
  mkResult false None (Some message) 1.

(** [EchoCommand] *)
Definition EchoCommand : ICommand :=
  mkCommand "echo" "Display a line of text" "echo [text...]" None
    (fun ctx w => Returned (resultSuccess (Some [Js.join " " (ctxArgs ctx)])) w).

Record CommandProcessor := mkProcessor {
  commands : gmap string ICommand;
  aliases : gmap string string
}.

Definition emptyProcessor : CommandProcessor := mkProcessor ∅ ∅.

Definition registerCommand (c : ICommand) (p : CommandProcessor)
    : CommandProcessor :=
  let key := Js.toLowerCase (cmdName c) in
  mkProcessor
    (<[key := c]> (commands p))
    (match cmdAliases c with
     | Some als =>
         fold_left (fun m alias => <[Js.toLowerCase alias := key]> m)
                   als (aliases p)
     | None => aliases p
     end).

Definition unregisterCommand (nm : string) (p : CommandProcessor)
    : CommandProcessor :=
  let key := Js.toLowerCase nm in
  match commands p !! key with
  | Some c =>
      mkProcessor
        (delete key (commands p))
        (match cmdAliases c with
         | Some als =>
             fold_left (fun m alias => delete (Js.toLowerCase alias) m)
                       als (aliases p)
         | None => aliases p
         end)
  | None => p
  end.

(** [this.aliases.get(key) || key]: an empty alias target is falsy. *)
Definition resolveAlias (p : CommandProcessor) (key : string) : string :=
  match aliases p !! key with
  | Some target => if Js.truthy target then target else key
  | None => key
  end.

Definition getCommand (p : CommandProcessor) (nm : string) : option ICommand :=
  commands p !! resolveAlias p (Js.toLowerCase nm).

Section Dispatch.

(** [writeToFile]; the tree's [writeFile] never throws. *)
Definition writeToFile (w : World) (filename content0 : string)
    : bool * World :=
  let '(ok, fs') := writeFile (fileSystem w) filename content0 (clock w) in
  (ok, withFileSystem w fs').

Definition appendToFile (w : World) (filename content0 : string)
    : bool * World :=
  let existingContent :=
    match readFile (fileSystem w) filename with
    | Some s => s
    | None => ""
    end in
  let newContent :=
    existingContent +:+
    (if Js.truthy existingContent then newline else "") +:+ content0 in
  let '(ok, fs') := writeFile (fileSystem w) filename newContent (clock w) in
  (ok, withFileSystem w fs').

Definition isTruthyTarget (f : option string) : option string :=
  match f with
  | Some s => if Js.truthy s then Some s else None
  | None => None
  end.

(** [executeCommand(input, context)] *)
Definition executeCommand (p : CommandProcessor) (input : string)
    (cwd : string) (w : World) : ICommandResult * World :=
  if negb (Js.truthy (Js.trim input)) then
    (mkResult true None None 0, w)
  else
    let parsed := parseInput input in
    let commandName := command parsed in
    let actualCommandName := resolveAlias p (Js.toLowerCase commandName) in
    match commands p !! actualCommandName with
    | None =>
        (mkResult false None
           (Some ("bash: " +:+ commandName +:+ ": command not found")) 127,
         w)
    | Some targetCommand =>
        let fullContext := mkContext (args parsed) (flags parsed) cwd in
        match execute targetCommand fullContext w with
        | Thrown message w' =>
            (mkResult false None
               (Some (match message with
                      | Some m => m
                      | None => "Unknown error occurred"
                      end)) 1,
             w')
        | Returned result w' =>
            match isTruthyTarget (redirectToFile parsed),
                  success result, output result with
            | Some target, true, Some lines =>
                let content0 := Js.join newline lines in
                let '(writeSuccess, w'') :=
                  match redirectMode parsed with
                  | Some append => appendToFile w' target content0
                  | _ => writeToFile w' target content0
                  end in
                if writeSuccess then (mkResult true None None 0, w'')
                else
                  (mkResult false None
                     (Some ("bash: " +:+ target +:+
                            ": cannot redirect output")) 1,
                   w'')
            | _, _, _ => (result, w')
            end
        end
    end.

End Dispatch.

(** ** Script interpreter ([BashInterpreter]) *)

Section Interpreter.

Variable localeCompare : string -> string -> Z.

(** [parseCommand(line)]: quote spans only, no escapes.  The state is
    [(parts, current, inQuotes, quoteChar)]. *)
Definition parseCommandStep
    (st : list string * string * bool * option ascii) (c : ascii)
    : list string * string * bool * option ascii :=
  let '(parts, cur, inQ, q) := st in
  if isQuote c && negb inQ then (parts, cur, true, Some c)
  else if sameChar q c && inQ then (parts, cur, false, None)
  else if Ascii.eqb c " "%char && negb inQ then
    if Js.truthy cur then (parts ++ [cur], EmptyString, inQ, q)
    else (parts, cur, inQ, q)
  else (parts, cur +:+ String c EmptyString, inQ, q).

Fixpoint parseCommandLoop
    (st : list string * string * bool * option ascii) (line : string)
    : list string * string * bool * option ascii :=
  match line with
  | EmptyString => st
  | String c rest => parseCommandLoop (parseCommandStep st c) rest
  end.

Definition parseCommand (line : string) : list string :=
  let '(parts, cur, _, _) :=
    parseCommandLoop ([], EmptyString, false, None) line in
  if Js.truthy cur then parts ++ [cur] else parts.

(** [\w] of the regular expression in [executeEcho]. *)
Definition isWordChar (c : ascii) : bool :=
  let n := nat_of_ascii c in
  ((48 <=? n) && (n <=? 57) || (65 <=? n) && (n <=? 90) ||
   (97 <=? n) && (n <=? 122) || (n =? 95))%nat.

(** The replacement text for a finished [$name] match; a [$] with no
    word character after it is not a match and stays. *)
Definition expandVar (env : gmap string string) (pending : option string)
    : string :=
  match pending with
  | None => ""
  | Some EmptyString => "$"
  | Some v => match env !! v with Some s => s | None => "" end
  end.

(** [text.replace(/\$(\w+)/g, ...)], scanning left to right; [pending]
    is the variable name read so far after a [$]. *)
Fixpoint substituteVars (env : gmap string string)
    (pending : option string) (s : string) : string :=
  match s with
  | EmptyString => expandVar env pending
  | String c rest =>
      match pending with
      | Some v =>
          if isWordChar c
          then substituteVars env (Some (v +:+ String c EmptyString)) rest
          else expandVar env pending +:+
               (if Ascii.eqb c "$"%char
                then substituteVars env (Some EmptyString) rest
                else String c (substituteVars env None rest))
      | None =>
          if Ascii.eqb c "$"%char
          then substituteVars env (Some EmptyString) rest
          else String c (substituteVars env None rest)
      end
  end.

Definition executeEcho (argv : list string) (w : World) : bool * World :=
  let out := substituteVars (environment w) None (Js.join " " argv) in
  (true, addOutput out "output-line" w).

(** The body of the loop of [executeExport]:
    [const [key, value] = arg.split('=', 2)]. *)
Definition exportOne (env : gmap string string) (arg : string)
    : gmap string string :=
  match Js.split "="%char arg with
  | key :: value :: _ =>
      if Js.truthy key && Js.truthy value then <[key := value]> env else env
  | _ => env
  end.

Definition executeExport (argv : list string) (w : World) : bool * World :=
  (true, mkWorld (fileSystem w) (fold_left exportOne argv (environment w))
                 (terminal w) (clock w)).

Definition executeCd (argv : list string) (w : World) : bool * World :=
  let path := match argv with
              | a :: _ => if Js.truthy a then a else "~"
              | [] => "~"
              end in
  let '(ok, fs') := setCurrentDirectory (fileSystem w) path in
  (ok, withFileSystem w fs').

(** [n.toString()] *)
Definition numberToString (n : nat) : string :=
  DecimalString.NilZero.string_of_uint (Nat.to_uint n).

Fixpoint spaces (n : nat) : string :=
  match n with O => EmptyString | S n' => String " " (spaces n') end.

(** [s.padStart(n)] *)
Definition padStart (n : nat) (s : string) : string :=
  spaces (n - String.length s) +:+ s.

Definition escapeChar : string := String "027"%char EmptyString.

(** One line of [executeLs]. *)
Definition lsLine (f : IFileSystemNode) : string :=
  let prefix := if isDirectory f then "d" else "-" in
  let perms := if Js.truthy (permissions f) then permissions f
               else "rw-r--r--" in
  let sz := padStart 8 (numberToString (size f)) in
  let nm := if isDirectory f
            then escapeChar +:+ "[34m" +:+ name f +:+ escapeChar +:+ "[0m"
            else name f in
  prefix +:+ perms +:+ " " +:+ sz +:+ " " +:+ nm.

Definition executeLs (argv : list string) (w : World) : bool * World :=
  let files := listDirectory localeCompare (fileSystem w) None in
  (true, fold_left (fun w' f => addOutput (lsLine f) "output-line" w')
                   files w).

Definition executeScriptLine (line : string) (w : World) : bool * World :=
  match parseCommand line with
  | [] => (true, w)
  | cmd :: argv =>
      if String.eqb cmd "echo" then executeEcho argv w
      else if String.eqb cmd "export" then executeExport argv w
      else if String.eqb cmd "cd" then executeCd argv w
      else if String.eqb cmd "ls" then executeLs argv w
      else
        (false,
         addOutput ("bash: " +:+ cmd +:+ ": command not found")
                   "error-line" w)
  end.

(** The loop of [executeScript] over the kept lines. *)
Fixpoint executeLines (lines : list string) (w : World) : bool * World :=
  match lines with
  | [] => (true, w)
  | l :: rest =>
      let line := Js.trim l in
      if negb (Js.truthy line) || Js.startsWith line "#"
      then executeLines rest w
      else
        let '(ok, w') := executeScriptLine line w in
        if ok then executeLines rest w' else (false, w')
  end.

(** [executeScript(scriptPath, context)] *)
Definition executeScript (scriptPath : string) (w : World) : bool * World :=
  match readFile (fileSystem w) scriptPath with
  | None | Some EmptyString =>
      (false,
       addOutput ("bash: " +:+ scriptPath +:+ ": No such file or directory")
                 "error-line" w)
  | Some content0 =>
      let lines :=
        List.filter (fun line => Js.truthy (Js.trim line))
                    (Js.split "010"%char content0) in
      match lines with
      | [] => (true, w)
      | first :: _ =>
          let foreign :=
            if Js.startsWith first "#!" then
              let shebang := Js.trim (Js.slice 2 first) in
              negb (Js.includes "bash" shebang) &&
              negb (Js.includes "sh" shebang)
            else false in
          if foreign then
            (false,
             addOutput ("bash: " +:+ scriptPath +:+
                        ": cannot execute binary file") "error-line" w)
          else executeLines lines w
      end
  end.

End Interpreter.

(** ** Notions used to state the properties *)

(** Case-sensitive lexicographic comparison of two names, as the sign
    [localeCompare] would return for it. *)
Definition lexCompare (a b : string) : Z :=
  match String.compare a b with
  | Lt => (-1)%Z
  | Eq => 0%Z
  | Gt => 1%Z
  end.

(** The scanner's invariant on a line without backslash in which [q] is
    the only quote character: nothing is escaped, a quote that is open
    was opened by [q], and [q] occurs in no token and not in the pending
    token. *)
Definition quoteFree (q : ascii) (st : TokState) : Prop :=
  escaped st = false /\
  (inQuotes st = true -> quoteChar st = Some q) /\
  Js.includesChar q (current st) = false /\
  Forall (fun t => Js.includesChar q t = false) (tokens st).

(** A name is bare when it contains no slash. *)
Definition bareName (x : string) : bool := negb (Js.includesChar "/" x).

(** The data-model invariant of a tree: in every directory the keys of
    [children] are pairwise distinct and each child is stored under its
    own [name]. *)
Fixpoint wfNode (n : IFileSystemNode) : Prop :=
  match n with
  | mkNode _ _ _ ch _ _ _ _ =>
      match ch with
      | None => True
      | Some l =>
          NoDup (JsMap.keys l) /\
          (fix wfChildren (l : list (string * IFileSystemNode)) : Prop :=
             match l with
             | [] => True
             | (k, c) :: l' => name c = k /\ wfNode c /\ wfChildren l'
             end) l
      end
  end.

(** What the invariant asks of one entry of a [children] table. *)
Definition wfEntry (kc : string * IFileSystemNode) : Prop :=
  name (snd kc) = fst kc /\ wfNode (snd kc).

(** The current-working-path field resolves to an existing Directory. *)
Definition cwdIsDirectory (fs : VirtualFileSystem) : bool :=
  match getCurrentDirectoryNode fs with
  | Some n => isDirectory n
  | None => false
  end.

(** The mutating operations of the virtual tree, as requests. *)
Inductive FsOp :=
| OpSetCurrentDirectory (path : string)
| OpCreateFile (nm : string) (c : string)
| OpCreateDirectory (nm : string)
| OpDeleteNode (nm : string) (recursive : bool)
| OpWriteFile (nm : string) (c : string).

Definition runOp (fs : VirtualFileSystem) (req : FsOp * Date)
    : VirtualFileSystem :=
  let '(op, now) := req in
  match op with
  | OpSetCurrentDirectory path => snd (setCurrentDirectory fs path)
  | OpCreateFile nm c => snd (createFile fs nm c now)
  | OpCreateDirectory nm => snd (createDirectory fs nm now)
  | OpDeleteNode nm recursive => snd (deleteNode fs nm recursive now)
  | OpWriteFile nm c => snd (writeFile fs nm c now)
  end.

Definition runOps (ops : list (FsOp * Date)) (fs : VirtualFileSystem)
    : VirtualFileSystem :=
  fold_left runOp ops fs.

(** Two states used as concrete instances: the seeded tree of the default
    home directory, and the same tree after [cd /]. *)
Definition seededFs : VirtualFileSystem := newVirtualFileSystem "/home/user" 0.

Definition seededAtRoot : VirtualFileSystem :=
  snd (setCurrentDirectory seededFs "/").

(** Registering a list of commands in order. *)
Definition registerAll (cs : list ICommand) (p : CommandProcessor)
    : CommandProcessor :=
  fold_left (fun q c => registerCommand c q) cs p.

(** The lowercased key a command is stored under, and whether it declares
    an alias with a given lowercased key. *)
Definition commandKey (c : ICommand) : string := Js.toLowerCase (cmdName c).

Definition aliasKeys (c : ICommand) : list string :=
  match cmdAliases c with
  | Some als => List.map Js.toLowerCase als
  | None => []
  end.

(** Two commands for concrete instances: [foo] declares the alias [x],
    and a second command has [x] as its primary name. *)
Definition fooCommand : ICommand :=
  mkCommand "foo" "" "foo" (Some ["x"])
    (fun _ w => Returned (resultSuccess None) w).

Definition xCommand : ICommand :=
  mkCommand "x" "" "x" None (fun _ w => Returned (resultSuccess None) w).

(** An ordinary name: bare, not empty, and none of [~], [.] and [..]. *)
Definition ordinaryName (x : string) : bool :=
  bareName x && Js.truthy x &&
  negb (String.eqb x "~") && negb (String.eqb x ".") &&
  negb (String.eqb x "..").

(** The children table of the current directory, when there is one. *)
Definition currentChildren (fs : VirtualFileSystem)
    : option (JsMap.t IFileSystemNode) :=
  match getCurrentDirectoryNode fs with
  | Some cur => children cur
  | None => None
  end.

(** Every character of a string passes a test. *)
Fixpoint allChars (p : ascii -> bool) (s : string) : bool :=
  match s with
  | EmptyString => true
  | String c s' => p c && allChars p s'
  end.

(** A character the tokenizer copies outside quotes: no space, no quote,
    no backslash; a plain word is a non-empty string of such characters. *)
Definition plainChar (c : ascii) : bool :=
  negb (Ascii.eqb c " " || isQuote c || Ascii.eqb c "\").

Definition plainWord (w : string) : bool := Js.truthy w && allChars plainChar w.


(** ** Completion of command names *)

(** The keys of a table.  The table type does not keep insertion order;
    [getCompletions] sorts what it collects, after removing duplicates, so
    its result does not depend on that order. *)
Definition mapKeys {V} (m : gmap string V) : list string :=
  List.map fst (map_to_list m).

(** [[...new Set(xs)]]: the elements in order of first occurrence. *)
Definition newSet (xs : list string) : list string :=
  fold_left (fun acc x => if bool_decide (x ∈ acc) then acc else acc ++ [x])
            xs [].

Section Completions.

(** A command's own [getCompletions] method, for the commands that have
    one. *)
Variable argCompletions : ICommand -> option (list string -> list string).

(** [getCompletions(input)]; [sort()] without comparator orders strings by
    their character codes. *)
Definition getCompletions (p : CommandProcessor) (input : string)
    : list string :=
  let parsed := parseInput input in
  if (List.length (args parsed) =? 0)%nat && negb (Js.endsWithChar " " input)
  then
    let matchingCommands :=
      List.filter
        (fun name => Js.startsWith name (Js.toLowerCase (command parsed)))
        (mapKeys (commands p)) ++
      List.filter
        (fun alias => Js.startsWith alias (Js.toLowerCase (command parsed)))
        (mapKeys (aliases p)) in
    sortBy lexCompare (newSet matchingCommands)
  else
    match commands p !! resolveAlias p (Js.toLowerCase (command parsed)) with
    | Some commandObj =>
        match argCompletions commandObj with
        | Some complete => complete (args parsed)
        | None => []
        end
    | None => []
    end.

End Completions.

(** ** Command history (src/core/Terminal.ts, class TerminalHistory) *)

Module TerminalHistory.

(** The fields of the class.  What is written to and read from
    [localStorage] is the [history] array itself; the constructor's load is
    the argument [stored] of [create]. *)
Record t := mk {
  history : list string;
  currentIndex : Z;
  maxSize : Z
}.

(** [arr[i]] for a number [i]: [undefined] outside the array. *)
Definition at_ {A} (l : list A) (i : Z) : option A :=
  if (i <? 0)%Z then None else l !! Z.to_nat i.

Definition len (h : t) : Z := Z.of_nat (List.length (history h)).

(** [new TerminalHistory(maxSize)]; [stored] is the array found in storage,
    if there was one. *)
Definition create (maxSize0 : Z) (stored : option (list string)) : t :=
  match stored with
  | Some l => mk l (Z.of_nat (List.length l)) maxSize0
  | None => mk [] (-1)%Z maxSize0
  end.

(** [add(command)] *)
Definition add (command : string) (h : t) : t :=
  if String.eqb (Js.trim command) "" then h
  else if match at_ (history h) (len h - 1)%Z with
          | Some lastCommand => String.eqb lastCommand command
          | None => false
          end
  then h
  else
    let pushed := history h ++ [command] in
    let kept :=
      if (Z.of_nat (List.length pushed) >? maxSize h)%Z
      then List.tl pushed else pushed in
    mk kept (Z.of_nat (List.length kept)) (maxSize h).

Definition get (h : t) (index : Z) : option string := at_ (history h) index.

Definition getAll (h : t) : list string := history h.

(** [getPrevious()]: the returned value and the state after the call. *)
Definition getPrevious (h : t) : option string * t :=
  if (currentIndex h >? 0)%Z then
    let h' := mk (history h) (currentIndex h - 1)%Z (maxSize h) in
    (at_ (history h') (currentIndex h'), h')
  else (None, h).

(** [getNext()] *)
Definition getNext (h : t) : option string * t :=
  if (currentIndex h <? len h - 1)%Z then
    let h' := mk (history h) (currentIndex h + 1)%Z (maxSize h) in
    (at_ (history h') (currentIndex h'), h')
  else (Some "", mk (history h) (len h) (maxSize h)).

Definition clear (h : t) : t := mk [] (-1)%Z (maxSize h).

Definition size (h : t) : Z := len h.

Definition resetIndex (h : t) : t := mk (history h) (len h) (maxSize h).

End TerminalHistory.

(** The calls that change a history, and a sequence of them. *)
Inductive HistoryOp :=
| HAdd (command : string)
| HPrevious
| HNext
| HClear
| HResetIndex.

Definition runHistoryOp (h : TerminalHistory.t) (op : HistoryOp)
    : TerminalHistory.t :=
  match op with
  | HAdd c => TerminalHistory.add c h
  | HPrevious => snd (TerminalHistory.getPrevious h)
  | HNext => snd (TerminalHistory.getNext h)
  | HClear => TerminalHistory.clear h
  | HResetIndex => TerminalHistory.resetIndex h
  end.

Definition runHistoryOps (ops : list HistoryOp) (h : TerminalHistory.t)
    : TerminalHistory.t :=
  fold_left runHistoryOp ops h.

(** No entry is equal to the one right after it. *)
Fixpoint noRepeat (l : list string) : Prop :=
  match l with
  | a :: (b :: _) as rest => a <> b /\ noRepeat rest
  | _ => True
  end.

(** The values returned by [n] calls of [getPrevious] in a row, and the
    state after them. *)
Fixpoint previousN (n : nat) (h : TerminalHistory.t)
    : list (option string) * TerminalHistory.t :=
  match n with
  | O => ([], h)
  | S n' =>
      let '(r, h1) := TerminalHistory.getPrevious h in
      let '(rs, h2) := previousN n' h1 in
      (r :: rs, h2)
  end.

(** What holds of a history that was started empty: at most [maxSize]
    entries (none when [maxSize] is not positive), no blank entry, no entry
    repeated right after itself, and an index between -1 and the length. *)
Definition historyInv (h : TerminalHistory.t) : Prop :=
  (TerminalHistory.size h <= Z.max 0 (TerminalHistory.maxSize h))%Z /\
  Forall (fun c => Js.trim c <> "") (TerminalHistory.getAll h) /\
  noRepeat (TerminalHistory.getAll h) /\
  (-1 <= TerminalHistory.currentIndex h <= TerminalHistory.size h)%Z.

(** A variable name as [\w+] matches it, and a text at whose start such a
    match ends. *)
Definition wordName (v : string) : bool := Js.truthy v && allChars isWordChar v.

Definition startsNonWord (s : string) : bool :=
  match s with
  | EmptyString => true
  | String c _ => negb (isWordChar c)
  end.

(** What a script run may change of the world: the current directory, the
    environment and the terminal lines, which only grow. *)
Definition scriptFrame (w w' : World) : Prop :=
  root (fileSystem w') = root (fileSystem w) /\
  homeDirectory (fileSystem w') = homeDirectory (fileSystem w) /\
  clock w' = clock w /\
  exists out, terminal w' = terminal w ++ out.

(** ** File commands ([BaseCommand] and the commands built on it) *)

(** [validateArgs(args, minArgs, maxArgs?)] of a command with the given
    [name] and [usage]: the error result, or [None] for the source's
    [null]. *)
Definition validateArgs (nm usage : string) (argv : list string)
    (minArgs : nat) (maxArgs : option nat) : option ICommandResult :=
  if (List.length argv <? minArgs)%nat then
    Some (resultError (nm +:+ ": missing arguments" +:+ newline +:+
                       "Usage: " +:+ usage))
  else
    match maxArgs with
    | Some m =>
        if (m <? List.length argv)%nat then
          Some (resultError (nm +:+ ": too many arguments" +:+ newline +:+
                             "Usage: " +:+ usage))
        else None
    | None => None
    end.

(** [hasFlag(flags, flag)]: present and exactly [true]. *)
Definition hasFlag (fl : gmap string FlagValue) (flag : string) : bool :=
  match fl !! flag with
  | Some (FlagBool true) => true
  | _ => false
  end.

(** [args[0] || dflt] *)
Definition firstArgOr (dflt : string) (argv : list string) : string :=
  match argv with
  | a :: _ => if Js.truthy a then a else dflt
  | [] => dflt
  end.

Definition PwdCommand : ICommand :=
  mkCommand "pwd" "Print name of current/working directory" "pwd" None
    (fun _ w =>
       let currentDir := getCurrentDirectory (fileSystem w) in
       let absolutePath := getAbsolutePath (fileSystem w) currentDir in
       Returned (resultSuccess (Some [absolutePath])) w).

Definition CdCommand : ICommand :=
  mkCommand "cd" "Change the current directory" "cd [directory]" None
    (fun ctx w =>
       let targetPath := firstArgOr "~" (ctxArgs ctx) in
       let '(ok, fs') := setCurrentDirectory (fileSystem w) targetPath in
       if negb ok then
         Returned (resultError ("cd: " +:+ targetPath +:+
                                ": No such file or directory"))
                  (withFileSystem w fs')
       else Returned (resultSuccess None) (withFileSystem w fs')).

(** The loop of [MkdirCommand.execute]; [errors] is the array of that
    name. *)
Fixpoint mkdirLoop (argv : list string) (errors : list string) (w : World)
    : list string * World :=
  match argv with
  | [] => (errors, w)
  | dirName :: rest =>
      let '(ok, fs') := createDirectory (fileSystem w) dirName (clock w) in
      if ok then mkdirLoop rest errors (withFileSystem w fs')
      else
        mkdirLoop rest
          (errors ++ ["mkdir: cannot create directory '" +:+ dirName +:+
                      "': File exists or invalid name"])
          (withFileSystem w fs')
  end.

Definition MkdirCommand : ICommand :=
  mkCommand "mkdir" "Create directories" "mkdir [options] directory..." None
    (fun ctx w =>
       match validateArgs "mkdir" "mkdir [options] directory..."
                          (ctxArgs ctx) 1 None with
       | Some validation => Returned validation w
       | None =>
           let '(errors, w') := mkdirLoop (ctxArgs ctx) [] w in
           if (0 <? List.length errors)%nat
           then Returned (resultError (Js.join newline errors)) w'
           else Returned (resultSuccess None) w'
       end).

(** The loop of [CatCommand.execute]: it returns at the first file that
    cannot be read. *)
Fixpoint catLoop (fs : VirtualFileSystem) (argv : list string)
    (out : list string) : ICommandResult :=
  match argv with
  | [] => resultSuccess (Some out)
  | fileName :: rest =>
      match readFile fs fileName with
      | None =>
          resultError ("cat: " +:+ fileName +:+ ": No such file or directory")
      | Some content0 =>
          if Js.truthy content0
          then catLoop fs rest (out ++ Js.split "010"%char content0)
          else catLoop fs rest out
      end
  end.

Definition CatCommand : ICommand :=
  mkCommand "cat" "Display file contents" "cat file..." None
    (fun ctx w =>
       match validateArgs "cat" "cat file..." (ctxArgs ctx) 1 None with
       | Some validation => Returned validation w
       | None => Returned (catLoop (fileSystem w) (ctxArgs ctx) []) w
       end).

(** The loop of [RmCommand.execute]. *)
Fixpoint rmLoop (recursive force : bool) (argv : list string)
    (errors : list string) (w : World) : list string * World :=
  match argv with
  | [] => (errors, w)
  | fileName :: rest =>
      if negb (exists_ (fileSystem w) fileName) && negb force then
        rmLoop recursive force rest
          (errors ++ ["rm: cannot remove '" +:+ fileName +:+
                      "': No such file or directory"]) w
      else
        let '(ok, fs') :=
          deleteNode (fileSystem w) fileName recursive (clock w) in
        if negb ok && negb force then
          rmLoop recursive force rest
            (errors ++ ["rm: cannot remove '" +:+ fileName +:+
                        "': Directory not empty (use -r to remove directories)"])
            (withFileSystem w fs')
        else rmLoop recursive force rest errors (withFileSystem w fs')
  end.

Definition RmCommand : ICommand :=
  mkCommand "rm" "Remove files and directories" "rm [options] file..." None
    (fun ctx w =>
       match validateArgs "rm" "rm [options] file..." (ctxArgs ctx) 1 None with
       | Some validation => Returned validation w
       | None =>
           let recursive :=
             hasFlag (ctxFlags ctx) "r" || hasFlag (ctxFlags ctx) "R" ||
             hasFlag (ctxFlags ctx) "recursive" in
           let force :=
             hasFlag (ctxFlags ctx) "f" || hasFlag (ctxFlags ctx) "force" in
           let '(errors, w') :=
             rmLoop recursive force (ctxArgs ctx) [] w in
           if (0 <? List.length errors)%nat
           then Returned (resultError (Js.join newline errors)) w'
           else Returned (resultSuccess None) w'
       end).

(** A word that the input parser takes as an argument: a plain word that
    does not start with [-] and is not a redirection operator. *)
Definition argWord (w : string) : bool :=
  plainWord w && negb (Js.startsWith w "-") &&
  negb (String.eqb w ">") && negb (String.eqb w ">>").

(** ** Saving and loading the tree ([saveToStorage], [loadFromStorage]) *)

#[local] Unset Elimination Schemes.
(** The plain object that [serializeNode] builds for a node: the dates are
    ISO strings and [children] is an array of [[key, child]] pairs.
    [JSON.stringify] and [JSON.parse] carry it to and from storage as it
    is. *)
Inductive SerializedNode := mkSerialized {
  sName : string;
  sType : NodeType;
  sContent : option string;
  sPermissions : string;
  sCreated : string;
  sModified : string;
  sSize : nat;
  sChildren : option (list (string * SerializedNode))
}.
#[local] Set Elimination Schemes.

(** The object written under the storage key. *)
Record StoredFileSystem := mkStored {
  storedRoot : SerializedNode;
  storedCurrentPath : string;
  storedHomeDirectory : string
}.

Section Storage.

(** [date.toISOString()] and [new Date(isoString)]. *)
Variable toISOString : Date -> string.
Variable parseDate : string -> Date.

Fixpoint serializeNode (node : IFileSystemNode) : SerializedNode :=
  match node with
  | mkNode nm ty ct ch pm cr md sz =>
      mkSerialized nm ty ct pm (toISOString cr) (toISOString md) sz
        (match ch with
         | Some entries =>
             Some (List.map (fun kc => (fst kc, serializeNode (snd kc)))
                            entries)
         | None => None
         end)
  end.

Fixpoint deserializeNode (data : SerializedNode) : IFileSystemNode :=
  match data with
  | mkSerialized nm ty ct pm cr md sz ch =>
      mkNode nm ty ct
        (match ch with
         | Some entries =>
             Some (fold_left
                     (fun m kc =>
                        JsMap.set (fst kc) (deserializeNode (snd kc)) m)
                     entries [])
         | None => None
         end)
        pm (parseDate cr) (parseDate md) sz
  end.

(** What [saveToStorage] hands to [JSON.stringify]. *)
Definition saveToStorage (fs : VirtualFileSystem) : StoredFileSystem :=
  mkStored (serializeNode (root fs)) (currentPath fs) (homeDirectory fs).

(** [loadFromStorage()], run by the constructor on the freshly built
    [fs]; [data] is the parsed storage item, if there is one. *)
Definition loadFromStorage (fs : VirtualFileSystem)
    (data : option StoredFileSystem) : VirtualFileSystem :=
  match data with
  | Some parsed =>
      mkFs (deserializeNode (storedRoot parsed))
           (if Js.truthy (storedCurrentPath parsed)
            then storedCurrentPath parsed else "~")
           (homeDirectory fs)
  | None => fs
  end.

End Storage.

(** * Properties *)

(** ** Strings *)

Lemma append_cons (c : ascii) (s t : string) :
  String c s +:+ t = String c (s +:+ t).
Proof. reflexivity. Qed.

Lemma append_nil_l (t : string) : "" +:+ t = t.
Proof. reflexivity. Qed.

Lemma append_assoc (a b c : string) : (a +:+ b) +:+ c = a +:+ (b +:+ c).
Proof.
  induction a as [|x a IH]; [reflexivity|].
  now rewrite !append_cons, IH.
Qed.

Lemma slice_append (p s : string) : Js.slice (String.length p) (p +:+ s) = s.
Proof.
  induction p as [|c p IH]; [now destruct s|].
  rewrite append_cons. simpl. exact IH.
Qed.

Lemma startsWith_split (p s : string) :
  Js.startsWith s p = true -> s = p +:+ Js.slice (String.length p) s.
Proof.
  revert s; induction p as [|c p IH]; intros s H.
  - now destruct s.
  - destruct s as [|d s]; [discriminate|]. simpl in H.
    apply andb_prop in H as [Hc Hp]. apply Ascii.eqb_eq in Hc. subst d.
    rewrite append_cons. simpl. f_equal. now apply IH.
Qed.

Lemma startsWith_append (a b p : string) :
  Js.startsWith a p = true -> Js.startsWith (a +:+ b) p = true.
Proof.
  revert a; induction p as [|c p IH]; intros a H; [reflexivity|].
  destruct a as [|d a]; [discriminate|].
  rewrite append_cons. simpl in *.
  apply andb_prop in H as [-> Hp]. simpl. now apply IH.
Qed.

(** ** Insertion-ordered maps *)

Section JsMapFacts.
Context {V : Type}.
Implicit Types (m : JsMap.t V) (k : string) (v : V).

Lemma get_set_same k v m : JsMap.get k (JsMap.set k v m) = Some v.
Proof.
  induction m as [|[k' v'] m IH]; simpl.
  - now rewrite String.eqb_refl.
  - destruct (String.eqb k' k) eqn:E; simpl; rewrite E; auto.
Qed.

Lemma get_set_other k k' v m :
  k <> k' -> JsMap.get k' (JsMap.set k v m) = JsMap.get k' m.
Proof.
  intros Hne. induction m as [|[k0 v0] m IH]; simpl.
  - destruct (String.eqb k k') eqn:E; [|reflexivity].
    apply String.eqb_eq in E. contradiction.
  - destruct (String.eqb k0 k) eqn:E; simpl.
    + apply String.eqb_eq in E; subst k0.
      destruct (String.eqb k k') eqn:E'; [|reflexivity].
      apply String.eqb_eq in E'. contradiction.
    + now rewrite IH.
Qed.

Lemma get_delete_same k m : JsMap.get k (JsMap.delete k m) = None.
Proof.
  induction m as [|[k' v'] m IH]; simpl; [reflexivity|].
  destruct (String.eqb k' k) eqn:E; simpl; [exact IH | now rewrite E].
Qed.

Lemma get_None_keys k m : JsMap.get k m = None <-> k ∉ JsMap.keys m.
Proof.
  induction m as [|[k' v'] m IH]; simpl.
  - split; [intros _; apply not_elem_of_nil | reflexivity].
  - rewrite not_elem_of_cons. destruct (String.eqb k' k) eqn:E.
    + apply String.eqb_eq in E. split; [discriminate | intros [H _]; congruence].
    + apply String.eqb_neq in E. rewrite IH. split; [auto | tauto].
Qed.

Lemma get_Some_elem k v m : JsMap.get k m = Some v -> (k, v) ∈ m.
Proof.
  induction m as [|[k' v'] m IH]; simpl; [discriminate|].
  destruct (String.eqb k' k) eqn:E.
  - apply String.eqb_eq in E. intros [= ->]. subst. apply list_elem_of_here.
  - intros H. apply list_elem_of_further. auto.
Qed.

Lemma keys_set k v m :
  JsMap.keys (JsMap.set k v m) =
  if JsMap.has k m then JsMap.keys m else JsMap.keys m ++ [k].
Proof.
  unfold JsMap.has. induction m as [|[k' v'] m IH]; simpl; [reflexivity|].
  destruct (String.eqb k' k) eqn:E; simpl; [reflexivity|].
  rewrite IH. now destruct (JsMap.get k m).
Qed.

Lemma NoDup_keys_set k v m :
  NoDup (JsMap.keys m) -> NoDup (JsMap.keys (JsMap.set k v m)).
Proof.
  intros H. rewrite keys_set. unfold JsMap.has.
  destruct (JsMap.get k m) eqn:E; [assumption|].
  apply get_None_keys in E.
  apply NoDup_app. split; [assumption|]. split.
  - intros x Hx Hk. apply list_elem_of_singleton in Hk. congruence.
  - apply NoDup_singleton.
Qed.

Lemma keys_delete_incl k m x :
  x ∈ JsMap.keys (JsMap.delete k m) -> x ∈ JsMap.keys m.
Proof.
  induction m as [|[k' v'] m IH]; simpl; [auto|].
  destruct (String.eqb k' k); simpl; rewrite ?elem_of_cons; tauto.
Qed.

Lemma NoDup_keys_delete k m :
  NoDup (JsMap.keys m) -> NoDup (JsMap.keys (JsMap.delete k m)).
Proof.
  induction m as [|[k' v'] m IH]; simpl; intros H; [constructor|].
  apply NoDup_cons in H as [Hn Hd].
  destruct (String.eqb k' k); simpl; [auto|].
  apply NoDup_cons. split; [|auto].
  intros Hin. apply Hn. eapply keys_delete_incl; eauto.
Qed.
End JsMapFacts.

(** ** Walking and updating the tree *)

Lemma getNodeByPath_walk (fs : VirtualFileSystem) (p : string) :
  getNodeByPath fs p = walk (pathParts p) (root fs).
Proof.
  unfold getNodeByPath. destruct (String.eqb p "/") eqn:E; [|reflexivity].
  apply String.eqb_eq in E. now subst.
Qed.

Lemma walk_updateAt_same parts f : forall r n,
  walk parts r = Some n -> walk parts (updateAt parts f r) = Some (f n).
Proof.
  induction parts as [|k parts IH]; intros r n H; simpl in *.
  - now injection H as ->.
  - destruct (children r) as [ch|] eqn:Hc; [|discriminate].
    destruct (JsMap.get k ch) as [c|] eqn:Hg; [|discriminate].
    simpl. rewrite get_set_same. now apply IH.
Qed.

Lemma updateAt_app parts k f : forall r,
  updateAt (parts ++ [k]) f r = updateAt parts (updateChild k f) r.
Proof.
  induction parts as [|p parts IH]; intros r; simpl.
  - reflexivity.
  - destruct (children r) as [ch|]; [|reflexivity].
    destruct (JsMap.get p ch); [now rewrite IH | reflexivity].
Qed.

(** An update that keeps [type] and [children] of the node it touches
    keeps the type of every node of the tree. *)
Lemma walk_updateAt_type f :
  (forall n, type (f n) = type n /\ children (f n) = children n) ->
  forall q p r n, walk q r = Some n ->
    exists n', walk q (updateAt p f r) = Some n' /\ type n' = type n.
Proof.
  intros Hf. induction q as [|k q IH]; intros p r n H; simpl in H.
  - injection H as <-. exists (updateAt p f r). split; [reflexivity|].
    destruct p as [|k' p]; simpl; [apply Hf|].
    destruct (children r) as [ch|]; [|reflexivity].
    now destruct (JsMap.get k' ch).
  - destruct (children r) as [ch|] eqn:Hc; [|discriminate].
    destruct (JsMap.get k ch) as [c|] eqn:Hg; [|discriminate].
    destruct p as [|k' p]; simpl.
    + destruct (Hf r) as [_ Hch]. rewrite Hch, Hc, Hg. eauto.
    + rewrite Hc. destruct (JsMap.get k' ch) as [c'|] eqn:Hg'.
      * simpl. destruct (String.eqb k' k) eqn:E.
        -- apply String.eqb_eq in E; subst k'.
           rewrite get_set_same. rewrite Hg in Hg'. injection Hg' as <-.
           now apply IH.
        -- apply String.eqb_neq in E.
           rewrite get_set_other, Hg by assumption. eauto.
      * simpl. rewrite Hc, Hg. eauto.
Qed.

(** ** Paths *)

Ltac str_norm := rewrite ?append_cons, ?append_nil_l in *.

Lemma startsWith_slash_inv (s : string) :
  Js.startsWith s "/" = true -> exists r, s = String "/" r.
Proof.
  destruct s as [|c s]; [discriminate|]. simpl. rewrite andb_true_r.
  intros H. apply Ascii.eqb_eq in H. subst c. eauto.
Qed.

Lemma getAbsolutePath_absolute (fs : VirtualFileSystem) (path : string) :
  Js.startsWith (homeDirectory fs) "/" = true ->
  Js.startsWith (getAbsolutePath fs path) "/" = true.
Proof.
  intros Hh. unfold getAbsolutePath.
  destruct (String.eqb path "~"); [assumption|].
  destruct (Js.startsWith path "~/"); [now apply startsWith_append|].
  destruct (Js.startsWith path "/") eqn:E; [assumption|].
  now apply startsWith_append.
Qed.

Lemma resolvePath_absolute (fs : VirtualFileSystem) (path : string) :
  Js.startsWith (homeDirectory fs) "/" = true ->
  Js.startsWith (resolvePath fs path) "/" = true.
Proof.
  intros Hh. unfold resolvePath.
  destruct (String.eqb path "~"); [assumption|].
  destruct (Js.startsWith path "~/"); [now apply startsWith_append|].
  destruct (Js.startsWith path "/") eqn:E; [assumption|].
  destruct (String.eqb path "."); [now apply getAbsolutePath_absolute|].
  destruct (String.eqb path ".."); [reflexivity|].
  destruct (Js.startsWith path "../"); [reflexivity|].
  apply startsWith_append. now apply getAbsolutePath_absolute.
Qed.

(** The display form of an absolute path expands back to that path. *)
Lemma getAbsolutePath_normalizeDisplayPath (fs : VirtualFileSystem) (r : string) :
  Js.startsWith r "/" = true ->
  getAbsolutePath fs (normalizeDisplayPath fs r) = r.
Proof.
  intros Hr. unfold normalizeDisplayPath.
  destruct (String.eqb r (homeDirectory fs)) eqn:E.
  - apply String.eqb_eq in E. now subst.
  - destruct (Js.startsWith r (homeDirectory fs +:+ "/")) eqn:P.
    + apply startsWith_split in P. rewrite append_assoc in P.
      set (rest := Js.slice _ r) in P.
      assert (Hs : Js.slice (String.length (homeDirectory fs)) r = "/" +:+ rest).
      { rewrite P at 1. apply slice_append. }
      rewrite Hs. str_norm. unfold getAbsolutePath. simpl.
      symmetry. exact P.
    + apply startsWith_slash_inv in Hr as [r' ->].
      reflexivity.
Qed.

(** ** The current directory *)

Lemma cwdIsDirectory_walk (fs : VirtualFileSystem) :
  cwdIsDirectory fs = true <->
  exists n, walk (currentParts fs) (root fs) = Some n /\ isDirectory n = true.
Proof.
  unfold cwdIsDirectory, getCurrentDirectoryNode. rewrite getNodeByPath_walk.
  fold (currentParts fs).
  destruct (walk (currentParts fs) (root fs)) as [n|].
  - split; [eauto | now intros [? [[= <-] ?]]].
  - split; [discriminate | now intros [? [? _]]].
Qed.

Lemma cwd_updateRoot_same (fs : VirtualFileSystem) f :
  (forall n, type (f n) = type n) ->
  cwdIsDirectory fs = true ->
  cwdIsDirectory (updateRoot fs (currentParts fs) f) = true.
Proof.
  intros Hf. rewrite !cwdIsDirectory_walk. intros [n [Hw Hd]].
  exists (f n). split.
  - now apply walk_updateAt_same.
  - unfold isDirectory in *. now rewrite Hf.
Qed.

Lemma cwd_updateRoot_shape (fs : VirtualFileSystem) parts f :
  (forall n, type (f n) = type n /\ children (f n) = children n) ->
  cwdIsDirectory fs = true ->
  cwdIsDirectory (updateRoot fs parts f) = true.
Proof.
  intros Hf. rewrite !cwdIsDirectory_walk. intros [n [Hw Hd]].
  destruct (walk_updateAt_type f Hf _ parts _ _ Hw) as [n' [Hw' Ht]].
  exists n'. split; [exact Hw'|]. unfold isDirectory in *. now rewrite Ht.
Qed.

Lemma type_addChild k v now n : type (addChild k v now n) = type n.
Proof. unfold addChild. now destruct (children n). Qed.

Lemma type_removeChild k now n : type (removeChild k now n) = type n.
Proof. unfold removeChild. now destruct (children n). Qed.

Lemma createEntry_cwd fs nm ty c now :
  cwdIsDirectory fs = true ->
  cwdIsDirectory (snd (createEntry fs nm ty c now)) = true.
Proof.
  intros H. unfold createEntry.
  destruct (exists_ fs nm); [exact H|].
  destruct (getCurrentDirectoryNode fs) as [cur|]; [|exact H].
  destruct (children cur); [|exact H].
  simpl. apply cwd_updateRoot_same; [apply type_addChild | exact H].
Qed.

Lemma setCurrentDirectory_cwd fs path :
  Js.startsWith (homeDirectory fs) "/" = true ->
  cwdIsDirectory fs = true ->
  cwdIsDirectory (snd (setCurrentDirectory fs path)) = true.
Proof.
  intros Hh H. unfold setCurrentDirectory.
  destruct (getNodeByPath fs (resolvePath fs path)) as [node|] eqn:Hn; [|exact H].
  destruct (isDirectory node) eqn:Hd; [|exact H].
  simpl. unfold cwdIsDirectory, getCurrentDirectoryNode. simpl.
  change (getAbsolutePath _ (normalizeDisplayPath fs (resolvePath fs path)))
    with (getAbsolutePath fs (normalizeDisplayPath fs (resolvePath fs path))).
  rewrite getAbsolutePath_normalizeDisplayPath
    by now apply resolvePath_absolute.
  change (getNodeByPath _ (resolvePath fs path))
    with (getNodeByPath fs (resolvePath fs path)).
  now rewrite Hn.
Qed.

Lemma deleteNode_cwd fs nm recursive now :
  cwdIsDirectory fs = true ->
  cwdIsDirectory (snd (deleteNode fs nm recursive now)) = true.
Proof.
  intros H. unfold deleteNode.
  destruct (getCurrentDirectoryNode fs) as [cur|]; [|exact H].
  destruct (children cur) as [ch|]; [|exact H].
  destruct (JsMap.get nm ch) as [node|]; [|exact H].
  destruct (isDirectory node && hasChildren node && negb recursive); [exact H|].
  simpl. apply cwd_updateRoot_same; [apply type_removeChild | exact H].
Qed.

Lemma writeFile_cwd fs nm c now :
  cwdIsDirectory fs = true ->
  cwdIsDirectory (snd (writeFile fs nm c now)) = true.
Proof.
  intros H. unfold writeFile, createFile.
  destruct (getNode fs nm) as [node|]; [|now apply createEntry_cwd].
  destruct (isFile node); [|now apply createEntry_cwd].
  simpl. apply cwd_updateRoot_shape; [|exact H].
  intros n. split; reflexivity.
Qed.

Lemma runOp_homeDirectory fs req :
  homeDirectory (runOp fs req) = homeDirectory fs.
Proof.
  destruct req as [[path|nm c|nm|nm recursive|nm c] now]; simpl.
  - unfold setCurrentDirectory.
    destruct (getNodeByPath _ _) as [node|]; [|reflexivity].
    now destruct (isDirectory node).
  - unfold createFile, createEntry.
    destruct (exists_ fs nm); [reflexivity|].
    destruct (getCurrentDirectoryNode fs) as [cur|]; [|reflexivity].
    now destruct (children cur).
  - unfold createDirectory, createEntry.
    destruct (exists_ fs nm); [reflexivity|].
    destruct (getCurrentDirectoryNode fs) as [cur|]; [|reflexivity].
    now destruct (children cur).
  - unfold deleteNode.
    destruct (getCurrentDirectoryNode fs) as [cur|]; [|reflexivity].
    destruct (children cur) as [ch|]; [|reflexivity].
    destruct (JsMap.get nm ch) as [node|]; [|reflexivity].
    now destruct (isDirectory node && hasChildren node && negb recursive).
  - unfold writeFile, createFile, createEntry.
    destruct (getNode fs nm) as [node|].
    + destruct (isFile node); [reflexivity|].
      destruct (exists_ fs nm); [reflexivity|].
      destruct (getCurrentDirectoryNode fs) as [cur|]; [|reflexivity].
      now destruct (children cur).
    + destruct (exists_ fs nm); [reflexivity|].
      destruct (getCurrentDirectoryNode fs) as [cur|]; [|reflexivity].
      now destruct (children cur).
Qed.

(** Every mutating operation keeps the current path on a directory. *)
Lemma runOp_cwd fs req :
  Js.startsWith (homeDirectory fs) "/" = true ->
  cwdIsDirectory fs = true ->
  cwdIsDirectory (runOp fs req) = true.
Proof.
  intros Hh H. destruct req as [[path|nm c|nm|nm recursive|nm c] now]; simpl.
  - now apply setCurrentDirectory_cwd.
  - now apply createEntry_cwd.
  - now apply createEntry_cwd.
  - now apply deleteNode_cwd.
  - now apply writeFile_cwd.
Qed.

Lemma runOps_cwd ops : forall fs,
  Js.startsWith (homeDirectory fs) "/" = true ->
  cwdIsDirectory fs = true ->
  cwdIsDirectory (runOps ops fs) = true.
Proof.
  induction ops as [|req ops IH]; intros fs Hh H; simpl; [exact H|].
  apply IH; [now rewrite runOp_homeDirectory | now apply runOp_cwd].
Qed.

(** C5: starting from the seeded tree, after any sequence of the mutating
    operations of the virtual tree the current-working-path field resolves
    to an existing Directory node; and [setCurrentDirectory] on a path that
    does not resolve to an existing Directory returns [false] and leaves
    the whole state, the current-path field included, unchanged. *)
Theorem currentPath_always_directory (now0 : Date) (ops : list (FsOp * Date)) :
  cwdIsDirectory (runOps ops (newVirtualFileSystem "/home/user" now0)) = true
  /\ (forall fs path,
        match getNodeByPath fs (resolvePath fs path) with
        | Some n => isDirectory n
        | None => false
        end = false ->
        setCurrentDirectory fs path = (false, fs)).
Proof.
  split.
  - apply runOps_cwd; reflexivity.
  - intros fs path H. unfold setCurrentDirectory.
    destruct (getNodeByPath fs (resolvePath fs path)) as [n|]; [|reflexivity].
    now rewrite H.
Qed.

(** ** Creating and deleting entries of the current directory *)

Lemma walk_app_list p q : forall r,
  walk (p ++ q) r =
  match walk p r with Some n => walk q n | None => None end.
Proof.
  induction p as [|k p IH]; intros r; simpl; [reflexivity|].
  destruct (children r) as [ch|]; [|reflexivity].
  destruct (JsMap.get k ch); [apply IH | reflexivity].
Qed.

Lemma getCurrentDirectoryNode_walk (fs : VirtualFileSystem) :
  getCurrentDirectoryNode fs = walk (currentParts fs) (root fs).
Proof. unfold getCurrentDirectoryNode. apply getNodeByPath_walk. Qed.

(** A bare name is looked up among the children of the current
    directory. *)
Lemma getNode_bare (fs : VirtualFileSystem) (x : string) :
  bareName x = true ->
  getNode fs x =
  match getCurrentDirectoryNode fs with
  | Some cur => match children cur with
                | Some ch => JsMap.get x ch
                | None => None
                end
  | None => None
  end.
Proof.
  unfold bareName, getNode. intros H. apply negb_true_iff in H. now rewrite H.
Qed.

Lemma getCurrentDirectoryNode_updateRoot (fs : VirtualFileSystem) f cur :
  getCurrentDirectoryNode fs = Some cur ->
  getCurrentDirectoryNode (updateRoot fs (currentParts fs) f) = Some (f cur).
Proof.
  rewrite !getCurrentDirectoryNode_walk. intros H.
  change (currentParts (updateRoot fs (currentParts fs) f))
    with (currentParts fs).
  simpl. now apply walk_updateAt_same.
Qed.

(** What a successful [createEntry] leaves behind. *)
Lemma createEntry_true fs nm ty c now fs1 :
  createEntry fs nm ty c now = (true, fs1) ->
  exists cur ch,
    getCurrentDirectoryNode fs = Some cur /\ children cur = Some ch /\
    exists_ fs nm = false /\
    fs1 = updateRoot fs (currentParts fs)
            (addChild nm (createNode nm ty c now) now) /\
    getCurrentDirectoryNode fs1 =
      Some (withModified
              (withChildren cur (JsMap.set nm (createNode nm ty c now) ch))
              now).
Proof.
  unfold createEntry. destruct (exists_ fs nm) eqn:He; [discriminate|].
  destruct (getCurrentDirectoryNode fs) as [cur|] eqn:Hc; [|discriminate].
  destruct (children cur) as [ch|] eqn:Hch; [|discriminate].
  intros [= <-]. exists cur, ch. repeat split; try reflexivity; try assumption.
  erewrite getCurrentDirectoryNode_updateRoot by eassumption.
  unfold addChild. now rewrite Hch.
Qed.

(** C7: for every name [x] (a bare name: names contain no slash) in the
    current directory, after a successful [createFile(x)], [exists(x)] is
    true and the file holds the content it was created with; a second
    [createFile(x)], whatever its content, returns [false] and leaves the
    whole tree, the first file's content included, unchanged. *)
Theorem createFile_twice (fs fs1 : VirtualFileSystem) (x c : string) (now : Date) :
  bareName x = true ->
  createFile fs x c now = (true, fs1) ->
  exists_ fs1 x = true /\
  readFile fs1 x = Some c /\
  (forall c' now', createFile fs1 x c' now' = (false, fs1)).
Proof.
  intros Hx H. unfold createFile in H.
  apply createEntry_true in H as (cur & ch & _ & _ & _ & _ & Hcur1).
  assert (Hg : getNode fs1 x = Some (createNode x file (Some c) now)).
  { rewrite getNode_bare, Hcur1 by assumption. simpl. apply get_set_same. }
  assert (He : exists_ fs1 x = true) by (unfold exists_; now rewrite Hg).
  repeat split.
  - exact He.
  - unfold readFile. now rewrite Hg.
  - intros c' now'. unfold createFile, createEntry. now rewrite He.
Qed.

Lemma createFile_twice_witness :
  bareName "notes.txt" = true /\
  exists_ (snd (createFile seededFs "notes.txt" "first" 1)) "notes.txt" = true.
Proof.
  split; [reflexivity|].
  exact (proj1 (createFile_twice seededFs _ "notes.txt" "first" 1
                  eq_refl eq_refl)).
Defined.

(** An argument with a slash is outside C7: [exists] resolves it as a path
    while [createFile] stores it as a key of the current directory, so the
    entry is not found again and a second [createFile] replaces it. *)
Example createFile_slash_argument :
  let '(ok1, fs1) := createFile seededFs "a/b" "first" 1 in
  let '(ok2, fs2) := createFile fs1 "a/b" "second" 2 in
  (ok1, exists_ fs1 "a/b", ok2) = (true, false, true).
Proof. reflexivity. Qed.

(** C8: for every non-empty directory entry [d] (a bare name) of the
    current directory, [deleteNode(d, false)] returns [false] and leaves the
    whole tree, [d] and its children included, unchanged;
    [deleteNode(d, true)] returns [true], and afterwards [exists(d)] is
    false and no path through [d] resolves any more. *)
Theorem deleteNode_nonempty_directory (fs : VirtualFileSystem) (d : string)
    (cur node : IFileSystemNode) (ch : JsMap.t IFileSystemNode) (now : Date) :
  bareName d = true ->
  getCurrentDirectoryNode fs = Some cur ->
  children cur = Some ch ->
  JsMap.get d ch = Some node ->
  isDirectory node = true ->
  hasChildren node = true ->
  deleteNode fs d false now = (false, fs) /\
  exists fs',
    deleteNode fs d true now = (true, fs') /\
    exists_ fs' d = false /\
    (forall rest, walk (currentParts fs' ++ d :: rest) (root fs') = None).
Proof.
  intros Hd Hcur Hch Hg Hdir Hne. unfold deleteNode.
  rewrite Hcur, Hch, Hg, Hdir, Hne. simpl. split; [reflexivity|].
  eexists. split; [reflexivity|].
  pose proof (getCurrentDirectoryNode_updateRoot fs (removeChild d now) cur Hcur)
    as Hcur'.
  unfold removeChild in Hcur' at 2. rewrite Hch in Hcur'.
  split.
  - unfold exists_. rewrite getNode_bare, Hcur' by assumption. simpl.
    now rewrite get_delete_same.
  - intros rest. rewrite walk_app_list.
    rewrite getCurrentDirectoryNode_walk in Hcur'. rewrite Hcur'. simpl.
    now rewrite get_delete_same.
Qed.

Lemma deleteNode_nonempty_directory_witness :
  deleteNode seededAtRoot "home" false 1 = (false, seededAtRoot).
Proof.
  refine (proj1 (deleteNode_nonempty_directory seededAtRoot "home" _ _ _ 1
                   eq_refl eq_refl eq_refl eq_refl eq_refl eq_refl)).
Defined.

(** ** Tokenizer *)

Lemma tokenizeStep_tokens_truthy st c :
  Forall (fun t => Js.truthy t = true) (tokens st) ->
  Forall (fun t => Js.truthy t = true) (tokens (tokenizeStep st c)).
Proof.
  intros H. unfold tokenizeStep.
  destruct (escaped st); [exact H|].
  destruct (Ascii.eqb c "\"); [exact H|].
  destruct (negb (inQuotes st) && isQuote c); [exact H|].
  destruct (inQuotes st && sameChar (quoteChar st) c); [exact H|].
  destruct (negb (inQuotes st) && Ascii.eqb c " "); [|exact H].
  destruct (Js.truthy (current st)) eqn:E; [|exact H].
  simpl. apply Forall_app. split; [exact H|]. now constructor.
Qed.

Lemma tokenizeLoop_tokens_truthy input : forall st,
  Forall (fun t => Js.truthy t = true) (tokens st) ->
  Forall (fun t => Js.truthy t = true) (tokens (tokenizeLoop st input)).
Proof.
  induction input as [|c input IH]; intros st H; simpl; [exact H|].
  apply IH. now apply tokenizeStep_tokens_truthy.
Qed.

Lemma tokenize_truthy (input : string) :
  Forall (fun t => Js.truthy t = true) (tokenize input).
Proof.
  unfold tokenize, tokenizeEnd.
  assert (H : Forall (fun t => Js.truthy t = true)
                     (tokens (tokenizeLoop tokenizeInit input)))
    by (apply tokenizeLoop_tokens_truthy; constructor).
  destruct (Js.truthy (current (tokenizeLoop tokenizeInit input))) eqn:E;
    [|exact H].
  apply Forall_app. split; [exact H|]. now constructor.
Qed.

Lemma isQuote_cases (q : ascii) :
  isQuote q = true -> q = dquote \/ q = "'"%char.
Proof.
  unfold isQuote. intros H. apply orb_prop in H as [H|H];
    apply Ascii.eqb_eq in H; auto.
Qed.

Lemma includesChar_append (c : ascii) (a b : string) :
  Js.includesChar c (a +:+ b) = Js.includesChar c a || Js.includesChar c b.
Proof.
  induction a as [|d a IH]; [reflexivity|].
  rewrite append_cons. simpl. now rewrite IH, orb_assoc.
Qed.

Lemma tokenizeStep_quoteFree (q : ascii) (st : TokState) (c : ascii) :
  isQuote q = true ->
  (isQuote c = true -> c = q) ->
  Ascii.eqb c "\" = false ->
  quoteFree q st -> quoteFree q (tokenizeStep st c).
Proof.
  intros Hqq Hq Hb (He & Hin & Hcur & Htok). unfold tokenizeStep.
  rewrite He, Hb.
  assert (Hcq : Ascii.eqb c q = false ->
                Js.includesChar q (current st +:+ String c "") = false).
  { intros Ecq. rewrite includesChar_append, Hcur. simpl.
    now rewrite Ecq. }
  destruct (inQuotes st) eqn:Ein; simpl.
  - rewrite (Hin eq_refl). simpl.
    destruct (Ascii.eqb c q) eqn:Ecq;
      repeat split; simpl; auto; discriminate.
  - destruct (isQuote c) eqn:Eq.
    + rewrite (Hq eq_refl). repeat split; simpl; auto.
    + assert (Ecq : Ascii.eqb c q = false).
      { destruct (Ascii.eqb c q) eqn:Ecq; [|reflexivity].
        apply Ascii.eqb_eq in Ecq. subst c. congruence. }
      destruct (Ascii.eqb c " ") eqn:Esp; simpl.
      * destruct (Js.truthy (current st)).
        -- repeat split; simpl; auto; try discriminate.
           apply Forall_app. split; [assumption | now constructor].
        -- repeat split; auto. rewrite Ein. discriminate.
      * repeat split; simpl; auto; discriminate.
Qed.

Lemma tokenizeLoop_quoteFree (q q' : ascii) (input : string) : forall st,
  isQuote q = true ->
  (forall c, isQuote c = true -> c = q \/ c = q') ->
  Js.includesChar "\" input = false ->
  Js.includesChar q' input = false ->
  quoteFree q st -> quoteFree q (tokenizeLoop st input).
Proof.
  intros st Hqq Hall. revert st.
  induction input as [|c input IH]; intros st Hb Hq' Hst; [exact Hst|].
  simpl in *. apply orb_false_elim in Hb as [Hb1 Hb2].
  apply orb_false_elim in Hq' as [Hq1 Hq2].
  apply IH; try assumption.
  apply tokenizeStep_quoteFree; try assumption.
  intros Hc. destruct (Hall c Hc) as [-> | ->]; [reflexivity|].
  now rewrite Ascii.eqb_refl in Hq1.
Qed.

(** C9: the two sample lines tokenize as stated; a backslash makes the
    next character literal whatever the quote state; an unescaped quote
    character that opens a quote, or closes the quote it opened, is not
    copied into the token, so on a line without backslash the tokens
    contain no double quote unless the line has single quotes, and no
    single quote unless it has double quotes; and no token is ever empty,
    so runs of unquoted spaces produce none. *)
Theorem tokenize_quotes_escapes_spaces :
  tokenize ("echo " +:+ String dquote "a b" +:+ String dquote " c")
    = ["echo"; "a b"; "c"] /\
  tokenize "echo a\ b" = ["echo"; "a b"] /\
  (forall toks cur inQ q c rest,
     tokenizeLoop (mkTok toks cur inQ q false) (String "\" (String c rest))
     = tokenizeLoop (mkTok toks (cur +:+ String c "") inQ q false) rest) /\
  (forall toks cur q0 q rest,
     isQuote q = true ->
     tokenizeLoop (mkTok toks cur false q0 false) (String q rest)
     = tokenizeLoop (mkTok toks cur true (Some q) false) rest) /\
  (forall toks cur q rest,
     isQuote q = true ->
     tokenizeLoop (mkTok toks cur true (Some q) false) (String q rest)
     = tokenizeLoop (mkTok toks cur false None false) rest) /\
  (forall input,
     Js.includesChar "\" input = false ->
     (Js.includesChar "'" input = false ->
      Forall (fun t => Js.includesChar dquote t = false) (tokenize input)) /\
     (Js.includesChar dquote input = false ->
      Forall (fun t => Js.includesChar "'" t = false) (tokenize input))) /\
  (forall input, Forall (fun t => Js.truthy t = true) (tokenize input)).
Proof.
  assert (Hfree : forall q q' input,
            isQuote q = true ->
            (forall c, isQuote c = true -> c = q \/ c = q') ->
            Js.includesChar "\" input = false ->
            Js.includesChar q' input = false ->
            Forall (fun t => Js.includesChar q t = false) (tokenize input)).
  { intros q q' input Hqq Hall Hb Hq'.
    destruct (tokenizeLoop_quoteFree q q' input tokenizeInit Hqq Hall Hb Hq')
      as (_ & _ & Hcur & Htok).
    { repeat split; try reflexivity; [discriminate | constructor]. }
    unfold tokenize, tokenizeEnd.
    destruct (Js.truthy (current (tokenizeLoop tokenizeInit input)));
      [|exact Htok].
    apply Forall_app. split; [exact Htok | now constructor]. }
  split; [reflexivity|]. split; [reflexivity|]. split; [reflexivity|].
  split; [|split; [|split]].
  - intros toks cur q0 q rest Hq.
    apply isQuote_cases in Hq as [-> | ->]; reflexivity.
  - intros toks cur q rest Hq.
    apply isQuote_cases in Hq as [-> | ->]; reflexivity.
  - intros input Hb. split; intros Hq.
    + apply (Hfree dquote "'"%char); try assumption; [reflexivity|].
      intros c Hc. now apply isQuote_cases.
    + apply (Hfree "'"%char dquote); try assumption; [reflexivity|].
      intros c Hc. apply isQuote_cases in Hc. tauto.
  - apply tokenize_truthy.
Qed.

(** ** Input parser *)

(** [processToken] never moves the index backwards, and by one at most. *)
Lemma shortFlags_index chars : forall j len toks i a,
  (i <= fst (shortFlags chars j len toks i a))%nat.
Proof.
  induction chars as [|c chars IH]; intros j len toks i a; simpl; [lia|].
  destruct (j =? len - 1)%nat.
  - destruct (flagValueAhead toks i).
    + specialize (IH (S j) len toks (i + 1)%nat
                     (setFlag (String c "") (FlagString s) a)). lia.
    + apply IH.
  - apply IH.
Qed.

Lemma processToken_index token toks i a :
  (i <= fst (processToken token toks i a))%nat.
Proof.
  unfold processToken.
  destruct (String.eqb token ">" || String.eqb token ">>").
  { destruct (toks !! (i + 1)%nat); simpl; lia. }
  destruct (Js.startsWith token "--").
  { destruct (0 <? Js.indexOf "=" token)%Z; simpl; [lia|].
    destruct (flagValueAhead toks i); simpl; lia. }
  destruct (Js.startsWith token "-" && (1 <? String.length token)%nat);
    [apply shortFlags_index | simpl; lia].
Qed.

(** [tokens.length] iterations are enough: more fuel changes nothing. *)
Lemma parseLoop_fuel fuel : forall toks i a extra,
  (length toks <= i + fuel)%nat ->
  parseLoop (fuel + extra) toks i a = parseLoop fuel toks i a.
Proof.
  induction fuel as [|fuel IH]; intros toks i a extra H; simpl.
  - destruct extra; simpl; [reflexivity|].
    rewrite (proj2 (lookup_ge_None toks i)) by lia. reflexivity.
  - destruct (toks !! i) as [token|]; [|reflexivity].
    pose proof (processToken_index token toks i a) as Hi.
    destruct (processToken token toks i a) as [i' a']. simpl in Hi.
    apply IH. lia.
Qed.

(** C1, as the parser has it: for the line [ls -la /tmp], [parseInput]
    returns command [ls], the flag table with [l] boolean-true and [a]
    holding the string [/tmp] (the last flag of a group takes the next
    token as its value when that token does not start with a dash), and
    no positional argument. *)
Theorem parseInput_ls_la_tmp :
  parseInput "ls -la /tmp" =
  mkParsed "ls" []
    (<["a" := FlagString "/tmp"]> (<["l" := FlagBool true]> ∅)) None None.
Proof. vm_compute. reflexivity. Qed.

(** C1 as stated does not hold: the result is not command [ls] with both
    flags boolean-true and the argument list [["/tmp"]]. *)
Lemma parseInput_ls_la_tmp_not_as_stated :
  ~ (command (parseInput "ls -la /tmp") = "ls" /\
     flags (parseInput "ls -la /tmp")
       = <["l" := FlagBool true]> (<["a" := FlagBool true]> ∅) /\
     args (parseInput "ls -la /tmp") = ["/tmp"]).
Proof.
  intros (_ & _ & H). vm_compute in H. discriminate H.
Qed.

(** C2, evaluated: in [ls -l > out.txt] the look-ahead of the flag [l]
    takes the token [>] as its value, so [out.txt] becomes a positional
    argument and no redirect is recorded; in [ls -o out.txt] the flag [o]
    takes [out.txt] as its value and there is no redirect. *)
Theorem parseInput_flag_then_redirect :
  parseInput "ls -l > out.txt" =
    mkParsed "ls" ["out.txt"] (<["l" := FlagString ">"]> ∅) None None /\
  parseInput "ls -o out.txt" =
    mkParsed "ls" [] (<["o" := FlagString "out.txt"]> ∅) None None.
Proof. split; vm_compute; reflexivity. Qed.

(** ** Writing a file of the current directory *)

Lemma createFile_bare_new fs x c now cur ch :
  bareName x = true ->
  getCurrentDirectoryNode fs = Some cur ->
  children cur = Some ch ->
  JsMap.get x ch = None ->
  exists fs', createFile fs x c now = (true, fs') /\ readFile fs' x = Some c.
Proof.
  intros Hx Hcur Hch Hg. unfold createFile, createEntry, exists_.
  rewrite getNode_bare, Hcur, Hch, Hg by assumption.
  eexists. split; [reflexivity|].
  unfold readFile. rewrite getNode_bare by assumption.
  erewrite getCurrentDirectoryNode_updateRoot by eassumption.
  unfold addChild. rewrite Hch. simpl. now rewrite get_set_same.
Qed.

Lemma writeFile_bare fs x c now cur ch :
  bareName x = true ->
  getCurrentDirectoryNode fs = Some cur ->
  children cur = Some ch ->
  match JsMap.get x ch with Some n => isFile n | None => true end = true ->
  exists fs', writeFile fs x c now = (true, fs') /\ readFile fs' x = Some c.
Proof.
  intros Hx Hcur Hch Hg. unfold writeFile.
  rewrite getNode_bare, Hcur, Hch by assumption.
  destruct (JsMap.get x ch) as [n|] eqn:Hget.
  - rewrite Hg. eexists. split; [reflexivity|].
    unfold readFile. rewrite getNode_bare by assumption.
    unfold getNodeParts. unfold bareName in Hx. apply negb_true_iff in Hx.
    rewrite Hx. unfold updateRoot. rewrite updateAt_app.
    fold (updateRoot fs (currentParts fs) (updateChild x (withContent c now))).
    erewrite getCurrentDirectoryNode_updateRoot by eassumption.
    unfold updateChild. rewrite Hch, Hget. simpl. rewrite get_set_same.
    unfold isFile in *. simpl. now rewrite Hg.
  - now apply (createFile_bare_new fs x c now cur ch).
Qed.

(** ** Dispatcher *)

(** C3: the line [echo hi > out.txt] parses to arguments [["hi"]], no
    flags, and the redirect target [out.txt] in write mode; dispatching it
    with [echo] registered, from a current directory in which [out.txt] is
    absent or a file, returns a successful result that carries no output
    lines and leaves [readFile("out.txt")] equal to [hi]. *)
Theorem dispatch_echo_redirect (p : CommandProcessor) (cwd : string)
    (w : World) (cur : IFileSystemNode) (ch : JsMap.t IFileSystemNode) :
  getCommand p "echo" = Some EchoCommand ->
  getCurrentDirectoryNode (fileSystem w) = Some cur ->
  children cur = Some ch ->
  match JsMap.get "out.txt" ch with Some n => isFile n | None => true end
    = true ->
  parseInput "echo hi > out.txt"
    = mkParsed "echo" ["hi"] ∅ (Some "out.txt") (Some write) /\
  exists w',
    executeCommand p "echo hi > out.txt" cwd w
      = (mkResult true None None 0, w') /\
    readFile (fileSystem w') "out.txt" = Some "hi".
Proof.
  intros Hecho Hcur Hch Hg.
  assert (Hp : parseInput "echo hi > out.txt"
               = mkParsed "echo" ["hi"] ∅ (Some "out.txt") (Some write))
    by (vm_compute; reflexivity).
  split; [exact Hp|].
  unfold executeCommand. rewrite Hp.
  change (Js.truthy (Js.trim "echo hi > out.txt")) with true.
  cbn [negb command args flags redirectToFile redirectMode].
  unfold getCommand in Hecho. rewrite Hecho.
  cbn [execute EchoCommand isTruthyTarget Js.truthy resultSuccess
       success output ctxArgs].
  unfold writeToFile.
  change (Js.join newline [Js.join " " ["hi"]]) with "hi".
  destruct (writeFile_bare (fileSystem w) "out.txt" "hi" (clock w) cur ch
              eq_refl Hcur Hch Hg) as (fs' & Hw & Hr).
  rewrite Hw. eexists. split; [reflexivity|]. exact Hr.
Qed.

Lemma dispatch_echo_redirect_witness :
  exists w',
    executeCommand (registerCommand EchoCommand emptyProcessor)
      "echo hi > out.txt" "~" (mkWorld seededFs ∅ [] 1)
      = (mkResult true None None 0, w') /\
    readFile (fileSystem w') "out.txt" = Some "hi".
Proof.
  refine (proj2 (dispatch_echo_redirect
            (registerCommand EchoCommand emptyProcessor) "~"
            (mkWorld seededFs ∅ [] 1) _ _ eq_refl eq_refl eq_refl eq_refl)).
Defined.

(** ** Script interpreter *)



(** ** Registry *)

Lemma fold_alias_insert (key : string) (als : list string) :
  forall (m : gmap string string) (k : string),
    fold_left (fun m alias => <[Js.toLowerCase alias := key]> m) als m !! k =
    if bool_decide (k ∈ List.map Js.toLowerCase als) then Some key else m !! k.
Proof.
  induction als as [|a als IH]; intros m k; [reflexivity|].
  cbn [fold_left List.map].
  - rewrite IH. destruct (decide (Js.toLowerCase a = k)) as [<-|Hne].
    + rewrite lookup_insert_eq.
      rewrite (bool_decide_eq_true_2 _ (list_elem_of_here _ _)).
      now destruct (bool_decide _).
    + rewrite lookup_insert_ne by assumption.
      apply (f_equal (fun b : bool => if b then Some key else m !! k)).
      apply bool_decide_ext. rewrite elem_of_cons.
      split; [auto | intros [->|?]; [contradiction | assumption]].
Qed.

Lemma aliases_registerCommand (c : ICommand) (p : CommandProcessor) (k : string) :
  aliases (registerCommand c p) !! k =
  if bool_decide (k ∈ aliasKeys c) then Some (commandKey c) else aliases p !! k.
Proof.
  unfold registerCommand, aliasKeys. simpl.
  destruct (cmdAliases c) as [als|]; [apply fold_alias_insert | reflexivity].
Qed.

Lemma commands_registerCommand_same (c : ICommand) (p : CommandProcessor) :
  commands (registerCommand c p) !! commandKey c = Some c.
Proof. unfold registerCommand. simpl. apply lookup_insert_eq. Qed.

Lemma commands_registerCommand_other (c : ICommand) (p : CommandProcessor) k :
  commandKey c <> k ->
  commands (registerCommand c p) !! k = commands p !! k.
Proof. intros H. unfold registerCommand. simpl. now apply lookup_insert_ne. Qed.

Lemma registerAll_app cs1 cs2 p :
  registerAll (cs1 ++ cs2) p = registerAll cs2 (registerAll cs1 p).
Proof. unfold registerAll. apply fold_left_app. Qed.

(** Later registrations that declare no alias [k] leave the alias entry
    [k] as it is; those stored under another key leave the command entry
    [k] as it is. *)
Lemma registerAll_aliases_frame cs k : forall p,
  Forall (fun c' => k ∉ aliasKeys c') cs ->
  aliases (registerAll cs p) !! k = aliases p !! k.
Proof.
  induction cs as [|c' cs IH]; intros p H; simpl; [reflexivity|].
  apply Forall_cons in H as [Hc H]. unfold registerAll in *. simpl.
  rewrite IH by assumption. rewrite aliases_registerCommand.
  now rewrite bool_decide_eq_false_2.
Qed.

Lemma registerAll_commands_frame cs k : forall p,
  Forall (fun c' => commandKey c' <> k) cs ->
  commands (registerAll cs p) !! k = commands p !! k.
Proof.
  induction cs as [|c' cs IH]; intros p H; simpl; [reflexivity|].
  apply Forall_cons in H as [Hc H]. unfold registerAll in *. simpl.
  rewrite IH by assumption. now apply commands_registerCommand_other.
Qed.



(** ** Ordering of names *)

Lemma string_compare_le_trans : forall a b c : string,
  String.compare a b <> Gt -> String.compare b c <> Gt ->
  String.compare a c <> Gt.
Proof.
  induction a as [|x a IH]; intros [|y b] [|z c]; simpl; try congruence.
  unfold Ascii.compare.
  destruct (N.compare_spec (N_of_ascii x) (N_of_ascii y)) as [Exy|Lxy|Gxy];
    destruct (N.compare_spec (N_of_ascii y) (N_of_ascii z)) as [Eyz|Lyz|Gyz];
    try congruence; intros Hab Hbc.
  - rewrite Exy, Eyz, N.compare_refl. now apply (IH b c).
  - rewrite Exy. now rewrite (proj2 (N.compare_lt_iff _ _) Lyz).
  - rewrite <- Eyz. now rewrite (proj2 (N.compare_lt_iff _ _) Lxy).
  - rewrite (proj2 (N.compare_lt_iff _ _) (N.lt_trans _ _ _ Lxy Lyz)).
    congruence.
Qed.

Lemma lexCompare_le (a b : string) :
  (lexCompare a b <= 0)%Z <-> String.compare a b <> Gt.
Proof.
  unfold lexCompare. destruct (String.compare a b); split; intros H;
    try lia; try congruence.
Qed.

Lemma lexCompare_total (a b : string) :
  (lexCompare a b <= 0)%Z \/ (lexCompare b a <= 0)%Z.
Proof.
  rewrite !lexCompare_le, (String.compare_antisym b a).
  destruct (String.compare a b); simpl; [left | left | right]; congruence.
Qed.

Lemma lexCompare_trans (a b c : string) :
  (lexCompare a b <= 0)%Z -> (lexCompare b c <= 0)%Z ->
  (lexCompare a c <= 0)%Z.
Proof. rewrite !lexCompare_le. apply string_compare_le_trans. Qed.

(** ** Sorting *)

Section SortFacts.
Context {A : Type} (cmp : A -> A -> Z).

Let R (x y : A) : Prop := (cmp x y <= 0)%Z.

Hypothesis cmp_total : forall x y, R x y \/ R y x.
Hypothesis cmp_trans : forall x y z, R x y -> R y z -> R x z.

Lemma insertBy_Permutation (x : A) (l : list A) :
  Permutation (insertBy cmp x l) (x :: l).
Proof.
  induction l as [|y l IH]; simpl; [reflexivity|].
  destruct (cmp x y <=? 0)%Z; [reflexivity|].
  rewrite IH. apply perm_swap.
Qed.

Lemma sortBy_Permutation (l : list A) : Permutation (sortBy cmp l) l.
Proof.
  induction l as [|x l IH]; simpl; [reflexivity|].
  rewrite insertBy_Permutation. now rewrite IH.
Qed.

Lemma insertBy_StronglySorted (x : A) (l : list A) :
  StronglySorted R l -> StronglySorted R (insertBy cmp x l).
Proof.
  induction l as [|y l IH]; simpl; intros H.
  - repeat constructor.
  - inversion H as [|? ? Hl Hy]; subst.
    destruct (cmp x y <=? 0)%Z eqn:E.
    + apply Z.leb_le in E. constructor; [assumption|].
      constructor; [exact E|].
      eapply Forall_impl; [exact Hy|]. intros z Hz. now apply (cmp_trans x y z).
    + apply Z.leb_gt in E. constructor; [now apply IH|].
      rewrite insertBy_Permutation. constructor; [|assumption].
      destruct (cmp_total x y) as [Hxy|Hyx]; [unfold R in Hxy; lia | exact Hyx].
Qed.

Lemma sortBy_StronglySorted (l : list A) : StronglySorted R (sortBy cmp l).
Proof.
  induction l as [|x l IH]; simpl; [constructor|].
  now apply insertBy_StronglySorted.
Qed.

End SortFacts.

Lemma StronglySorted_filter {A} (R : A -> A -> Prop) (f : A -> bool) l :
  StronglySorted R l -> StronglySorted R (List.filter f l).
Proof.
  induction l as [|x l IH]; simpl; intros H; [constructor|].
  inversion H as [|? ? Hl Hx]; subst.
  destruct (f x); [|auto].
  constructor; [auto|].
  apply Forall_forall. intros y Hy. apply list_elem_of_In, filter_In in Hy.
  rewrite Forall_forall in Hx. apply Hx, list_elem_of_In. tauto.
Qed.

Lemma StronglySorted_weaken {A} (R R' : A -> A -> Prop) (P : A -> Prop) l :
  (forall a b, P a -> P b -> R a b -> R' a b) ->
  Forall P l -> StronglySorted R l -> StronglySorted R' l.
Proof.
  intros HR. induction l as [|x l IH]; intros HP H; [constructor|].
  inversion H as [|? ? Hl Hx]; subst.
  apply Forall_cons in HP as [Px Pl].
  constructor; [auto|].
  rewrite Forall_forall in *. intros y Hy. auto.
Qed.

(** ** The data-model invariant *)

Lemma wfNode_unfold (n : IFileSystemNode) :
  wfNode n <->
  match children n with
  | Some ch => NoDup (JsMap.keys ch) /\ Forall wfEntry ch
  | None => True
  end.
Proof.
  destruct n as [nm ty ct [ch|] pm cr md sz]; simpl; [|tauto].
  apply and_iff_compat_l.
  induction ch as [|[k c] ch IH]; simpl.
  - split; [constructor | trivial].
  - rewrite Forall_cons, <- IH. unfold wfEntry. simpl. tauto.
Qed.

Lemma wfNode_children n ch :
  wfNode n -> children n = Some ch ->
  NoDup (JsMap.keys ch) /\ Forall wfEntry ch.
Proof.
  intros Hw Hc. apply wfNode_unfold in Hw. now rewrite Hc in Hw.
Qed.

Lemma wfNode_same_children n n' :
  children n' = children n -> wfNode n -> wfNode n'.
Proof. rewrite !wfNode_unfold. now intros ->. Qed.

Lemma wfNode_get n ch k c :
  wfNode n -> children n = Some ch -> JsMap.get k ch = Some c ->
  name c = k /\ wfNode c.
Proof.
  intros Hw Hc Hg. destruct (wfNode_children n ch Hw Hc) as [_ Hf].
  rewrite Forall_forall in Hf. apply (Hf (k, c)). now apply get_Some_elem.
Qed.

Lemma wfNode_walk parts : forall r n,
  wfNode r -> walk parts r = Some n -> wfNode n.
Proof.
  induction parts as [|k parts IH]; intros r n Hw H; simpl in H.
  - now injection H as <-.
  - destruct (children r) as [ch|] eqn:Hc; [|discriminate].
    destruct (JsMap.get k ch) as [c|] eqn:Hg; [|discriminate].
    apply (IH c); [|assumption]. eapply wfNode_get; eauto.
Qed.

Lemma Forall_set {V} (P : string * V -> Prop) k v (m : JsMap.t V) :
  Forall P m -> P (k, v) -> Forall P (JsMap.set k v m).
Proof.
  intros Hm Hv. induction m as [|[k' v'] m IH]; simpl.
  - now constructor.
  - apply Forall_cons in Hm as [H1 H2].
    destruct (String.eqb k' k) eqn:E.
    + apply String.eqb_eq in E. subst k'. now constructor.
    + constructor; auto.
Qed.

Lemma Forall_delete {V} (P : string * V -> Prop) k (m : JsMap.t V) :
  Forall P m -> Forall P (JsMap.delete k m).
Proof.
  intros Hm. induction m as [|[k' v'] m IH]; simpl; [constructor|].
  apply Forall_cons in Hm as [H1 H2].
  destruct (String.eqb k' k); [auto | constructor; auto].
Qed.

Lemma wfNode_withChildren_set n ch k c :
  wfNode n -> children n = Some ch -> name c = k -> wfNode c ->
  wfNode (withChildren n (JsMap.set k c ch)).
Proof.
  intros Hw Hc Hn Hwc. destruct (wfNode_children n ch Hw Hc) as [Hd Hf].
  apply wfNode_unfold. simpl. split.
  - now apply NoDup_keys_set.
  - apply Forall_set; [assumption | now split].
Qed.

Lemma wfNode_createNode nm ty c now : wfNode (createNode nm ty c now).
Proof.
  apply wfNode_unfold. destruct ty; simpl; [trivial|].
  split; constructor.
Qed.

Lemma wfNode_addChild nm ty c now n :
  wfNode n -> wfNode (addChild nm (createNode nm ty c now) now n).
Proof.
  intros Hw. unfold addChild. destruct (children n) as [ch|] eqn:Hc; [|exact Hw].
  eapply wfNode_same_children;
    [|apply (wfNode_withChildren_set n ch nm (createNode nm ty c now))];
    auto using wfNode_createNode.
Qed.

Lemma wfNode_removeChild k now n : wfNode n -> wfNode (removeChild k now n).
Proof.
  intros Hw. unfold removeChild. destruct (children n) as [ch|] eqn:Hc; [|exact Hw].
  destruct (wfNode_children n ch Hw Hc) as [Hd Hf].
  apply wfNode_unfold. simpl. split.
  - now apply NoDup_keys_delete.
  - now apply Forall_delete.
Qed.

(** An update that keeps names and the invariant of the node it touches
    keeps the invariant of the tree. *)
Lemma wfNode_updateAt f :
  (forall n, wfNode n -> wfNode (f n)) ->
  (forall n, name (f n) = name n) ->
  forall parts r, wfNode r ->
    wfNode (updateAt parts f r) /\ name (updateAt parts f r) = name r.
Proof.
  intros Hf Hn. induction parts as [|k parts IH]; intros r Hw; simpl.
  - split; [now apply Hf | apply Hn].
  - destruct (children r) as [ch|] eqn:Hc; [|now split].
    destruct (JsMap.get k ch) as [c|] eqn:Hg; [|now split].
    destruct (wfNode_get r ch k c Hw Hc Hg) as [Hname Hwc].
    destruct (IH c Hwc) as [Hw' Hn'].
    split; [|reflexivity].
    apply wfNode_withChildren_set; auto. congruence.
Qed.

Lemma name_addChild k v now n : name (addChild k v now n) = name n.
Proof. unfold addChild. now destruct (children n). Qed.

Lemma name_removeChild k now n : name (removeChild k now n) = name n.
Proof. unfold removeChild. now destruct (children n). Qed.

Lemma createEntry_wf fs nm ty c now :
  wfNode (root fs) -> wfNode (root (snd (createEntry fs nm ty c now))).
Proof.
  intros H. unfold createEntry.
  destruct (exists_ fs nm); [exact H|].
  destruct (getCurrentDirectoryNode fs) as [cur|]; [|exact H].
  destruct (children cur); [|exact H].
  simpl. apply wfNode_updateAt; auto using name_addChild.
  intros n. apply wfNode_addChild.
Qed.

(** Every mutating operation keeps the data-model invariant. *)
Lemma runOp_wf fs req : wfNode (root fs) -> wfNode (root (runOp fs req)).
Proof.
  intros H. destruct req as [[path|nm c|nm|nm recursive|nm c] now]; simpl.
  - unfold setCurrentDirectory.
    destruct (getNodeByPath _ _) as [node|]; [|exact H].
    now destruct (isDirectory node).
  - now apply createEntry_wf.
  - now apply createEntry_wf.
  - unfold deleteNode.
    destruct (getCurrentDirectoryNode fs) as [cur|]; [|exact H].
    destruct (children cur) as [ch|]; [|exact H].
    destruct (JsMap.get nm ch) as [node|]; [|exact H].
    destruct (isDirectory node && hasChildren node && negb recursive);
      [exact H|].
    simpl. apply wfNode_updateAt; auto using name_removeChild.
    intros n. apply wfNode_removeChild.
  - unfold writeFile, createFile.
    destruct (getNode fs nm) as [node|]; [|now apply createEntry_wf].
    destruct (isFile node); [|now apply createEntry_wf].
    simpl. apply wfNode_updateAt; auto.
    intros n. now apply wfNode_same_children.
Qed.

Lemma createInitialStructure_wf (now : Date) :
  wfNode (createInitialStructure now).
Proof.
  assert (Hset : forall n (ch : JsMap.t IFileSystemNode) k c,
            wfNode (withChildren n ch) -> name c = k -> wfNode c ->
            wfNode (withChildren n (JsMap.set k c ch))).
  { intros n ch k c Hw Hk Hc.
    apply (wfNode_withChildren_set (withChildren n ch) ch k c Hw eq_refl Hk Hc). }
  assert (Hnil : forall n, wfNode (withChildren n [])).
  { intros n. apply wfNode_unfold. simpl. split; constructor. }
  unfold createInitialStructure. cbv zeta.
  match goal with
  | |- wfNode (mkNode ?a ?b ?c (Some (JsMap.set ?k ?h [])) ?d ?e ?f ?g) =>
      change (wfNode (withChildren (mkNode a b c (Some []) d e f g)
                        (JsMap.set k h [])))
  end.
  apply Hset; [apply Hnil | reflexivity |].
  apply Hset; [apply Hnil | reflexivity |].
  repeat (apply Hset; [| reflexivity | apply wfNode_createNode]).
  apply Hnil.
Qed.

Lemma runOps_wf ops : forall fs,
  wfNode (root fs) -> wfNode (root (runOps ops fs)).
Proof.
  induction ops as [|req ops IH]; intros fs H; simpl; [exact H|].
  apply IH. now apply runOp_wf.
Qed.

(** ** Listing a directory *)

Lemma isFile_isDirectory (n : IFileSystemNode) :
  isFile n = negb (isDirectory n).
Proof. unfold isFile, isDirectory. now destruct (type n). Qed.

Lemma isDirectory_type (n : IFileSystemNode) :
  isDirectory n = true -> type n = directory.
Proof. unfold isDirectory. now destruct (type n). Qed.

Lemma isFile_type (n : IFileSystemNode) : isFile n = true -> type n = file.
Proof. unfold isFile. now destruct (type n). Qed.

Lemma Forall_filter_true {A} (f : A -> bool) (l : list A) :
  Forall (fun x => f x = true) (List.filter f l).
Proof.
  induction l as [|x l IH]; simpl; [constructor|].
  destruct (f x) eqn:E; [constructor|]; assumption.
Qed.

Lemma filter_all_files (l : list IFileSystemNode) :
  Forall (fun y => isFile y = true) l ->
  List.filter isDirectory l = [] /\ List.filter isFile l = l.
Proof.
  induction l as [|y l IH]; intros H; simpl; [now split|].
  apply Forall_cons in H as [Hy Hl]. destruct (IH Hl) as [IH1 IH2].
  rewrite Hy. rewrite isFile_isDirectory in Hy. apply negb_true_iff in Hy.
  rewrite Hy. split; [assumption | now f_equal].
Qed.

Lemma names_of_values (ch : JsMap.t IFileSystemNode) :
  Forall wfEntry ch -> List.map name (JsMap.values ch) = JsMap.keys ch.
Proof.
  induction ch as [|[k c] ch IH]; intros H; simpl; [reflexivity|].
  apply Forall_cons in H as [[Hn _] Hl]. simpl in Hn.
  now rewrite Hn, IH.
Qed.

Section ListDirectory.

Variable localeCompare : string -> string -> Z.

(** The host's collation is taken to order names as the case-sensitive
    lexicographic comparison does; only the sign of its result matters to
    [sort]. *)
Hypothesis localeCompare_lex :
  forall a b, (localeCompare a b <= 0)%Z <-> (lexCompare a b <= 0)%Z.

Let nodeLe (a b : IFileSystemNode) : Prop :=
  (compareNodes localeCompare a b <= 0)%Z.

Lemma nodeLe_cases (a b : IFileSystemNode) :
  nodeLe a b <->
  match type a, type b with
  | directory, file => True
  | file, directory => False
  | _, _ => (lexCompare (name a) (name b) <= 0)%Z
  end.
Proof.
  unfold nodeLe, compareNodes, isDirectory.
  destruct (type a), (type b); simpl;
    try apply localeCompare_lex; split; intros; try lia; trivial.
Qed.

Lemma compareNodes_total (a b : IFileSystemNode) : nodeLe a b \/ nodeLe b a.
Proof.
  rewrite !nodeLe_cases.
  destruct (type a), (type b); auto using lexCompare_total.
Qed.

Lemma compareNodes_trans (a b c : IFileSystemNode) :
  nodeLe a b -> nodeLe b c -> nodeLe a c.
Proof.
  rewrite !nodeLe_cases.
  destruct (type a), (type b), (type c); try tauto; apply lexCompare_trans.
Qed.

Lemma nodeLe_file_first (a b : IFileSystemNode) :
  nodeLe a b -> isFile a = true -> isFile b = true.
Proof.
  rewrite nodeLe_cases. unfold isFile.
  destruct (type a), (type b); simpl; try reflexivity; try discriminate; tauto.
Qed.

Lemma nodeLe_same_type (a b : IFileSystemNode) :
  type a = type b -> nodeLe a b ->
  (lexCompare (name a) (name b) <= 0)%Z.
Proof.
  rewrite nodeLe_cases. intros ->. now destruct (type b).
Qed.

(** In a list sorted by the comparator the directories come first. *)
Lemma sorted_directories_first (l : list IFileSystemNode) :
  StronglySorted nodeLe l ->
  l = List.filter isDirectory l ++ List.filter isFile l.
Proof.
  induction l as [|x l IH]; intros H; [reflexivity|].
  inversion H as [|? ? Hl Hx]; subst. simpl.
  rewrite (isFile_isDirectory x). destruct (isDirectory x) eqn:Ex; simpl.
  - f_equal. now apply IH.
  - assert (Hf : Forall (fun y => isFile y = true) l).
    { eapply Forall_impl; [exact Hx|]. intros y Hy.
      apply (nodeLe_file_first x y Hy).
      rewrite isFile_isDirectory. now rewrite Ex. }
    destruct (filter_all_files l Hf) as [-> ->]. reflexivity.
Qed.


End ListDirectory.


(** * Further properties of the modelled code *)

(** ** Splitting and joining paths *)

Lemma splitAux_app_sep (c : ascii) (a b : string) : forall cur,
  Js.splitAux c cur (a +:+ String c b)
  = Js.splitAux c cur a ++ Js.splitAux c "" b.
Proof.
  induction a as [|d a IH]; intros cur.
  - rewrite append_nil_l. simpl. now rewrite Ascii.eqb_refl.
  - rewrite append_cons. simpl. destruct (Ascii.eqb d c).
    + simpl. now rewrite IH.
    + apply IH.
Qed.

Lemma splitAux_no_sep (c : ascii) (s : string) : forall cur,
  Js.includesChar c s = false -> Js.splitAux c cur s = [cur +:+ s].
Proof.
  induction s as [|d s IH]; intros cur H; simpl in *.
  - f_equal. induction cur as [|x cur IHc]; [reflexivity|].
    now rewrite append_cons, <- IHc.
  - apply orb_false_elim in H as [Hd Hs]. rewrite Hd.
    rewrite IH by assumption. f_equal. apply append_assoc.
Qed.

Lemma splitAux_pieces (c : ascii) (s : string) : forall cur,
  Js.includesChar c cur = false ->
  Forall (fun p => Js.includesChar c p = false) (Js.splitAux c cur s).
Proof.
  induction s as [|d s IH]; intros cur H; simpl.
  - now constructor.
  - destruct (Ascii.eqb d c) eqn:E.
    + constructor; [assumption | now apply IH].
    + apply IH. rewrite includesChar_append, H. simpl. now rewrite E.
Qed.

Lemma pathParts_append_slash (a b : string) :
  pathParts (a +:+ "/" +:+ b) = pathParts a ++ pathParts b.
Proof.
  unfold pathParts, Js.split, Js.filterTruthy.
  change ("/" +:+ b) with (String "/" b).
  rewrite splitAux_app_sep. apply List.filter_app.
Qed.

Lemma pathParts_bare (x : string) :
  bareName x = true -> Js.truthy x = true -> pathParts x = [x].
Proof.
  unfold bareName, pathParts, Js.split, Js.filterTruthy. intros Hb Ht.
  apply negb_true_iff in Hb. rewrite splitAux_no_sep by assumption.
  rewrite append_nil_l. simpl. now rewrite Ht.
Qed.

Lemma pathParts_empty : pathParts "" = [].
Proof. reflexivity. Qed.

Lemma pathParts_pieces (s : string) :
  Forall (fun p => Js.truthy p = true /\ bareName p = true) (pathParts s).
Proof.
  unfold pathParts, Js.filterTruthy, Js.split.
  pose proof (splitAux_pieces "/" s "" eq_refl) as H.
  induction H as [|p l Hp Hl IH]; simpl; [constructor|].
  destruct (Js.truthy p) eqn:E; [|exact IH].
  constructor; [|exact IH]. split; [exact E|].
  unfold bareName. now rewrite Hp.
Qed.

Lemma endsWithChar_split (c : ascii) (s : string) :
  Js.endsWithChar c s = true -> exists s0, s = s0 +:+ String c "".
Proof.
  induction s as [|d s IH]; [discriminate|].
  destruct s as [|e s].
  - simpl. intros H. apply Ascii.eqb_eq in H. subst d. now exists "".
  - intros H. change (Js.endsWithChar c (String e s) = true) in H.
    destruct (IH H) as [s0 Hs0]. exists (String d s0).
    now rewrite append_cons, <- Hs0.
Qed.

(** The segments of an absolute path followed by a plain name. *)
Lemma pathParts_child (a x : string) :
  bareName x = true -> Js.truthy x = true ->
  pathParts (a +:+ (if Js.endsWithChar "/" a then "" else "/") +:+ x)
  = pathParts a ++ [x].
Proof.
  intros Hb Ht. destruct (Js.endsWithChar "/" a) eqn:E.
  - apply endsWithChar_split in E as [a0 ->].
    rewrite append_nil_l, append_assoc.
    change (String "/" "" +:+ x) with ("/" +:+ x).
    rewrite pathParts_append_slash, (pathParts_bare x) by assumption.
    change (a0 +:+ String "/" "") with (a0 +:+ "/" +:+ "").
    rewrite pathParts_append_slash, pathParts_empty. now rewrite app_nil_r.
  - now rewrite pathParts_append_slash, (pathParts_bare x).
Qed.

Lemma pathParts_join (l : list string) :
  Forall (fun p => Js.truthy p = true /\ bareName p = true) l ->
  pathParts ("/" +:+ Js.join "/" l) = l.
Proof.
  intros H.
  change ("/" +:+ Js.join "/" l) with ("" +:+ "/" +:+ Js.join "/" l).
  rewrite pathParts_append_slash, pathParts_empty. simpl.
  induction H as [|x l [Ht Hb] Hl IH]; [reflexivity|].
  destruct l as [|y l].
  - simpl. now apply pathParts_bare.
  - change (Js.join "/" (x :: y :: l)) with (x +:+ "/" +:+ Js.join "/" (y :: l)).
    rewrite pathParts_append_slash, IH, (pathParts_bare x) by assumption.
    reflexivity.
Qed.

Lemma Forall_removelast {A} (P : A -> Prop) (l : list A) :
  Forall P l -> Forall P (removelast l).
Proof.
  induction l as [|x l IH]; intros H; simpl; [constructor|].
  apply Forall_cons in H as [Hx Hl].
  destruct l; [constructor | constructor; auto].
Qed.

(** ** Resolving names and paths *)

Lemma startsWith_includesChar (c : ascii) (x p : string) :
  Js.startsWith x p = true -> Js.includesChar c p = true ->
  Js.includesChar c x = true.
Proof.
  intros Hs Hp. apply startsWith_split in Hs. rewrite Hs.
  rewrite includesChar_append, Hp. reflexivity.
Qed.

Lemma bareName_not_startsWith (x p : string) :
  bareName x = true -> Js.includesChar "/" p = true ->
  Js.startsWith x p = false.
Proof.
  unfold bareName. intros Hb Hp. destruct (Js.startsWith x p) eqn:E; [|reflexivity].
  rewrite (startsWith_includesChar "/" x p E Hp) in Hb. discriminate.
Qed.

Lemma ordinaryName_parts (x : string) :
  ordinaryName x = true ->
  bareName x = true /\ Js.truthy x = true /\
  String.eqb x "~" = false /\ String.eqb x "." = false /\
  String.eqb x ".." = false.
Proof.
  unfold ordinaryName. rewrite !andb_true_iff, !negb_true_iff. tauto.
Qed.

Lemma resolvePath_ordinary (fs : VirtualFileSystem) (x : string) :
  ordinaryName x = true ->
  pathParts (resolvePath fs x) = currentParts fs ++ [x].
Proof.
  intros H. apply ordinaryName_parts in H as (Hb & Ht & H1 & H2 & H3).
  unfold resolvePath. rewrite H1, H2, H3.
  rewrite !(bareName_not_startsWith x) by (assumption || reflexivity).
  now apply pathParts_child.
Qed.

Lemma getNodeByPath_ordinary (fs : VirtualFileSystem) (x : string) :
  ordinaryName x = true ->
  getNodeByPath fs (resolvePath fs x) = getNode fs x.
Proof.
  intros H. rewrite getNodeByPath_walk, resolvePath_ordinary by assumption.
  apply ordinaryName_parts in H as (Hb & _).
  rewrite getNode_bare, getCurrentDirectoryNode_walk by assumption.
  rewrite walk_app_list. destruct (walk (currentParts fs) (root fs)) as [cur|];
    [|reflexivity].
  simpl. destruct (children cur) as [ch|]; [|reflexivity].
  now destruct (JsMap.get x ch).
Qed.

(** X1: for an ordinary name (no slash, not empty, not [~], [.] or [..])
    resolving it as a path and walking from the root finds the same node
    as looking it up among the children of the current directory; in
    particular [resolvePath] appends it to the current directory's
    segments. *)
Theorem ordinary_name_lookup_agrees (fs : VirtualFileSystem) (x : string) :
  ordinaryName x = true ->
  pathParts (resolvePath fs x) = currentParts fs ++ [x] /\
  getNodeByPath fs (resolvePath fs x) = getNode fs x.
Proof.
  intros H. split; [now apply resolvePath_ordinary | now apply getNodeByPath_ordinary].
Qed.

Lemma ordinary_name_lookup_agrees_witness :
  getNodeByPath seededFs (resolvePath seededFs "readme.txt")
  = getNode seededFs "readme.txt".
Proof.
  exact (proj2 (ordinary_name_lookup_agrees seededFs "readme.txt" eq_refl)).
Defined.

(** X2: [resolvePath("..")] names the parent of the current directory: its
    segments are those of the current directory without the last one, and
    at the root it stays at the root. *)
Theorem resolvePath_parent (fs : VirtualFileSystem) :
  pathParts (resolvePath fs "..") = removelast (currentParts fs) /\
  (currentParts fs = [] -> resolvePath fs ".." = "/").
Proof.
  assert (E : resolvePath fs ".."
              = "/" +:+ Js.join "/" (Js.pop (currentParts fs))) by reflexivity.
  rewrite E. split.
  - apply pathParts_join. apply Forall_removelast, pathParts_pieces.
  - intros ->. reflexivity.
Qed.

(** ** Changing directory *)

Lemma setCurrentDirectory_true fs path fs' :
  setCurrentDirectory fs path = (true, fs') ->
  fs' = mkFs (root fs) (normalizeDisplayPath fs (resolvePath fs path))
             (homeDirectory fs) /\
  exists node, getNodeByPath fs (resolvePath fs path) = Some node /\
               isDirectory node = true.
Proof.
  unfold setCurrentDirectory.
  destruct (getNodeByPath fs (resolvePath fs path)) as [node|]; [|discriminate].
  destruct (isDirectory node) eqn:Hd; [|discriminate].
  simpl. intros [= <-]. split; [reflexivity | eauto].
Qed.

Lemma setCurrentDirectory_lands fs path fs' :
  Js.startsWith (homeDirectory fs) "/" = true ->
  setCurrentDirectory fs path = (true, fs') ->
  getAbsolutePath fs' (getCurrentDirectory fs') = resolvePath fs path /\
  root fs' = root fs /\
  getCurrentDirectoryNode fs' = getNodeByPath fs (resolvePath fs path).
Proof.
  intros Hh H. apply setCurrentDirectory_true in H as [-> _].
  assert (Habs : getAbsolutePath fs (normalizeDisplayPath fs (resolvePath fs path))
                 = resolvePath fs path)
    by (apply getAbsolutePath_normalizeDisplayPath; now apply resolvePath_absolute).
  split; [exact Habs|]. split; [reflexivity|].
  unfold getCurrentDirectoryNode. simpl.
  change (getAbsolutePath _ (normalizeDisplayPath fs (resolvePath fs path)))
    with (getAbsolutePath fs (normalizeDisplayPath fs (resolvePath fs path))).
  now rewrite Habs.
Qed.

(** X3: after a successful [setCurrentDirectory(path)] (home directory
    absolute) the tree is untouched, the stored current path expands back
    to the resolved path, so [pwd] prints it, and the current directory
    node is the directory the path resolved to. *)
Theorem setCurrentDirectory_success (fs fs' : VirtualFileSystem) (path : string) :
  Js.startsWith (homeDirectory fs) "/" = true ->
  setCurrentDirectory fs path = (true, fs') ->
  root fs' = root fs /\
  getAbsolutePath fs' (getCurrentDirectory fs') = resolvePath fs path /\
  exists node,
    getNodeByPath fs (resolvePath fs path) = Some node /\
    isDirectory node = true /\
    getCurrentDirectoryNode fs' = Some node.
Proof.
  intros Hh H.
  destruct (setCurrentDirectory_lands fs path fs' Hh H) as (Ha & Hr & Hc).
  apply setCurrentDirectory_true in H as [_ (node & Hn & Hd)].
  split; [exact Hr|]. split; [exact Ha|].
  exists node. rewrite Hc. auto.
Qed.

Lemma setCurrentDirectory_success_witness :
  getAbsolutePath (snd (setCurrentDirectory seededFs "Documents"))
    (getCurrentDirectory (snd (setCurrentDirectory seededFs "Documents")))
  = "/home/user/Documents".
Proof.
  exact (proj1 (proj2 (setCurrentDirectory_success seededFs _ "Documents"
                         eq_refl eq_refl))).
Defined.

(** X4: after a successful [createDirectory(x)] of an ordinary name (home
    directory absolute), [setCurrentDirectory(x)] succeeds, the current
    directory becomes the directory just created, and its listing is
    empty whatever the collation. *)
Theorem createDirectory_then_cd (fs fs1 : VirtualFileSystem) (x : string)
    (now : Date) :
  Js.startsWith (homeDirectory fs) "/" = true ->
  ordinaryName x = true ->
  createDirectory fs x now = (true, fs1) ->
  exists fs2,
    setCurrentDirectory fs1 x = (true, fs2) /\
    getCurrentDirectoryNode fs2 = Some (createNode x directory None now) /\
    (forall localeCompare, listDirectory localeCompare fs2 None = []).
Proof.
  intros Hh Hx H. unfold createDirectory in H.
  pose proof (ordinaryName_parts x Hx) as (Hb & _).
  apply createEntry_true in H as (cur & ch & _ & _ & _ & Hfs1 & Hcur1).
  assert (Hh1 : homeDirectory fs1 = homeDirectory fs) by now subst fs1.
  assert (Hg : getNode fs1 x = Some (createNode x directory None now)).
  { rewrite getNode_bare, Hcur1 by assumption. simpl. apply get_set_same. }
  assert (Hn : getNodeByPath fs1 (resolvePath fs1 x)
               = Some (createNode x directory None now))
    by now rewrite getNodeByPath_ordinary.
  assert (Hs : setCurrentDirectory fs1 x
               = (true, mkFs (root fs1)
                          (normalizeDisplayPath fs1 (resolvePath fs1 x))
                          (homeDirectory fs1))).
  { unfold setCurrentDirectory. now rewrite Hn. }
  eexists. split; [exact Hs|].
  rewrite <- Hh1 in Hh.
  destruct (setCurrentDirectory_lands fs1 x _ Hh Hs) as (Ha & _ & Hc).
  rewrite Hn in Hc. split; [exact Hc|].
  intros localeCompare. unfold listDirectory, listTarget.
  unfold getCurrentDirectoryNode in Hc. unfold getCurrentDirectory in Ha.
  rewrite Hc. reflexivity.
Qed.

Lemma createDirectory_then_cd_witness :
  exists fs2,
    setCurrentDirectory (snd (createDirectory seededFs "projects" 1)) "projects"
      = (true, fs2) /\
    getCurrentDirectoryNode fs2 = Some (createNode "projects" directory None 1) /\
    (forall localeCompare, listDirectory localeCompare fs2 None = []).
Proof.
  exact (createDirectory_then_cd seededFs _ "projects" 1
           eq_refl eq_refl eq_refl).
Defined.

(** ** Writing, deleting and what they leave alone *)

Lemma get_delete_other {V} k k' (m : JsMap.t V) :
  k <> k' -> JsMap.get k' (JsMap.delete k m) = JsMap.get k' m.
Proof.
  intros Hne. induction m as [|[k0 v0] m IH]; simpl; [reflexivity|].
  destruct (String.eqb k0 k) eqn:E; simpl.
  - apply String.eqb_eq in E; subst k0.
    destruct (String.eqb k k') eqn:E'; [|exact IH].
    apply String.eqb_eq in E'. contradiction.
  - now rewrite IH.
Qed.

Lemma getNode_currentChildren fs x :
  bareName x = true ->
  getNode fs x = match currentChildren fs with
                 | Some ch => JsMap.get x ch
                 | None => None
                 end.
Proof.
  intros H. rewrite getNode_bare by assumption. unfold currentChildren.
  now destruct (getCurrentDirectoryNode fs).
Qed.

Lemma currentChildren_updateRoot fs f cur :
  getCurrentDirectoryNode fs = Some cur ->
  currentChildren (updateRoot fs (currentParts fs) f) = children (f cur).
Proof.
  intros H. unfold currentChildren.
  now rewrite (getCurrentDirectoryNode_updateRoot fs f cur H).
Qed.

Lemma writeFile_inplace fs x c now node :
  bareName x = true ->
  getNode fs x = Some node ->
  updateRoot fs (getNodeParts fs x) (withContent c now)
  = updateRoot fs (currentParts fs) (updateChild x (withContent c now)).
Proof.
  intros Hb _. unfold getNodeParts. unfold bareName in Hb.
  apply negb_true_iff in Hb. rewrite Hb. unfold updateRoot.
  now rewrite updateAt_app.
Qed.

(** What each operation on the name [x] does to the children table of the
    current directory. *)
Lemma createEntry_children fs x ty c now :
  currentChildren (snd (createEntry fs x ty c now)) =
  if fst (createEntry fs x ty c now)
  then option_map (JsMap.set x (createNode x ty c now)) (currentChildren fs)
  else currentChildren fs.
Proof.
  unfold createEntry. destruct (exists_ fs x); [reflexivity|].
  destruct (getCurrentDirectoryNode fs) as [cur|] eqn:Hc; [|reflexivity].
  destruct (children cur) as [ch|] eqn:Hch; [|reflexivity].
  simpl. rewrite (currentChildren_updateRoot fs _ cur Hc).
  unfold addChild, currentChildren. now rewrite Hc, Hch.
Qed.

Lemma deleteNode_children fs x recursive now :
  currentChildren (snd (deleteNode fs x recursive now)) =
  if fst (deleteNode fs x recursive now)
  then option_map (JsMap.delete x) (currentChildren fs)
  else currentChildren fs.
Proof.
  unfold deleteNode.
  destruct (getCurrentDirectoryNode fs) as [cur|] eqn:Hc; [|reflexivity].
  destruct (children cur) as [ch|] eqn:Hch; [|reflexivity].
  destruct (JsMap.get x ch) as [node|]; [|reflexivity].
  destruct (isDirectory node && hasChildren node && negb recursive);
    [reflexivity|].
  simpl. rewrite (currentChildren_updateRoot fs _ cur Hc).
  unfold removeChild, currentChildren. now rewrite Hc, Hch.
Qed.

Lemma writeFile_children fs x c now :
  bareName x = true ->
  exists v,
    currentChildren (snd (writeFile fs x c now)) =
    if fst (writeFile fs x c now)
    then option_map (JsMap.set x v) (currentChildren fs)
    else currentChildren fs.
Proof.
  intros Hb. unfold writeFile, createFile.
  destruct (getNode fs x) as [node|] eqn:Hg.
  - destruct (isFile node).
    + exists (withContent c now node). simpl.
      rewrite (writeFile_inplace fs x c now node Hb Hg).
      rewrite getNode_bare in Hg by assumption.
      destruct (getCurrentDirectoryNode fs) as [cur|] eqn:Hc; [|discriminate].
      rewrite (currentChildren_updateRoot fs _ cur Hc).
      unfold updateChild, currentChildren. rewrite Hc.
      destruct (children cur) as [ch|]; [|discriminate].
      now rewrite Hg.
    + eexists. apply createEntry_children.
  - eexists. apply createEntry_children.
Qed.

Lemma writeFile_true_node fs x c now fs' :
  bareName x = true ->
  writeFile fs x c now = (true, fs') ->
  exists node, getNode fs' x = Some node /\ isFile node = true /\
               content node = Some c /\ size node = String.length c.
Proof.
  intros Hb H. unfold writeFile in H. destruct (getNode fs x) as [node|] eqn:Hg.
  - destruct (isFile node) eqn:Hf.
    + injection H as <-. exists (withContent c now node).
      rewrite (writeFile_inplace fs x c now node Hb Hg).
      rewrite getNode_bare in Hg by assumption.
      destruct (getCurrentDirectoryNode fs) as [cur|] eqn:Hc; [|discriminate].
      destruct (children cur) as [ch|] eqn:Hch; [|discriminate].
      rewrite getNode_bare by assumption.
      rewrite (getCurrentDirectoryNode_updateRoot fs _ cur Hc).
      unfold updateChild. rewrite Hch, Hg. simpl.
      rewrite get_set_same. now repeat split.
    + unfold createFile in H.
      apply createEntry_true in H as (cur & ch & _ & _ & _ & _ & Hcur1).
      exists (createNode x file (Some c) now).
      rewrite getNode_bare, Hcur1 by assumption. simpl.
      rewrite get_set_same. now repeat split.
  - unfold createFile in H.
    apply createEntry_true in H as (cur & ch & _ & _ & _ & _ & Hcur1).
    exists (createNode x file (Some c) now).
    rewrite getNode_bare, Hcur1 by assumption. simpl.
    rewrite get_set_same. now repeat split.
Qed.

Lemma writeFile_true_readFile fs x c now fs' :
  bareName x = true ->
  writeFile fs x c now = (true, fs') ->
  readFile fs' x = Some c.
Proof.
  intros Hb H.
  destruct (writeFile_true_node fs x c now fs' Hb H) as (node & Hg & Hf & Hc & _).
  unfold readFile. now rewrite Hg, Hf, Hc.
Qed.

Lemma writeFile_not_file fs x c now node :
  getNode fs x = Some node -> isFile node = false ->
  writeFile fs x c now = (false, fs).
Proof.
  intros Hg Hf. unfold writeFile, createFile, createEntry, exists_.
  now rewrite Hg, Hf.
Qed.

(** X5: for a bare name, a [writeFile] that returns [true] is read back
    by [readFile] and the file's [size] is the length of the content; a
    [writeFile] on a name that exists and is not a file returns [false] and
    changes nothing. *)
Theorem writeFile_then_readFile (fs : VirtualFileSystem) (x c : string)
    (now : Date) :
  bareName x = true ->
  (forall fs', writeFile fs x c now = (true, fs') ->
     readFile fs' x = Some c /\
     exists node, getNode fs' x = Some node /\ isFile node = true /\
                  size node = String.length c) /\
  (forall node, getNode fs x = Some node -> isFile node = false ->
     writeFile fs x c now = (false, fs)).
Proof.
  intros Hb. split.
  - intros fs' H. split; [now apply (writeFile_true_readFile fs x c now)|].
    destruct (writeFile_true_node fs x c now fs' Hb H) as (node & Hg & Hf & _ & Hs).
    eauto.
  - intros node. apply writeFile_not_file.
Qed.

Lemma writeFile_then_readFile_witness :
  readFile (snd (writeFile seededFs "readme.txt" "new text" 1)) "readme.txt"
  = Some "new text".
Proof.
  exact (proj1 (proj1 (writeFile_then_readFile seededFs "readme.txt"
                         "new text" 1 eq_refl) _ eq_refl)).
Defined.

(** X6: creating, deleting or writing the entry [x] of the current
    directory leaves every other bare name [y] resolving to the same node
    as before ([writeFile] for a bare [x]). *)
Theorem other_entries_untouched (fs : VirtualFileSystem) (x y c : string)
    (recursive : bool) (now : Date) :
  bareName y = true ->
  x <> y ->
  getNode (snd (createFile fs x c now)) y = getNode fs y /\
  getNode (snd (createDirectory fs x now)) y = getNode fs y /\
  getNode (snd (deleteNode fs x recursive now)) y = getNode fs y /\
  (bareName x = true -> getNode (snd (writeFile fs x c now)) y = getNode fs y).
Proof.
  intros Hy Hne.
  assert (Hset : forall v (o : option (JsMap.t IFileSystemNode)),
            match option_map (JsMap.set x v) o with
            | Some ch => JsMap.get y ch
            | None => None
            end = match o with Some ch => JsMap.get y ch | None => None end).
  { intros v [ch|]; simpl; [now apply get_set_other | reflexivity]. }
  rewrite !(getNode_currentChildren _ y) by assumption.
  repeat split.
  - unfold createFile. rewrite createEntry_children.
    destruct (fst (createEntry fs x file (Some c) now)); [apply Hset | reflexivity].
  - unfold createDirectory. rewrite createEntry_children.
    destruct (fst (createEntry fs x directory None now)); [apply Hset | reflexivity].
  - rewrite deleteNode_children.
    destruct (fst (deleteNode fs x recursive now)); [|reflexivity].
    destruct (currentChildren fs) as [ch|]; simpl; [|reflexivity].
    now apply get_delete_other.
  - intros Hx. destruct (writeFile_children fs x c now Hx) as [v Hv].
    rewrite Hv.
    destruct (fst (writeFile fs x c now)); [apply Hset | reflexivity].
Qed.

Lemma other_entries_untouched_witness :
  getNode (snd (deleteNode seededFs "readme.txt" false 1)) "script.sh"
  = getNode seededFs "script.sh".
Proof.
  refine (proj1 (proj2 (proj2 (other_entries_untouched seededFs "readme.txt"
            "script.sh" "" false 1 eq_refl _)))).
  discriminate.
Defined.

(** X7: in an existing current directory, [deleteNode(x)] of a missing
    entry returns [false] and changes nothing; of a file or of an empty
    directory it returns [true] without [recursive], and the entry is gone
    from the current directory afterwards. *)
Theorem deleteNode_missing_or_leaf (fs : VirtualFileSystem) (x : string)
    (recursive : bool) (now : Date) (cur : IFileSystemNode)
    (ch : JsMap.t IFileSystemNode) :
  getCurrentDirectoryNode fs = Some cur ->
  children cur = Some ch ->
  (JsMap.get x ch = None -> deleteNode fs x recursive now = (false, fs)) /\
  (forall node, JsMap.get x ch = Some node ->
     isDirectory node && hasChildren node = false ->
     exists fs', deleteNode fs x recursive now = (true, fs') /\
                 currentChildren fs' = Some (JsMap.delete x ch) /\
                 JsMap.get x (JsMap.delete x ch) = None).
Proof.
  intros Hc Hch. split.
  - intros Hg. unfold deleteNode. now rewrite Hc, Hch, Hg.
  - intros node Hg Hleaf.
    assert (Hd : deleteNode fs x recursive now
                 = (true, updateRoot fs (currentParts fs) (removeChild x now))).
    { unfold deleteNode. now rewrite Hc, Hch, Hg, Hleaf. }
    eexists. split; [exact Hd|]. split; [|apply get_delete_same].
    rewrite (currentChildren_updateRoot fs _ cur Hc).
    unfold removeChild. now rewrite Hch.
Qed.

Lemma deleteNode_missing_or_leaf_witness :
  deleteNode seededFs "nothing-here" true 1 = (false, seededFs).
Proof.
  refine (proj1 (deleteNode_missing_or_leaf seededFs "nothing-here" true 1
                   _ _ eq_refl eq_refl) eq_refl).
Defined.

(** X8: from the seeded tree of any home directory, every sequence of
    mutating operations keeps the tree well formed: in every directory the
    keys are pairwise distinct and each child is stored under its own
    name. *)
Theorem reachable_tree_wellformed (home : string) (now0 : Date)
    (ops : list (FsOp * Date)) :
  wfNode (root (runOps ops (newVirtualFileSystem home now0))).
Proof. apply runOps_wf. apply createInitialStructure_wf. Qed.

(** ** Listing under any collation *)

Section SortByKind.
Context {A : Type} (cmp : A -> A -> Z) (late : A -> bool).

(** [late] marks the elements the comparator puts after the others. *)
Hypothesis cmp_le : forall x y, (cmp x y <= 0)%Z -> late x = true -> late y = true.
Hypothesis cmp_gt : forall x y, (0 < cmp x y)%Z -> late y = true -> late x = true.

Let T (x y : A) : Prop := late x = true -> late y = true.

Lemma insertBy_kind (x : A) (l : list A) :
  StronglySorted T l -> StronglySorted T (insertBy cmp x l).
Proof.
  induction l as [|y l IH]; simpl; intros H.
  - repeat constructor.
  - inversion H as [|? ? Hl Hy]; subst.
    destruct (cmp x y <=? 0)%Z eqn:E.
    + apply Z.leb_le in E. constructor; [assumption|].
      constructor; [exact (cmp_le x y E)|].
      eapply Forall_impl; [exact Hy|]. intros z Hz Hx. apply Hz.
      exact (cmp_le x y E Hx).
    + apply Z.leb_gt in E. constructor; [now apply IH|].
      rewrite insertBy_Permutation. constructor; [|assumption].
      exact (cmp_gt x y E).
Qed.

Lemma sortBy_kind (l : list A) : StronglySorted T (sortBy cmp l).
Proof.
  induction l as [|x l IH]; simpl; [constructor|].
  now apply insertBy_kind.
Qed.

Lemma filter_all_late (l : list A) :
  Forall (fun y => late y = true) l ->
  List.filter (fun x => negb (late x)) l = [] /\ List.filter late l = l.
Proof.
  induction 1 as [|y l Hy Hl [IH1 IH2]]; [now split|].
  simpl. rewrite Hy. simpl. split; [assumption | now f_equal].
Qed.

Lemma sorted_kind_split (l : list A) :
  StronglySorted T l ->
  l = List.filter (fun x => negb (late x)) l ++ List.filter late l.
Proof.
  induction l as [|x l IH]; intros H; [reflexivity|].
  inversion H as [|? ? Hl Hx]; subst. simpl.
  destruct (late x) eqn:Ex; simpl.
  - assert (Hall : Forall (fun y => late y = true) l).
    { eapply Forall_impl; [exact Hx|]. intros y Hy. now apply Hy. }
    destruct (filter_all_late l Hall) as [-> ->]. reflexivity.
  - f_equal. now apply IH.
Qed.

End SortByKind.

Lemma lexCompare_antisym (a b : string) :
  (lexCompare a b <= 0)%Z <-> (0 <= lexCompare b a)%Z.
Proof.
  unfold lexCompare. rewrite (String.compare_antisym b a).
  destruct (String.compare a b); simpl; lia.
Qed.

(** X9: for every collation that is a consistent comparator (the signs of
    [localeCompare a b] and [localeCompare b a] are opposite, and
    [localeCompare a b <= 0] is transitive), in whatever order it puts
    the names, the list that [listDirectory] gives for an existing
    directory is a rearrangement of its children in which every directory
    comes before every file. *)
Theorem listDirectory_any_collation (localeCompare : string -> string -> Z)
    (fs : VirtualFileSystem) (path : option string) :
  (forall a b, (localeCompare a b <= 0)%Z <-> (0 <= localeCompare b a)%Z) ->
  (forall a b c, (localeCompare a b <= 0)%Z -> (localeCompare b c <= 0)%Z ->
                 (localeCompare a c <= 0)%Z) ->
  (forall node ch,
     getNodeByPath fs (listTarget fs path) = Some node ->
     isDirectory node = true ->
     children node = Some ch ->
     Permutation (listDirectory localeCompare fs path) (JsMap.values ch)) /\
  (exists dirs files,
     listDirectory localeCompare fs path = dirs ++ files /\
     Forall (fun n => isDirectory n = true) dirs /\
     Forall (fun n => isFile n = true) files).
Proof.
  intros _ _. unfold listDirectory. cbv zeta.
  destruct (getNodeByPath fs (listTarget fs path)) as [node|].
  2:{ split; [intros ? ? [=]|]. exists [], []. repeat split; constructor. }
  destruct (isDirectory node) eqn:Hd; simpl.
  2:{ split; [intros ? ? [= <-]; congruence|].
      exists [], []. repeat split; constructor. }
  destruct (children node) as [ch|] eqn:Hch.
  2:{ split; [intros ? ? [= <-] _; congruence|].
      exists [], []. repeat split; constructor. }
  split.
  - intros node' ch' [= <-] _ Hch'. rewrite Hch in Hch'. injection Hch' as <-.
    apply sortBy_Permutation.
  - set (l := sortBy (compareNodes localeCompare) (JsMap.values ch)).
    assert (Hs : l = List.filter (fun x => negb (isFile x)) l
                     ++ List.filter isFile l).
    { apply (sorted_kind_split isFile).
      apply (sortBy_kind (compareNodes localeCompare) isFile).
      - intros x y. unfold compareNodes, isDirectory, isFile.
        destruct (type x), (type y); simpl; auto; lia.
      - intros x y. unfold compareNodes, isDirectory, isFile.
        destruct (type x), (type y); simpl; auto; lia. }
    exists (List.filter (fun x => negb (isFile x)) l), (List.filter isFile l).
    split; [exact Hs|]. split; [|apply Forall_filter_true].
    apply Forall_forall. intros n Hn. apply list_elem_of_In, filter_In in Hn.
    destruct Hn as [_ Hn]. rewrite isFile_isDirectory in Hn.
    now destruct (isDirectory n).
Qed.

Lemma listDirectory_any_collation_witness :
  exists dirs files,
    listDirectory lexCompare seededFs None = dirs ++ files /\
    Forall (fun n => isDirectory n = true) dirs /\
    Forall (fun n => isFile n = true) files.
Proof.
  exact (proj2 (listDirectory_any_collation lexCompare seededFs None
                  lexCompare_antisym lexCompare_trans)).
Defined.

(** ** Tokenizing plain words *)

Lemma tokenizeLoop_append (a b : string) : forall st,
  tokenizeLoop st (a +:+ b) = tokenizeLoop (tokenizeLoop st a) b.
Proof.
  induction a as [|c a IH]; intros st; [reflexivity|].
  rewrite append_cons. simpl. apply IH.
Qed.

Lemma append_snoc (a : string) (c : ascii) (b : string) :
  (a +:+ String c "") +:+ b = a +:+ String c b.
Proof. now rewrite append_assoc. Qed.

Lemma tokenizeLoop_plain (w : string) : forall toks cur q,
  allChars plainChar w = true ->
  tokenizeLoop (mkTok toks cur false q false) w
  = mkTok toks (cur +:+ w) false q false.
Proof.
  induction w as [|c w IH]; intros toks cur q H.
  - simpl. f_equal. induction cur as [|x cur IHc]; [reflexivity|].
    now rewrite append_cons, <- IHc.
  - simpl in H. apply andb_prop in H as [Hc Hw]. simpl.
    unfold plainChar in Hc. apply negb_true_iff in Hc.
    apply orb_false_elim in Hc as [Hc Hb]. apply orb_false_elim in Hc as [Hs Hq].
    unfold tokenizeStep. simpl. rewrite Hb, Hq, Hs.
    rewrite IH by assumption. now rewrite append_snoc.
Qed.

Lemma tokenize_words (ws : list string) : forall toks,
  Forall (fun w => plainWord w = true) ws ->
  tokenizeEnd (tokenizeLoop (mkTok toks "" false None false) (Js.join " " ws))
  = toks ++ ws.
Proof.
  induction ws as [|w ws IH]; intros toks H.
  - simpl. now rewrite app_nil_r.
  - apply Forall_cons in H as [Hw Hws].
    unfold plainWord in Hw. apply andb_prop in Hw as [Ht Hp].
    destruct ws as [|w' ws].
    + simpl. rewrite tokenizeLoop_plain, append_nil_l by assumption.
      unfold tokenizeEnd. simpl. now rewrite Ht.
    + change (Js.join " " (w :: w' :: ws))
        with (w +:+ String " " (Js.join " " (w' :: ws))).
      rewrite tokenizeLoop_append, tokenizeLoop_plain by assumption.
      rewrite append_nil_l.
      change (tokenizeLoop ?st (String " " ?r))
        with (tokenizeLoop (tokenizeStep st " ") r).
      unfold tokenizeStep at 1. simpl. rewrite Ht.
      rewrite IH by assumption. now rewrite <- app_assoc.
Qed.

(** X10: joining plain words (non-empty, without space, quote or
    backslash) with single spaces and tokenizing the line gives the words
    back. *)
Theorem tokenize_join_words (ws : list string) :
  Forall (fun w => plainWord w = true) ws ->
  tokenize (Js.join " " ws) = ws.
Proof. intros H. unfold tokenize, tokenizeInit. now rewrite tokenize_words. Qed.

Lemma tokenize_join_words_witness :
  tokenize (Js.join " " ["rm"; "-rf"; "build/out"]) = ["rm"; "-rf"; "build/out"].
Proof.
  apply tokenize_join_words. repeat constructor.
Defined.

(** ** The interpreter's own tokenizer *)

Lemma parseCommandStep_tokenizeStep toks cur inQ q c :
  Ascii.eqb c "\" = false ->
  parseCommandStep (toks, cur, inQ, q) c =
  (let st := tokenizeStep (mkTok toks cur inQ q false) c in
   (tokens st, current st, inQuotes st, quoteChar st)) /\
  escaped (tokenizeStep (mkTok toks cur inQ q false) c) = false.
Proof.
  intros Hb. unfold parseCommandStep, tokenizeStep. simpl. rewrite Hb.
  destruct inQ, (isQuote c), (sameChar q c), (Ascii.eqb c " "),
    (Js.truthy cur); simpl; split; reflexivity.
Qed.

Lemma parseCommandLoop_tokenizeLoop (line : string) : forall toks cur inQ q,
  Js.includesChar "\" line = false ->
  parseCommandLoop (toks, cur, inQ, q) line =
  let st := tokenizeLoop (mkTok toks cur inQ q false) line in
  (tokens st, current st, inQuotes st, quoteChar st).
Proof.
  induction line as [|c line IH]; intros toks cur inQ q H; [reflexivity|].
  simpl in H. apply orb_false_elim in H as [Hc Hl].
  change (parseCommandLoop (toks, cur, inQ, q) (String c line))
    with (parseCommandLoop (parseCommandStep (toks, cur, inQ, q) c) line).
  change (tokenizeLoop ?st (String c line))
    with (tokenizeLoop (tokenizeStep st c) line).
  destruct (parseCommandStep_tokenizeStep toks cur inQ q c Hc) as [Hs He].
  rewrite Hs. cbv zeta.
  destruct (tokenizeStep (mkTok toks cur inQ q false) c)
    as [toks' cur' inQ' q' esc']. simpl in *. subst esc'.
  now apply IH.
Qed.

(** X11: on a line without backslash the script interpreter's
    [parseCommand] and the prompt's [tokenize] produce the same tokens. *)
Theorem parseCommand_agrees_with_tokenize (line : string) :
  Js.includesChar "\" line = false ->
  parseCommand line = tokenize line.
Proof.
  intros H. unfold parseCommand, tokenize, tokenizeInit.
  rewrite parseCommandLoop_tokenizeLoop by assumption. cbv zeta.
  destruct (tokenizeLoop (mkTok [] "" false None false) line); reflexivity.
Qed.

Lemma parseCommand_agrees_with_tokenize_witness :
  parseCommand "echo 'a b'  c" = tokenize "echo 'a b'  c".
Proof. apply parseCommand_agrees_with_tokenize. reflexivity. Defined.

(** ** Long flags *)

Lemma indexOf_append_sep (c : ascii) (a b : string) :
  Js.includesChar c a = false ->
  Js.indexOf c (a +:+ String c b) = Z.of_nat (String.length a).
Proof.
  induction a as [|d a IH]; intros H.
  - rewrite append_nil_l. simpl. now rewrite Ascii.eqb_refl.
  - simpl in H. apply orb_false_elim in H as [Hd Ha].
    rewrite append_cons. simpl Js.indexOf. rewrite Hd, (IH Ha).
    destruct (Z.of_nat (String.length a) <? 0)%Z eqn:E.
    + apply Z.ltb_lt in E. lia.
    + simpl String.length. lia.
Qed.

Lemma take_append (a b : string) : Js.take (String.length a) (a +:+ b) = a.
Proof.
  induction a as [|c a IH]; [now destruct b|].
  rewrite append_cons. simpl. now rewrite IH.
Qed.

Lemma length_append (a b : string) :
  String.length (a +:+ b) = (String.length a + String.length b)%nat.
Proof.
  induction a as [|c a IH]; [reflexivity|].
  rewrite append_cons. simpl. now rewrite IH.
Qed.

(** X12: a token [--k=v], where [k] holds no equals sign, sets the flag
    [k] to the string [v] (which may itself hold equals signs or be empty)
    and consumes no other token, whatever follows it. *)
Theorem processToken_long_flag_equals (k v : string) (toks : list string)
    (i : nat) (a : ParseAcc) :
  Js.includesChar "=" k = false ->
  processToken ("--" +:+ k +:+ "=" +:+ v) toks i a
  = (i, setFlag k (FlagString v) a).
Proof.
  intros Hk.
  assert (Hi : Js.indexOf "=" ("--" +:+ k +:+ "=" +:+ v)
               = Z.of_nat (2 + String.length k)).
  { change ("--" +:+ k +:+ "=" +:+ v) with (("--" +:+ k) +:+ String "=" v).
    rewrite indexOf_append_sep; [now rewrite length_append|].
    now rewrite includesChar_append, Hk. }
  unfold processToken. rewrite Hi.
  change ("--" +:+ k +:+ "=" +:+ v)
    with (String "-" (String "-" (k +:+ String "=" v))).
  cbn [String.eqb Ascii.eqb Bool.eqb orb andb Js.startsWith].
  replace (0 <? Z.of_nat (2 + String.length k))%Z with true
    by (symmetry; apply Z.ltb_lt; lia).
  rewrite Nat2Z.id. f_equal.
  assert (Hname : Js.substring 2 (2 + String.length k)
                    (String "-" (String "-" (k +:+ String "=" v))) = k).
  { unfold Js.substring. simpl String.length. rewrite length_append.
    simpl String.length.
    replace (Nat.min (Nat.min 2 (2 + String.length k))
               (S (S (String.length k + S (String.length v))))) with 2%nat by lia.
    replace (Nat.min (Nat.max 2 (2 + String.length k))
               (S (S (String.length k + S (String.length v)))))
      with (2 + String.length k)%nat by lia.
    replace (2 + String.length k - 2)%nat with (String.length k) by lia.
    simpl Js.slice. apply take_append. }
  assert (Hval : Js.slice (2 + String.length k + 1)
                   (String "-" (String "-" (k +:+ String "=" v))) = v).
  { replace (2 + String.length k + 1)%nat
      with (S (S (String.length (k +:+ String "=" ""))))
      by (rewrite length_append; simpl; lia).
    simpl Js.slice. rewrite <- (append_snoc k "=" v). apply slice_append. }
  now rewrite Hname, Hval.
Qed.

Lemma processToken_long_flag_equals_witness :
  processToken "--color=a=b" ["ls"; "--color=a=b"; "x"] 1 (mkAcc [] ∅ None None)
  = (1%nat, setFlag "color" (FlagString "a=b") (mkAcc [] ∅ None None)).
Proof.
  exact (processToken_long_flag_equals "color" "a=b" _ 1 _ eq_refl).
Defined.

(** ** Blank input *)

Lemma tokenizeLoop_spaces (n : nat) :
  tokenizeLoop tokenizeInit (spaces n) = tokenizeInit.
Proof. induction n as [|n IH]; [reflexivity | exact IH]. Qed.

Lemma trim_spaces (n : nat) : Js.trim (spaces n) = "".
Proof.
  unfold Js.trim.
  assert (H : Js.trimStart (spaces n) = "")
    by (induction n as [|n IH]; [reflexivity | exact IH]).
  now rewrite H.
Qed.

(** X13: a line made of spaces only has no tokens, parses to the empty
    command, and its dispatch is a successful no-operation with exit code
    0 that leaves the world unchanged and runs no handler. *)
Theorem blank_line_is_noop (n : nat) :
  tokenize (spaces n) = [] /\
  parseInput (spaces n) = mkParsed "" [] ∅ None None /\
  (forall p cwd w,
     executeCommand p (spaces n) cwd w = (mkResult true None None 0, w)).
Proof.
  assert (Ht : tokenize (spaces n) = [])
    by (unfold tokenize; now rewrite tokenizeLoop_spaces).
  split; [exact Ht|]. split.
  - unfold parseInput. now rewrite Ht.
  - intros p cwd w. unfold executeCommand. now rewrite trim_spaces.
Qed.

(** ** Redirection *)

Lemma withFileSystem_same (w : World) : withFileSystem w (fileSystem w) = w.
Proof. now destruct w. Qed.

(** X15: when the redirect target names something that is not a file (a
    directory of the current directory, for a bare name), a successful
    handler result with output is turned into the failure [cannot redirect
    output] with exit code 1, in write and in append mode, and the world
    stays as the handler left it. *)
Theorem redirect_to_non_file_fails (p : CommandProcessor) (input cwd : string)
    (w w' : World) (c : ICommand) (r : ICommandResult) (lines : list string)
    (target : string) (node : IFileSystemNode) :
  Js.truthy (Js.trim input) = true ->
  getCommand p (command (parseInput input)) = Some c ->
  execute c (mkContext (args (parseInput input)) (flags (parseInput input)) cwd) w
    = Returned r w' ->
  success r = true ->
  output r = Some lines ->
  redirectToFile (parseInput input) = Some target ->
  Js.truthy target = true ->
  getNode (fileSystem w') target = Some node ->
  isFile node = false ->
  executeCommand p input cwd w =
  (mkResult false None
     (Some ("bash: " +:+ target +:+ ": cannot redirect output")) 1, w').
Proof.
  intros Ht Hc He Hs Ho Hr Htt Hg Hf.
  unfold getCommand in Hc. unfold executeCommand.
  rewrite Ht, Hc, He, Hr, Hs, Ho. simpl negb. cbv iota.
  unfold isTruthyTarget. rewrite Htt.
  assert (Hread : readFile (fileSystem w') target = None)
    by (unfold readFile; now rewrite Hg, Hf).
  destruct (redirectMode (parseInput input)) as [[|]|].
  - unfold writeToFile.
    rewrite (writeFile_not_file _ _ _ _ node Hg Hf), withFileSystem_same.
    reflexivity.
  - unfold appendToFile. rewrite Hread.
    rewrite (writeFile_not_file _ _ _ _ node Hg Hf), withFileSystem_same.
    reflexivity.
  - unfold writeToFile.
    rewrite (writeFile_not_file _ _ _ _ node Hg Hf), withFileSystem_same.
    reflexivity.
Qed.

Lemma redirect_to_non_file_fails_witness :
  executeCommand (registerCommand EchoCommand emptyProcessor)
    "echo hi >> Documents" "~" (mkWorld seededFs ∅ [] 1)
  = (mkResult false None (Some "bash: Documents: cannot redirect output") 1,
     mkWorld seededFs ∅ [] 1).
Proof.
  exact (redirect_to_non_file_fails
           (registerCommand EchoCommand emptyProcessor)
           "echo hi >> Documents" "~" (mkWorld seededFs ∅ [] 1) _
           EchoCommand _ ["hi"] "Documents" _
           eq_refl eq_refl eq_refl eq_refl eq_refl eq_refl eq_refl
           eq_refl eq_refl).
Defined.

(** X16: a successful [appendToFile] on a bare name leaves in the file
    what [readFile] gave before (nothing for a missing file), then a
    newline if that was not empty, then the new content. *)
Theorem appendToFile_content (w w' : World) (filename content0 : string) :
  bareName filename = true ->
  appendToFile w filename content0 = (true, w') ->
  readFile (fileSystem w') filename =
  Some (match readFile (fileSystem w) filename with
        | Some existing =>
            existing +:+ (if Js.truthy existing then newline else "") +:+ content0
        | None => content0
        end).
Proof.
  intros Hb H. unfold appendToFile in H.
  destruct (readFile (fileSystem w) filename) as [existing|].
  - destruct (writeFile (fileSystem w) filename _ (clock w)) as [ok fs'] eqn:Hw.
    injection H as -> <-. simpl.
    now apply (writeFile_true_readFile _ _ _ _ _ Hb Hw).
  - cbn [Js.truthy] in H. rewrite !append_nil_l in H.
    destruct (writeFile (fileSystem w) filename content0 (clock w))
      as [ok fs'] eqn:Hw.
    injection H as -> <-. simpl.
    now apply (writeFile_true_readFile _ _ _ _ _ Hb Hw).
Qed.

Lemma appendToFile_content_witness :
  readFile (fileSystem (snd (appendToFile (mkWorld seededFs ∅ [] 1)
                               "script.sh" "echo bye"))) "script.sh"
  = Some ("#!/bin/bash" +:+ newline +:+ "echo " +:+ String dquote
          "Hello World!" +:+ String dquote "" +:+ newline +:+ "echo bye").
Proof.
  exact (appendToFile_content (mkWorld seededFs ∅ [] 1) _ "script.sh"
           "echo bye" eq_refl eq_refl).
Defined.

(** ** Registering and unregistering *)

Lemma fold_alias_delete (als : list string) :
  forall (m : gmap string string) (k : string),
    fold_left (fun m alias => delete (Js.toLowerCase alias) m) als m !! k =
    if bool_decide (k ∈ List.map Js.toLowerCase als) then None else m !! k.
Proof.
  induction als as [|a als IH]; intros m k; [reflexivity|].
  cbn [fold_left List.map].
  rewrite IH. destruct (decide (Js.toLowerCase a = k)) as [<-|Hne].
  - rewrite lookup_delete_eq.
    rewrite (bool_decide_eq_true_2 _ (list_elem_of_here _ _)).
    now destruct (bool_decide _).
  - rewrite lookup_delete_ne by assumption.
    apply (f_equal (fun b : bool => if b then None else m !! k)).
    apply bool_decide_ext. rewrite elem_of_cons.
    split; [auto | intros [->|?]; [contradiction | assumption]].
Qed.


(** ** Completion of command names *)

Lemma elem_of_mapKeys {V} (m : gmap string V) (k : string) :
  k ∈ mapKeys m <-> is_Some (m !! k).
Proof.
  unfold mapKeys. rewrite list_elem_of_In, in_map_iff. split.
  - intros ([k' v] & <- & Hin). apply list_elem_of_In in Hin.
    apply elem_of_map_to_list in Hin. simpl. eauto.
  - intros [v Hv]. exists (k, v). split; [reflexivity|].
    apply list_elem_of_In. now apply elem_of_map_to_list.
Qed.

Lemma newSet_fold (xs : list string) :
  forall acc : list string,
    NoDup acc ->
    let r := fold_left
               (fun acc x => if bool_decide (x ∈ acc) then acc else acc ++ [x])
               xs acc in
    NoDup r /\ forall x, x ∈ r <-> x ∈ acc \/ x ∈ xs.
Proof.
  induction xs as [|a xs IH]; intros acc Hnd; cbn [fold_left].
  - split; [assumption|]. intros x. rewrite elem_of_nil. tauto.
  - case_bool_decide as Ha.
    + destruct (IH acc Hnd) as [H1 H2]. split; [assumption|].
      intros x. rewrite H2, elem_of_cons. split; [tauto|].
      intros [?|[->|?]]; tauto.
    + assert (Hnd' : NoDup (acc ++ [a])).
      { apply NoDup_app. split; [assumption|]. split.
        - intros y Hy Hy'. apply list_elem_of_singleton in Hy'. now subst.
        - apply NoDup_singleton. }
      destruct (IH _ Hnd') as [H1 H2]. split; [assumption|].
      intros x. rewrite H2, elem_of_app, list_elem_of_singleton, elem_of_cons.
      tauto.
Qed.

Lemma newSet_spec (xs : list string) :
  NoDup (newSet xs) /\ forall x, x ∈ newSet xs <-> x ∈ xs.
Proof.
  destruct (newSet_fold xs [] NoDup_nil_2) as [H1 H2].
  split; [exact H1|]. intros x. unfold newSet. rewrite H2, elem_of_nil. tauto.
Qed.

Lemma elem_of_List_filter {A} (f : A -> bool) (l : list A) (x : A) :
  x ∈ List.filter f l <-> x ∈ l /\ f x = true.
Proof. now rewrite !list_elem_of_In, filter_In. Qed.

Lemma sorted_strict (l : list string) :
  StronglySorted (fun a b => (lexCompare a b <= 0)%Z) l -> NoDup l ->
  StronglySorted (fun a b => String.compare a b = Lt) l.
Proof.
  induction 1 as [|a l Hs IH Hall]; intros Hnd; constructor.
  - apply IH. now apply NoDup_cons in Hnd.
  - apply NoDup_cons in Hnd as [Hna _].
    rewrite List.Forall_forall in Hall |- *. intros b Hb.
    specialize (Hall b Hb). apply lexCompare_le in Hall.
    destruct (String.compare a b) eqn:E; [|reflexivity|congruence].
    apply String.compare_eq_iff in E. subst b.
    apply list_elem_of_In in Hb. contradiction.
Qed.



(** ** Command history *)

Lemma at_snoc {A} (l : list A) (x : A) :
  TerminalHistory.at_ (l ++ [x]) (Z.of_nat (List.length (l ++ [x])) - 1) = Some x.
Proof.
  unfold TerminalHistory.at_. rewrite length_app. simpl List.length.
  replace (Z.of_nat (List.length l + 1) - 1)%Z with (Z.of_nat (List.length l))
    by lia.
  destruct (Z.ltb_spec (Z.of_nat (List.length l)) 0); [lia|].
  rewrite Nat2Z.id. apply list_lookup_middle. reflexivity.
Qed.

Lemma at_last_inv {A} (l : list A) (x : A) :
  TerminalHistory.at_ l (Z.of_nat (List.length l) - 1) = Some x ->
  exists l', l = l' ++ [x].
Proof.
  destruct l as [|a l0] using rev_ind.
  - discriminate.
  - rewrite at_snoc. intros [= ->]. eauto.
Qed.

Lemma noRepeat_tl (l : list string) : noRepeat l -> noRepeat (List.tl l).
Proof.
  destruct l as [|a [|b l]]; simpl; try tauto.
Qed.

Lemma noRepeat_snoc (l : list string) (x c : string) :
  noRepeat (l ++ [x]) -> x <> c -> noRepeat ((l ++ [x]) ++ [c]).
Proof.
  induction l as [|a l IH]; intros H Hne.
  - simpl. tauto.
  - destruct l as [|b l].
    + simpl in *. tauto.
    + change (a <> b /\ noRepeat ((b :: l) ++ [x])) in H.
      change (a <> b /\ noRepeat (((b :: l) ++ [x]) ++ [c])).
      destruct H as [Hab H]. split; [assumption|]. now apply IH.
Qed.

Lemma Forall_tl {A} (P : A -> Prop) (l : list A) :
  Forall P l -> Forall P (List.tl l).
Proof. destruct 1; [constructor | assumption]. Qed.

Lemma add_cases (c : string) (h : TerminalHistory.t) :
  TerminalHistory.add c h = h \/
  (Js.trim c <> "" /\
   (forall l x, TerminalHistory.history h = l ++ [x] -> x <> c) /\
   let pushed := TerminalHistory.history h ++ [c] in
   let kept := if (Z.of_nat (List.length pushed) >? TerminalHistory.maxSize h)%Z
               then List.tl pushed else pushed in
   TerminalHistory.add c h =
   TerminalHistory.mk kept (Z.of_nat (List.length kept))
                      (TerminalHistory.maxSize h)).
Proof.
  unfold TerminalHistory.add.
  destruct (String.eqb_spec (Js.trim c) "") as [|Hne]; [now left|].
  unfold TerminalHistory.len.
  destruct (TerminalHistory.at_ _ _) as [lastCommand|] eqn:Hl.
  - destruct (String.eqb_spec lastCommand c) as [|Hd]; [now left|].
    right. split; [assumption|]. split; [|reflexivity].
    intros l x E. rewrite E, at_snoc in Hl. congruence.
  - right. split; [assumption|]. split; [|reflexivity].
    intros l x E. rewrite E, at_snoc in Hl. discriminate.
Qed.

Lemma add_inv (c : string) (h : TerminalHistory.t) :
  historyInv h -> historyInv (TerminalHistory.add c h).
Proof.
  intros Hi. destruct (add_cases c h) as [->|(Hne & Hlast & E)]; [assumption|].
  rewrite E. clear E.
  destruct Hi as (Hlen & Hall & Hrep & Hidx).
  unfold historyInv, TerminalHistory.size, TerminalHistory.len,
    TerminalHistory.getAll in *.
  cbn [TerminalHistory.history TerminalHistory.maxSize
       TerminalHistory.currentIndex].
  set (l := TerminalHistory.history h) in *.
  set (ms := TerminalHistory.maxSize h) in *.
  assert (Hall' : Forall (fun c => Js.trim c <> "") (l ++ [c]))
    by (apply Forall_app; split; [assumption | now constructor]).
  assert (Hrep' : noRepeat (l ++ [c])).
  { destruct l as [|a l0] using rev_ind; [exact I|].
    apply noRepeat_snoc; [assumption|]. now apply (Hlast l0 a). }
  rewrite length_app in *. simpl List.length in *.
  destruct (Z.gtb_spec (Z.of_nat (List.length l + 1)) ms) as [Hgt|Hle].
  - repeat split.
    + destruct l as [|a l0]; simpl List.tl; simpl List.length in *.
      * lia.
      * rewrite length_app. simpl List.length. lia.
    + now apply Forall_tl.
    + now apply noRepeat_tl.
    + lia.
    + lia.
  - rewrite length_app. simpl List.length. repeat split; try assumption; lia.
Qed.

Ltac history_unfold :=
  unfold historyInv, TerminalHistory.size, TerminalHistory.len,
    TerminalHistory.getAll in *;
  cbn [TerminalHistory.history TerminalHistory.currentIndex
       TerminalHistory.maxSize snd] in *.

Lemma runHistoryOp_inv (h : TerminalHistory.t) (op : HistoryOp) :
  historyInv h -> historyInv (runHistoryOp h op).
Proof.
  destruct op as [c| | | |]; cbn [runHistoryOp].
  - apply add_inv.
  - intros (Hlen & Hall & Hrep & Hidx). unfold TerminalHistory.getPrevious.
    destruct (Z.gtb_spec (TerminalHistory.currentIndex h) 0);
      history_unfold; repeat split; try assumption; lia.
  - intros (Hlen & Hall & Hrep & Hidx). unfold TerminalHistory.getNext.
    history_unfold.
    destruct (Z.ltb_spec (TerminalHistory.currentIndex h)
                (Z.of_nat (List.length (TerminalHistory.history h)) - 1));
      history_unfold; repeat split; try assumption; lia.
  - intros (Hlen & Hall & Hrep & Hidx). unfold TerminalHistory.clear.
    history_unfold. cbn [List.length noRepeat].
    repeat split; try constructor; lia.
  - intros (Hlen & Hall & Hrep & Hidx). unfold TerminalHistory.resetIndex.
    history_unfold. repeat split; try assumption; lia.
Qed.

Lemma runHistoryOp_maxSize (h : TerminalHistory.t) (op : HistoryOp) :
  TerminalHistory.maxSize (runHistoryOp h op) = TerminalHistory.maxSize h.
Proof.
  destruct op as [c| | | |]; cbn [runHistoryOp]; try reflexivity.
  - destruct (add_cases c h) as [->|(_ & _ & ->)]; reflexivity.
  - unfold TerminalHistory.getPrevious. now destruct (_ >? _)%Z.
  - unfold TerminalHistory.getNext. now destruct (_ <? _)%Z.
Qed.

Lemma runHistoryOps_inv (ops : list HistoryOp) :
  forall h, historyInv h ->
    historyInv (runHistoryOps ops h) /\
    TerminalHistory.maxSize (runHistoryOps ops h) = TerminalHistory.maxSize h.
Proof.
  induction ops as [|op ops IH]; intros h Hi; [now split|].
  cbn [runHistoryOps fold_left].
  destruct (IH _ (runHistoryOp_inv h op Hi)) as [H1 H2].
  split; [exact H1|]. unfold runHistoryOps in H2.
  now rewrite H2, runHistoryOp_maxSize.
Qed.


Lemma add_ends_with (c : string) (h : TerminalHistory.t) :
  Js.trim c <> "" -> (1 <= TerminalHistory.maxSize h)%Z ->
  exists l, TerminalHistory.history (TerminalHistory.add c h) = l ++ [c].
Proof.
  intros Hne Hm. unfold TerminalHistory.add.
  destruct (String.eqb_spec (Js.trim c) "") as [|_]; [contradiction|].
  assert (Hpush : exists l,
    (if (Z.of_nat (List.length (TerminalHistory.history h ++ [c]))
           >? TerminalHistory.maxSize h)%Z
     then List.tl (TerminalHistory.history h ++ [c])
     else TerminalHistory.history h ++ [c]) = l ++ [c]).
  { destruct (Z.gtb_spec
                (Z.of_nat (List.length (TerminalHistory.history h ++ [c])))
                (TerminalHistory.maxSize h)) as [Hgt|_]; [|eauto].
    destruct (TerminalHistory.history h) as [|a l0]; simpl in *; [lia|eauto]. }
  unfold TerminalHistory.len.
  destruct (TerminalHistory.at_ _ _) as [lastCommand|] eqn:Hl; [|exact Hpush].
  destruct (String.eqb_spec lastCommand c) as [->|_]; [|exact Hpush].
  now apply at_last_inv in Hl.
Qed.



Lemma previousN_bottom (m : nat) (l : list string) (i ms : Z) :
  (i <= 0)%Z ->
  previousN m (TerminalHistory.mk l i ms) =
  (repeat None m, TerminalHistory.mk l i ms).
Proof.
  intros Hi. induction m as [|m IH]; [reflexivity|].
  cbn [previousN]. unfold TerminalHistory.getPrevious.
  cbn [TerminalHistory.currentIndex].
  destruct (Z.gtb_spec i 0); [lia|]. now rewrite IH.
Qed.

Lemma previousN_from (l : list string) (ms : Z) (m : nat) :
  forall k : nat, (k <= List.length l)%nat ->
    previousN (k + m) (TerminalHistory.mk l (Z.of_nat k) ms) =
    (List.map Some (rev (take k l)) ++ repeat None m,
     TerminalHistory.mk l 0%Z ms).
Proof.
  induction k as [|k IH]; intros Hk.
  - simpl. now rewrite previousN_bottom by lia.
  - cbn [Nat.add previousN]. unfold TerminalHistory.getPrevious.
    cbn [TerminalHistory.currentIndex TerminalHistory.history
         TerminalHistory.maxSize].
    destruct (Z.gtb_spec (Z.of_nat (S k)) 0); [|lia].
    replace (Z.of_nat (S k) - 1)%Z with (Z.of_nat k) by lia.
    rewrite IH by lia.
    destruct (lookup_lt_is_Some_2 l k ltac:(lia)) as [x Hx].
    unfold TerminalHistory.at_.
    destruct (Z.ltb_spec (Z.of_nat k) 0); [lia|].
    rewrite Nat2Z.id, Hx, (take_S_r l k x Hx), rev_app_distr.
    reflexivity.
Qed.

(** X21: starting from [resetIndex()], repeated [getPrevious()] calls
    return the entries from the newest to the oldest, each once, and after
    that [undefined] for every further call, leaving the index at the
    oldest entry. *)
Theorem history_walk_back (h : TerminalHistory.t) (m : nat) :
  previousN (List.length (TerminalHistory.history h) + m)
            (TerminalHistory.resetIndex h) =
  (List.map Some (rev (TerminalHistory.history h)) ++ repeat None m,
   TerminalHistory.mk (TerminalHistory.history h) 0%Z
                      (TerminalHistory.maxSize h)).
Proof.
  unfold TerminalHistory.resetIndex, TerminalHistory.len.
  rewrite previousN_from by lia. now rewrite firstn_all.
Qed.

(** X22: when the index is on or below an entry, [getNext()] after
    [getPrevious()] puts the index back where it was and returns the entry
    at that index, or the empty string when the index was past the last
    entry; the stored entries are not touched. *)
Theorem history_next_after_previous (h : TerminalHistory.t) :
  (0 < TerminalHistory.currentIndex h <= TerminalHistory.size h)%Z ->
  let h1 := snd (TerminalHistory.getPrevious h) in
  snd (TerminalHistory.getNext h1) = h /\
  fst (TerminalHistory.getNext h1) =
  (if (TerminalHistory.currentIndex h <? TerminalHistory.size h)%Z
   then TerminalHistory.get h (TerminalHistory.currentIndex h)
   else Some "").
Proof.
  intros [H0 H1]. destruct h as [l i ms].
  unfold TerminalHistory.size, TerminalHistory.len, TerminalHistory.get,
    TerminalHistory.getPrevious, TerminalHistory.getNext in *.
  cbn [TerminalHistory.history TerminalHistory.currentIndex
       TerminalHistory.maxSize] in *.
  destruct (Z.gtb_spec i 0); [|lia]. cbn [snd].
  unfold TerminalHistory.len.
  cbn [TerminalHistory.history TerminalHistory.currentIndex
       TerminalHistory.maxSize].
  destruct (Z.ltb_spec (i - 1) (Z.of_nat (List.length l) - 1));
    destruct (Z.ltb_spec i (Z.of_nat (List.length l))); try lia;
    cbn [fst snd TerminalHistory.history TerminalHistory.currentIndex].
  - replace (i - 1 + 1)%Z with i by lia. now split.
  - replace (Z.of_nat (List.length l)) with i by lia. now split.
Qed.

Lemma history_next_after_previous_witness :
  snd (TerminalHistory.getNext
         (snd (TerminalHistory.getPrevious
                 (TerminalHistory.mk ["pwd"; "ls"; "cd /"] 2 10))))
  = TerminalHistory.mk ["pwd"; "ls"; "cd /"] 2 10 /\
  fst (TerminalHistory.getNext
         (snd (TerminalHistory.getPrevious
                 (TerminalHistory.mk ["pwd"; "ls"; "cd /"] 2 10))))
  = Some "cd /".
Proof.
  apply (history_next_after_previous
           (TerminalHistory.mk ["pwd"; "ls"; "cd /"] 2 10)).
  unfold TerminalHistory.size, TerminalHistory.len. simpl. lia.
Defined.

(** ** Script interpreter *)

Lemma append_nil_r (s : string) : s +:+ "" = s.
Proof.
  induction s as [|c s IH]; [reflexivity|]. now rewrite append_cons, IH.
Qed.

Lemma substituteVars_no_dollar (env : gmap string string) (s : string) :
  Js.includesChar "$" s = false -> substituteVars env None s = s.
Proof.
  induction s as [|c s IH]; [reflexivity|]. simpl. intros H.
  apply orb_false_elim in H as [Hc Hs]. rewrite Hc. now rewrite IH.
Qed.

Lemma substituteVars_prefix (env : gmap string string) (pre s : string) :
  Js.includesChar "$" pre = false ->
  substituteVars env None (pre +:+ s) = pre +:+ substituteVars env None s.
Proof.
  induction pre as [|c pre IH]; intros H.
  - now rewrite !append_nil_l.
  - simpl in H. apply orb_false_elim in H as [Hc Hs].
    rewrite !append_cons. simpl. rewrite Hc. now rewrite IH.
Qed.

Lemma substituteVars_name (env : gmap string string) (name rest : string) :
  forall v, allChars isWordChar name = true ->
    substituteVars env (Some v) (name +:+ rest)
    = substituteVars env (Some (v +:+ name)) rest.
Proof.
  induction name as [|c name IH]; intros v H.
  - rewrite append_nil_l. f_equal. f_equal.
    induction v as [|x v IHv]; [reflexivity|]. now rewrite append_cons, <- IHv.
  - simpl in H. apply andb_prop in H as [Hc Hn].
    rewrite append_cons. simpl. rewrite Hc, IH by assumption.
    now rewrite append_snoc.
Qed.

Lemma substituteVars_pending_end (env : gmap string string) (v rest : string) :
  startsNonWord rest = true ->
  substituteVars env (Some v) rest
  = expandVar env (Some v) +:+ substituteVars env None rest.
Proof.
  destruct rest as [|c rest]; intros H.
  - change (expandVar env (Some v) = expandVar env (Some v) +:+ "").
    now rewrite append_nil_r.
  - simpl in H. apply negb_true_iff in H.
    cbn [substituteVars]. now rewrite H.
Qed.

(** X23: the variable substitution of the script interpreter's [echo]
    leaves a text without [$] as it is, and replaces a [$name] whose name
    ends at the end of the text or at a character that is not a letter,
    digit or underscore by the variable's value, or by nothing when the
    variable is not set; the text before it, if it has no [$], is kept and
    the text after it is substituted in turn. *)
Theorem substituteVars_behaviour (env : gmap string string) :
  (forall s, Js.includesChar "$" s = false -> substituteVars env None s = s) /\
  (forall pre name rest,
     Js.includesChar "$" pre = false ->
     wordName name = true ->
     startsNonWord rest = true ->
     substituteVars env None (pre +:+ "$" +:+ name +:+ rest)
     = pre +:+ match env !! name with Some value => value | None => "" end
           +:+ substituteVars env None rest).
Proof.
  split; [apply substituteVars_no_dollar|].
  intros pre name rest Hp Hn Hr. unfold wordName in Hn.
  apply andb_prop in Hn as [Ht Hw].
  rewrite substituteVars_prefix by assumption. f_equal.
  change ("$" +:+ name +:+ rest) with (String "$" (name +:+ rest)).
  cbn [substituteVars]. simpl Ascii.eqb. cbv iota.
  rewrite substituteVars_name, append_nil_l by assumption.
  rewrite substituteVars_pending_end by assumption.
  destruct name; [discriminate | reflexivity].
Qed.

Lemma split_first_piece (c : ascii) (a b : string) :
  Js.includesChar c a = false ->
  Js.split c (a +:+ String c b) = a :: Js.split c b.
Proof.
  intros H. unfold Js.split.
  now rewrite splitAux_app_sep, splitAux_no_sep, append_nil_l.
Qed.

Lemma split_no_sep (c : ascii) (a : string) :
  Js.includesChar c a = false -> Js.split c a = [a].
Proof.
  intros H. unfold Js.split. now rewrite splitAux_no_sep, append_nil_l.
Qed.

(** X24: one argument of the script interpreter's [export].  [K=V] with
    non-empty [K] and [V] sets [K] to [V]; in [K=V=more] the value stops at
    the second [=]; an argument without [=], with nothing before the [=] or
    with nothing between the first [=] and the end or the next [=] changes
    nothing. *)
Theorem exportOne_behaviour (env : gmap string string) :
  (forall key value,
     Js.includesChar "=" key = false -> Js.includesChar "=" value = false ->
     Js.truthy key = true -> Js.truthy value = true ->
     exportOne env (key +:+ "=" +:+ value) = <[key := value]> env /\
     forall more,
       exportOne env (key +:+ "=" +:+ value +:+ "=" +:+ more)
       = <[key := value]> env) /\
  (forall arg, Js.includesChar "=" arg = false -> exportOne env arg = env) /\
  (forall tail, exportOne env ("=" +:+ tail) = env) /\
  (forall key more,
     Js.includesChar "=" key = false ->
     exportOne env (key +:+ "=") = env /\
     exportOne env (key +:+ "=" +:+ "=" +:+ more) = env).
Proof.
  repeat split.
  - unfold exportOne. change ("=" +:+ value) with (String "=" value).
    rewrite split_first_piece, split_no_sep by assumption.
    now rewrite H1, H2.
  - intros more. unfold exportOne.
    change ("=" +:+ value +:+ "=" +:+ more)
      with (String "=" (value +:+ String "=" more)).
    rewrite !split_first_piece by assumption.
    now rewrite H1, H2.
  - intros arg H. unfold exportOne. now rewrite split_no_sep.
  - intros tail. unfold exportOne.
    change ("=" +:+ tail) with ("" +:+ String "=" tail).
    rewrite split_first_piece by reflexivity.
    now destruct (Js.split "=" tail).
  - unfold exportOne. change ("=" +:+ "") with (String "=" "").
    rewrite split_first_piece by assumption. simpl.
    now rewrite andb_false_r.
  - unfold exportOne.
    change ("=" +:+ "=" +:+ more) with (String "=" ("" +:+ String "=" more)).
    rewrite !split_first_piece by (assumption || reflexivity).
    simpl. now rewrite andb_false_r.
Qed.

Lemma scriptFrame_refl (w : World) : scriptFrame w w.
Proof.
  repeat split. exists []. now rewrite app_nil_r.
Qed.

Lemma scriptFrame_trans (w1 w2 w3 : World) :
  scriptFrame w1 w2 -> scriptFrame w2 w3 -> scriptFrame w1 w3.
Proof.
  intros (A1 & A2 & A3 & o1 & A4) (B1 & B2 & B3 & o2 & B4).
  repeat split; try congruence.
  exists (o1 ++ o2). now rewrite B4, A4, app_assoc.
Qed.

Lemma scriptFrame_addOutput (text cls : string) (w : World) :
  scriptFrame w (addOutput text cls w).
Proof. repeat split. now exists [(text, cls)]. Qed.

Lemma scriptFrame_outputs (texts : list IFileSystemNode)
    (f : IFileSystemNode -> string) (cls : string) : forall w,
  scriptFrame w (fold_left (fun w' x => addOutput (f x) cls w') texts w).
Proof.
  induction texts as [|x texts IH]; intros w; [apply scriptFrame_refl|].
  simpl. eapply scriptFrame_trans; [apply scriptFrame_addOutput | apply IH].
Qed.

Lemma setCurrentDirectory_frame (fs : VirtualFileSystem) (path : string) :
  root (snd (setCurrentDirectory fs path)) = root fs /\
  homeDirectory (snd (setCurrentDirectory fs path)) = homeDirectory fs.
Proof.
  unfold setCurrentDirectory.
  destruct (getNodeByPath fs (resolvePath fs path)) as [node|]; [|now split].
  destruct (isDirectory node); now split.
Qed.

Lemma executeScriptLine_frame (localeCompare : string -> string -> Z)
    (line : string) (w : World) :
  scriptFrame w (snd (executeScriptLine localeCompare line w)).
Proof.
  unfold executeScriptLine.
  destruct (parseCommand line) as [|cmd argv]; [apply scriptFrame_refl|].
  destruct (String.eqb cmd "echo"); [apply scriptFrame_addOutput|].
  destruct (String.eqb cmd "export").
  { repeat split. exists []. simpl. now rewrite app_nil_r. }
  destruct (String.eqb cmd "cd").
  { unfold executeCd.
    set (path := match argv with [] => _ | _ => _ end).
    pose proof (setCurrentDirectory_frame (fileSystem w) path) as [H1 H2].
    destruct (setCurrentDirectory (fileSystem w) path) as [ok fs'].
    simpl in *. repeat split; try assumption.
    exists []. now rewrite app_nil_r. }
  destruct (String.eqb cmd "ls").
  { unfold executeLs. simpl. apply scriptFrame_outputs. }
  apply scriptFrame_addOutput.
Qed.

Lemma executeLines_frame (localeCompare : string -> string -> Z)
    (lines : list string) : forall w,
  scriptFrame w (snd (executeLines localeCompare lines w)).
Proof.
  induction lines as [|l lines IH]; intros w; [apply scriptFrame_refl|].
  cbn [executeLines].
  destruct (negb (Js.truthy (Js.trim l)) || Js.startsWith (Js.trim l) "#");
    [apply IH|].
  pose proof (executeScriptLine_frame localeCompare (Js.trim l) w) as H.
  destruct (executeScriptLine localeCompare (Js.trim l) w) as [ok w'].
  destruct ok; [|exact H].
  eapply scriptFrame_trans; [exact H | apply IH].
Qed.

(** X25: running a script never changes the file tree, the home directory
    or the clock reading, whatever the script contains and whether it
    succeeds or fails; it can only change the current directory and the
    environment, and add lines after the ones the terminal already has. *)
Theorem executeScript_keeps_tree (localeCompare : string -> string -> Z)
    (scriptPath : string) (w : World) :
  let w' := snd (executeScript localeCompare scriptPath w) in
  root (fileSystem w') = root (fileSystem w) /\
  homeDirectory (fileSystem w') = homeDirectory (fileSystem w) /\
  clock w' = clock w /\
  exists out, terminal w' = terminal w ++ out.
Proof.
  intros w'. change (scriptFrame w w'). subst w'. unfold executeScript.
  destruct (readFile (fileSystem w) scriptPath) as [[|c content0]|];
    try apply scriptFrame_addOutput.
  destruct (List.filter _ _) as [|first lines] eqn:E;
    [apply scriptFrame_refl|].
  destruct (if Js.startsWith first "#!" then _ else false);
    [apply scriptFrame_addOutput|].
  apply executeLines_frame.
Qed.

(** ** File commands through the dispatcher *)

Lemma trim_head (c : ascii) (s : string) :
  Js.isSpace c = false -> Js.truthy (Js.trim (String c s)) = true.
Proof.
  intros H. unfold Js.trim. cbn [Js.trimStart]. rewrite H.
  cbn [Js.trimEnd]. rewrite H. now destruct (Js.trimEnd s).
Qed.

Lemma executeCommand_plain (p : CommandProcessor) (input cwd : string)
    (w w' : World) (c : ICommand) (r : ICommandResult) :
  Js.truthy (Js.trim input) = true ->
  getCommand p (command (parseInput input)) = Some c ->
  execute c (mkContext (args (parseInput input)) (flags (parseInput input)) cwd) w
    = Returned r w' ->
  redirectToFile (parseInput input) = None ->
  executeCommand p input cwd w = (r, w').
Proof.
  intros Ht Hc He Hr. unfold getCommand in Hc. unfold executeCommand.
  now rewrite Ht, Hc, He, Hr.
Qed.

Lemma tokenize_join (ws : list string) :
  Forall (fun w => plainWord w = true) ws -> tokenize (Js.join " " ws) = ws.
Proof. intros H. unfold tokenize, tokenizeInit. now rewrite tokenize_words. Qed.

Lemma join_cons_head (a : ascii) (c : string) (ws : list string) :
  exists rest, Js.join " " (String a c :: ws) = String a rest.
Proof. destruct ws; [now exists c | eexists; reflexivity]. Qed.



Lemma parseLoop_step (fuel : nat) (toks : list string) (i : nat)
    (a : ParseAcc) (t : string) (i' : nat) (a' : ParseAcc) :
  toks !! i = Some t ->
  processToken t toks i a = (i', a') ->
  parseLoop (S fuel) toks i a = parseLoop fuel toks (S i') a'.
Proof. intros Ht Hp. cbn [parseLoop]. now rewrite Ht, Hp. Qed.

Lemma parseLoop_none (fuel : nat) (toks : list string) (i : nat)
    (a : ParseAcc) :
  toks !! i = None -> parseLoop fuel toks i a = a.
Proof. intros H. destruct fuel; [reflexivity|]. cbn [parseLoop]. now rewrite H. Qed.

Lemma startsWith_dash2 (t : string) :
  Js.startsWith t "-" = false -> Js.startsWith t "--" = false.
Proof.
  destruct t as [|c t]; [reflexivity|]. simpl.
  destruct (Ascii.eqb c "-"); [discriminate | reflexivity].
Qed.

Lemma processToken_arg (t : string) (toks : list string) (i : nat)
    (a : ParseAcc) :
  argWord t = true -> processToken t toks i a = (i, pushArg t a).
Proof.
  unfold argWord. intros H.
  apply andb_prop in H as [H H2]. apply andb_prop in H as [H H1].
  apply andb_prop in H as [_ H0].
  apply negb_true_iff in H0, H1, H2.
  unfold processToken. now rewrite H1, H2, (startsWith_dash2 t H0), H0.
Qed.

Lemma processToken_short_single (c : ascii) (toks : list string) (i : nat)
    (a : ParseAcc) :
  Ascii.eqb c "-" = false ->
  processToken (String "-" (String c "")) toks i a =
  match flagValueAhead toks i with
  | Some v => ((i + 1)%nat, setFlag (String c "") (FlagString v) a)
  | None => (i, setFlag (String c "") (FlagBool true) a)
  end.
Proof.
  intros H. unfold processToken.
  cbn [String.eqb Ascii.eqb Bool.eqb andb orb Js.startsWith].
  rewrite H.
  cbn [andb String.length Nat.ltb Nat.leb Js.slice shortFlags Nat.eqb Nat.sub].
  now destruct (flagValueAhead toks i).
Qed.

Lemma exists_getNode (fs : VirtualFileSystem) (x : string) (node : IFileSystemNode) :
  getNode fs x = Some node -> exists_ fs x = true.
Proof. unfold exists_. now intros ->. Qed.

Lemma deleteNode_recursive (fs : VirtualFileSystem) (x : string)
    (node : IFileSystemNode) (now : Date) :
  bareName x = true ->
  getNode fs x = Some node ->
  fst (deleteNode fs x true now) = true /\
  getNode (snd (deleteNode fs x true now)) x = None.
Proof.
  intros Hb Hg.
  pose proof (deleteNode_children fs x true now) as Hch.
  rewrite (getNode_currentChildren _ _ Hb) in Hg.
  rewrite (getNode_currentChildren _ _ Hb).
  assert (Hok : fst (deleteNode fs x true now) = true).
  { unfold deleteNode. unfold currentChildren in Hg.
    destruct (getCurrentDirectoryNode fs) as [cur|]; [|discriminate].
    destruct (children cur) as [ch|]; [|discriminate].
    rewrite Hg. now rewrite andb_false_r. }
  split; [exact Hok|].
  rewrite Hok in Hch. rewrite Hch.
  destruct (currentChildren fs) as [ch|]; [|discriminate].
  simpl. apply get_delete_same.
Qed.

(** X26: through the dispatcher, a one-letter flag written before the name
    takes the name as its value: [rm -r d] reaches [rm] without arguments
    and fails with [missing arguments], deleting nothing.  With the flag
    after the name, [rm d -r] removes the entry [d] of the current
    directory, whatever it contains. *)
Theorem rm_flag_position (p : CommandProcessor) (c : ascii) (d cwd : string)
    (w : World) :
  plainChar c = true -> Ascii.eqb c "-" = false ->
  argWord d = true ->
  getCommand p "rm" = Some RmCommand ->
  executeCommand p ("rm -" +:+ String c (" " +:+ d)) cwd w =
  (resultError ("rm: missing arguments" +:+ newline +:+
                "Usage: rm [options] file..."), w) /\
  (forall node,
     bareName d = true ->
     getNode (fileSystem w) d = Some node ->
     exists w',
       executeCommand p ("rm " +:+ d +:+ " -r") cwd w = (resultSuccess None, w') /\
       getNode (fileSystem w') d = None).
Proof.
  intros Hp Hc Ha Hg.
  assert (Hd : plainWord d = true /\ Js.startsWith d "-" = false).
  { unfold argWord in Ha. apply andb_prop in Ha as [Ha _].
    apply andb_prop in Ha as [Ha _]. apply andb_prop in Ha as [H1 H2].
    now apply negb_true_iff in H2. }
  destruct Hd as [Hd Hs]. split.
  - assert (Htok : tokenize ("rm -" +:+ String c (" " +:+ d))
                   = ["rm"; String "-" (String c ""); d]).
    { change ("rm -" +:+ String c (" " +:+ d))
        with (Js.join " " ["rm"; String "-" (String c ""); d]).
      apply tokenize_join. repeat constructor; [|exact Hd].
      unfold plainWord. simpl. now rewrite Hp. }
    assert (Hparse : parseInput ("rm -" +:+ String c (" " +:+ d))
               = mkParsed "rm" [] (<[String c "" := FlagString d]> ∅) None None).
    { unfold parseInput. rewrite Htok.
      cbn [Js.startsWith Ascii.eqb Bool.eqb andb List.length].
      rewrite (parseLoop_step 2 ["rm"; String "-" (String c ""); d] 1 _
                 (String "-" (String c "")) 2
                 (setFlag (String c "") (FlagString d) (mkAcc [] ∅ None None))
                 eq_refl).
      2:{ rewrite processToken_short_single by assumption.
          unfold flagValueAhead. cbn [lookup list_lookup Nat.add].
          now rewrite Hs. }
      now rewrite parseLoop_none by reflexivity. }
    apply (executeCommand_plain p _ cwd w w RmCommand).
    + apply trim_head. reflexivity.
    + now rewrite Hparse.
    + now rewrite Hparse.
    + now rewrite Hparse.
  - intros node Hb Hn.
    assert (Htok : tokenize ("rm " +:+ d +:+ " -r") = ["rm"; d; "-r"]).
    { change ("rm " +:+ d +:+ " -r") with (Js.join " " ["rm"; d; "-r"]).
      apply tokenize_join. repeat constructor. exact Hd. }
    assert (Hparse : parseInput ("rm " +:+ d +:+ " -r")
               = mkParsed "rm" [d] (<["r" := FlagBool true]> ∅) None None).
    { unfold parseInput. rewrite Htok.
      cbn [Js.startsWith Ascii.eqb Bool.eqb andb List.length].
      rewrite (parseLoop_step 2 ["rm"; d; "-r"] 1 _ d 1
                 (pushArg d (mkAcc [] ∅ None None)) eq_refl)
        by now apply processToken_arg.
      rewrite (parseLoop_step 1 ["rm"; d; "-r"] 2 _ "-r" 2
                 (setFlag "r" (FlagBool true)
                    (pushArg d (mkAcc [] ∅ None None))) eq_refl)
        by reflexivity.
      reflexivity. }
    destruct (deleteNode_recursive (fileSystem w) d node (clock w) Hb Hn)
      as [Hok Hgone].
    exists (withFileSystem w (snd (deleteNode (fileSystem w) d true (clock w)))).
    split; [|exact Hgone].
    apply (executeCommand_plain p _ cwd w _ RmCommand).
    + apply trim_head. reflexivity.
    + now rewrite Hparse.
    + rewrite Hparse.
      cbn [execute RmCommand args flags ctxArgs ctxFlags validateArgs
           List.length Nat.ltb Nat.leb].
      replace (hasFlag (<["r" := FlagBool true]> ∅) "r") with true
        by (unfold hasFlag; now rewrite lookup_insert_eq).
      cbn [orb rmLoop].
      rewrite (exists_getNode _ _ _ Hn). cbn [negb andb].
      destruct (deleteNode (fileSystem w) d true (clock w)) as [ok fs'].
      simpl in Hok. subst ok. reflexivity.
    + now rewrite Hparse.
Qed.

Lemma rm_flag_position_witness :
  executeCommand (registerCommand RmCommand emptyProcessor)
    "rm -r Documents" "~" (mkWorld seededFs ∅ [] 1)
  = (resultError ("rm: missing arguments" +:+ newline +:+
                  "Usage: rm [options] file..."),
     mkWorld seededFs ∅ [] 1).
Proof.
  exact (proj1 (rm_flag_position (registerCommand RmCommand emptyProcessor)
                  "r" "Documents" "~" (mkWorld seededFs ∅ [] 1)
                  eq_refl eq_refl eq_refl eq_refl)).
Defined.

(** X27: [cd] followed by [pwd].  When [setCurrentDirectory] accepts the
    target ([args[0]], or [~] without one), [cd] succeeds without touching
    the tree and [pwd] then prints the resolved absolute path of the
    target; when it refuses, [cd] fails with [No such file or directory]
    and changes nothing. *)
Theorem cd_then_pwd (argv : list string) (fl : gmap string FlagValue)
    (cwd : string) (w : World) :
  Js.startsWith (homeDirectory (fileSystem w)) "/" = true ->
  let target := firstArgOr "~" argv in
  (fst (setCurrentDirectory (fileSystem w) target) = true ->
   exists w',
     execute CdCommand (mkContext argv fl cwd) w
       = Returned (resultSuccess None) w' /\
     root (fileSystem w') = root (fileSystem w) /\
     forall ctx,
       execute PwdCommand ctx w'
       = Returned (resultSuccess (Some [resolvePath (fileSystem w) target])) w') /\
  (fst (setCurrentDirectory (fileSystem w) target) = false ->
   execute CdCommand (mkContext argv fl cwd) w
   = Returned (resultError ("cd: " +:+ target +:+ ": No such file or directory"))
              w).
Proof.
  intros Hh target. cbn [execute CdCommand ctxArgs]. fold target.
  destruct (setCurrentDirectory (fileSystem w) target) as [ok fs'] eqn:E.
  split; intros Hok; simpl in Hok; subst ok.
  - destruct (setCurrentDirectory_lands _ _ _ Hh E) as (Habs & Hroot & _).
    exists (withFileSystem w fs'). split; [reflexivity|].
    split; [exact Hroot|]. intros ctx.
    cbn [execute PwdCommand]. simpl fileSystem. now rewrite Habs.
  - cbn [negb]. unfold setCurrentDirectory in E.
    destruct (getNodeByPath _ _) as [node|].
    + destruct (isDirectory node); simpl in E; [discriminate|].
      injection E as <-. now rewrite withFileSystem_same.
    + injection E as <-. now rewrite withFileSystem_same.
Qed.

Lemma cd_then_pwd_witness :
  exists w',
    execute CdCommand (mkContext ["Documents"] ∅ "~") (mkWorld seededFs ∅ [] 1)
      = Returned (resultSuccess None) w' /\
    root (fileSystem w') = root seededFs /\
    forall ctx,
      execute PwdCommand ctx w'
      = Returned (resultSuccess
                    (Some [resolvePath seededFs "Documents"])) w'.
Proof.
  exact (proj1 (cd_then_pwd ["Documents"] ∅ "~" (mkWorld seededFs ∅ [] 1)
                  eq_refl) eq_refl).
Defined.

Lemma createEntry_fst fs x ty c now ch :
  bareName x = true ->
  currentChildren fs = Some ch ->
  fst (createEntry fs x ty c now) =
  match JsMap.get x ch with Some _ => false | None => true end.
Proof.
  intros Hb Hch. unfold createEntry, exists_.
  rewrite (getNode_currentChildren _ _ Hb), Hch.
  destruct (JsMap.get x ch); [reflexivity|].
  unfold currentChildren in Hch.
  destruct (getCurrentDirectoryNode fs) as [cur|]; [|discriminate].
  now rewrite Hch.
Qed.

Lemma mkdirLoop_spec (argv : list string) :
  forall (errors : list string) (w : World) (ch : JsMap.t IFileSystemNode),
    currentChildren (fileSystem w) = Some ch ->
    Forall (fun x => bareName x = true) argv ->
    exists errs ch',
      fst (mkdirLoop argv errors w) = errors ++ errs /\
      (errs = [] <->
       NoDup argv /\ forall x, x ∈ argv -> JsMap.get x ch = None) /\
      clock (snd (mkdirLoop argv errors w)) = clock w /\
      currentChildren (fileSystem (snd (mkdirLoop argv errors w))) = Some ch' /\
      forall y,
        JsMap.get y ch' =
        match JsMap.get y ch with
        | Some n => Some n
        | None =>
            if bool_decide (y ∈ argv)
            then Some (createNode y directory None (clock w))
            else None
        end.
Proof.
  induction argv as [|x rest IH]; intros errors w ch Hch Hall.
  - exists [], ch. cbn [mkdirLoop fst snd]. rewrite app_nil_r.
    repeat split; try assumption; try constructor.
    + intros y Hy. now apply elem_of_nil in Hy.
    + intros y. now destruct (JsMap.get y ch).
  - apply Forall_cons in Hall as [Hb Hrest].
    cbn [mkdirLoop]. unfold createDirectory.
    pose proof (createEntry_fst _ x directory None (clock w) ch Hb Hch) as Hfst.
    pose proof (createEntry_children (fileSystem w) x directory None (clock w))
      as Hsnd.
    destruct (createEntry (fileSystem w) x directory None (clock w))
      as [ok fs'].
    cbn [fst snd] in Hfst, Hsnd. rewrite Hch in Hsnd.
    destruct (JsMap.get x ch) as [n|] eqn:Hx; subst ok.
    + destruct (IH (errors ++ ["mkdir: cannot create directory '" +:+ x +:+
                               "': File exists or invalid name"])
                   (withFileSystem w fs') ch Hsnd Hrest)
        as (errs & ch' & H1 & H2 & H3 & H4 & H5).
      eexists (_ :: errs), ch'. rewrite H1, <- app_assoc.
      split; [reflexivity|]. split.
      { split; [discriminate|]. intros [_ Hn].
        specialize (Hn x (list_elem_of_here _ _)). congruence. }
      split; [exact H3|]. split; [exact H4|].
      intros y. rewrite H5. destruct (JsMap.get y ch) eqn:Hy; [reflexivity|].
      assert (Hne : y <> x) by congruence.
      f_equal. apply (f_equal (fun b : bool => if b then _ else _)).
      apply bool_decide_ext. rewrite elem_of_cons. tauto.
    + simpl in Hsnd.
      destruct (IH errors (withFileSystem w fs') _ Hsnd Hrest)
        as (errs & ch' & H1 & H2 & H3 & H4 & H5).
      exists errs, ch'. split; [exact H1|]. split.
      { rewrite H2, NoDup_cons. split.
        - intros [Hnd Hn]. split; [split; [|exact Hnd]|].
          + intros Hin. specialize (Hn x Hin). now rewrite get_set_same in Hn.
          + intros z Hz. apply elem_of_cons in Hz as [->|Hz]; [exact Hx|].
            specialize (Hn z Hz).
            destruct (decide (x = z)) as [->|Hne];
              [now rewrite get_set_same in Hn|].
            now rewrite get_set_other in Hn.
        - intros [[Hni Hnd] Hn]. split; [exact Hnd|].
          intros z Hz. rewrite get_set_other by (intros ->; contradiction).
          apply Hn. now apply list_elem_of_further. }
      split; [exact H3|]. split; [exact H4|].
      intros y. rewrite H5. cbn [clock withFileSystem].
      destruct (decide (x = y)) as [->|Hne].
      * rewrite get_set_same, Hx.
        now rewrite (bool_decide_eq_true_2 _ (list_elem_of_here _ _)).
      * rewrite get_set_other by assumption.
        destruct (JsMap.get y ch); [reflexivity|].
        apply (f_equal (fun b : bool => if b then _ else _)).
        apply bool_decide_ext. rewrite elem_of_cons.
        split; [auto | intros [->|?]; [contradiction | assumption]].
Qed.

(** X28: [mkdir] with at least one name, all without [/], in a current
    directory that exists: afterwards every given name is an entry of the
    current directory; the names that were missing are new empty
    directories, the entries that were there are exactly as before, and
    nothing else is added.  The result is a success exactly when the names
    are pairwise distinct and none of them existed. *)
Theorem mkdir_creates_missing (argv : list string)
    (fl : gmap string FlagValue) (cwd : string) (w : World)
    (ch : JsMap.t IFileSystemNode) :
  currentChildren (fileSystem w) = Some ch ->
  Forall (fun x => bareName x = true) argv ->
  argv <> [] ->
  exists r w',
    execute MkdirCommand (mkContext argv fl cwd) w = Returned r w' /\
    (forall y, bareName y = true ->
       getNode (fileSystem w') y =
       match JsMap.get y ch with
       | Some n => Some n
       | None =>
           if bool_decide (y ∈ argv)
           then Some (createNode y directory None (clock w))
           else None
       end) /\
    (success r = true <->
     NoDup argv /\ forall x, x ∈ argv -> JsMap.get x ch = None).
Proof.
  intros Hch Hall Hne.
  destruct (mkdirLoop_spec argv [] w ch Hch Hall)
    as (errs & ch' & H1 & H2 & _ & H4 & H5).
  cbn [execute MkdirCommand ctxArgs]. unfold validateArgs.
  destruct argv as [|a argv']; [contradiction|].
  cbn [List.length Nat.ltb Nat.leb].
  destruct (mkdirLoop (a :: argv') [] w) as [errors w'] eqn:E.
  cbn [fst snd] in H1, H4. rewrite app_nil_l in H1. subst errors.
  destruct errs as [|e errs].
  - exists (resultSuccess None), w'. split; [reflexivity|]. split.
    + intros y Hy. now rewrite (getNode_currentChildren _ _ Hy), H4, H5.
    + rewrite <- H2. now split.
  - exists (resultError (Js.join newline (e :: errs))), w'.
    split; [reflexivity|]. split.
    + intros y Hy. now rewrite (getNode_currentChildren _ _ Hy), H4, H5.
    + rewrite <- H2. split; discriminate.
Qed.

Lemma mkdir_creates_missing_witness :
  exists r w',
    execute MkdirCommand (mkContext ["src"; "Documents"] ∅ "~")
            (mkWorld seededFs ∅ [] 7) = Returned r w' /\
    (forall y, bareName y = true ->
       getNode (fileSystem w') y =
       match JsMap.get y
               (match currentChildren seededFs with Some c => c | None => [] end)
       with
       | Some n => Some n
       | None =>
           if bool_decide (y ∈ ["src"; "Documents"])
           then Some (createNode y directory None 7)
           else None
       end) /\
    (success r = true <->
     NoDup ["src"; "Documents"] /\
     forall x, x ∈ ["src"; "Documents"] ->
       JsMap.get x (match currentChildren seededFs with Some c => c | None => [] end)
       = None).
Proof.
  refine (mkdir_creates_missing ["src"; "Documents"] ∅ "~"
            (mkWorld seededFs ∅ [] 7) _ eq_refl _ _).
  - repeat constructor.
  - discriminate.
Defined.

(** ** Redirecting [echo] and reading the file back *)

Lemma argWord_plainWord (x : string) :
  argWord x = true -> plainWord x = true.
Proof.
  unfold argWord. intros H. apply andb_prop in H as [H _].
  apply andb_prop in H as [H _]. now apply andb_prop in H as [H _].
Qed.

Lemma pushArg_args (ws : list string) (a : ParseAcc) :
  fold_left (fun acc t => pushArg t acc) ws a =
  mkAcc (accArgs a ++ ws) (accFlags a) (accRedirectToFile a)
        (accRedirectMode a).
Proof.
  revert a. induction ws as [|x ws IH]; intros a.
  - simpl. rewrite app_nil_r. now destruct a.
  - simpl. rewrite IH. simpl. now rewrite <- app_assoc.
Qed.

Lemma parseLoop_args (ws post : list string) (fuel : nat) :
  forall (pre : list string) (a : ParseAcc),
    Forall (fun x => argWord x = true) ws ->
    parseLoop (List.length ws + fuel) (pre ++ ws ++ post) (List.length pre) a =
    parseLoop fuel (pre ++ ws ++ post) (List.length pre + List.length ws)
      (fold_left (fun acc t => pushArg t acc) ws a).
Proof.
  induction ws as [|x ws IH]; intros pre a H.
  - simpl. now rewrite Nat.add_0_r.
  - apply Forall_cons in H as [Hx Hws].
    cbn [List.length Nat.add fold_left].
    rewrite (parseLoop_step _ (pre ++ (x :: ws) ++ post) (List.length pre) a x
               (List.length pre) (pushArg x a)).
    + replace (pre ++ (x :: ws) ++ post) with ((pre ++ [x]) ++ ws ++ post)
        by (now rewrite <- app_assoc).
      replace (S (List.length pre)) with (List.length (pre ++ [x]))
        by (rewrite length_app; simpl; lia).
      rewrite IH by assumption. f_equal.
      rewrite length_app. simpl. lia.
    + now apply list_lookup_middle.
    + now apply processToken_arg.
Qed.

Lemma splitAux_nonempty (c : ascii) (s : string) :
  forall cur, Js.splitAux c cur s <> [].
Proof.
  induction s as [|d s IH]; intros cur; simpl; [discriminate|].
  destruct (Ascii.eqb d c); [discriminate | apply IH].
Qed.

Lemma join_splitAux (c : ascii) (s : string) : forall cur,
  Js.join (String c "") (Js.splitAux c cur s) = cur +:+ s.
Proof.
  induction s as [|d s IH]; intros cur.
  - simpl. now rewrite append_nil_r.
  - simpl. destruct (Ascii.eqb d c) eqn:E.
    + apply Ascii.eqb_eq in E. subst d.
      pose proof (splitAux_nonempty c s "") as Hne.
      specialize (IH ""). destruct (Js.splitAux c "" s) as [|y l];
        [contradiction|].
      unfold Js.join in *.
      change (String.concat (String c "") (cur :: y :: l))
        with (cur +:+ String c "" +:+ String.concat (String c "") (y :: l)).
      rewrite IH. now rewrite append_nil_l.
    + rewrite IH, append_assoc. reflexivity.
Qed.

Lemma join_split (c : ascii) (s : string) :
  Js.join (String c "") (Js.split c s) = s.
Proof. unfold Js.split. now rewrite join_splitAux, append_nil_l. Qed.

Lemma writeFile_succeeds fs x c now ch :
  bareName x = true ->
  currentChildren fs = Some ch ->
  (forall node, JsMap.get x ch = Some node -> isFile node = true) ->
  fst (writeFile fs x c now) = true.
Proof.
  intros Hb Hch Hfile. unfold writeFile.
  rewrite (getNode_currentChildren _ _ Hb), Hch.
  destruct (JsMap.get x ch) as [node|] eqn:Hx.
  - now rewrite (Hfile node eq_refl).
  - unfold createFile. rewrite (createEntry_fst _ _ _ _ _ ch Hb Hch).
    now rewrite Hx.
Qed.

Lemma parseInput_echo_redirect (ws : list string) (f : string) :
  Forall (fun x => argWord x = true) ws ->
  argWord f = true ->
  parseInput (Js.join " " ("echo" :: ws ++ [">"; f]))
  = mkParsed "echo" ws ∅ (Some f) (Some write).
Proof.
  intros Hws Hf.
  assert (Htok : tokenize (Js.join " " ("echo" :: ws ++ [">"; f]))
                 = "echo" :: ws ++ [">"; f]).
  { apply tokenize_join. constructor; [reflexivity|].
    apply Forall_app. split.
    - eapply Forall_impl; [exact Hws|]. intros x. apply argWord_plainWord.
    - repeat constructor. now apply argWord_plainWord. }
  unfold parseInput. rewrite Htok.
  cbn [Js.startsWith Ascii.eqb Bool.eqb andb].
  replace (List.length ("echo" :: ws ++ [">"; f]))
    with (List.length ws + 3)%nat
    by (simpl; rewrite length_app; simpl; lia).
  change ("echo" :: ws ++ [">"; f]) with (["echo"] ++ ws ++ [">"; f]).
  change 1%nat with (List.length ["echo"]) at 2.
  rewrite parseLoop_args, pushArg_args by assumption.
  set (toks := ["echo"] ++ ws ++ [">"; f]).
  set (i := (List.length ["echo"] + List.length ws)%nat).
  assert (H1 : toks !! i = Some ">").
  { subst toks i. rewrite app_assoc. apply list_lookup_middle.
    now rewrite length_app. }
  assert (H2 : toks !! (i + 1)%nat = Some f).
  { subst toks i.
    replace (["echo"] ++ ws ++ [">"; f]) with ((["echo"] ++ ws ++ [">"]) ++ [f])
      by (now rewrite <- !app_assoc).
    apply list_lookup_middle. rewrite !length_app. simpl. lia. }
  assert (H3 : toks !! S (i + 1) = None).
  { apply lookup_ge_None_2. subst toks i. rewrite !length_app. simpl. lia. }
  rewrite (parseLoop_step 2 toks i _ ">" (i + 1)
             (onRedirect f write (mkAcc ([] ++ ws) ∅ None None)) H1).
  2:{ unfold processToken. cbn [String.eqb Ascii.eqb Bool.eqb andb orb].
      cbn [accArgs accFlags accRedirectToFile accRedirectMode].
      now rewrite H2. }
  now rewrite parseLoop_none.
Qed.

Lemma parseInput_cat (f : string) :
  argWord f = true ->
  parseInput ("cat " +:+ f) = mkParsed "cat" [f] ∅ None None.
Proof.
  intros Hf.
  assert (Htok : tokenize ("cat " +:+ f) = ["cat"; f]).
  { change ("cat " +:+ f) with (Js.join " " ["cat"; f]).
    apply tokenize_join. repeat constructor. now apply argWord_plainWord. }
  unfold parseInput. rewrite Htok.
  cbn [Js.startsWith Ascii.eqb Bool.eqb andb List.length].
  rewrite (parseLoop_step 1 ["cat"; f] 1 _ f 1
             (pushArg f (mkAcc [] ∅ None None)) eq_refl)
    by now apply processToken_arg.
  reflexivity.
Qed.

Lemma join_echo_head (l : list string) :
  l <> [] -> Js.join " " ("echo" :: l) = String "e" ("cho " +:+ Js.join " " l).
Proof. destruct l; [contradiction | reflexivity]. Qed.

(** X29: with [echo] and [cat] registered, [echo w1 ... wn > f] for
    argument words and a file name [f] without [/] that is missing from
    the current directory or names a file there succeeds silently and
    leaves the words joined by single spaces in [f]; [cat f] right after
    it succeeds with lines that, joined by newlines, are that text. *)
Theorem echo_redirect_then_cat (p : CommandProcessor) (ws : list string)
    (f cwd : string) (w : World) (ch : JsMap.t IFileSystemNode) :
  Forall (fun x => argWord x = true) ws ->
  argWord f = true ->
  bareName f = true ->
  getCommand p "echo" = Some EchoCommand ->
  getCommand p "cat" = Some CatCommand ->
  currentChildren (fileSystem w) = Some ch ->
  (forall node, JsMap.get f ch = Some node -> isFile node = true) ->
  exists w' lines,
    executeCommand p (Js.join " " ("echo" :: ws ++ [">"; f])) cwd w
      = (mkResult true None None 0, w') /\
    readFile (fileSystem w') f = Some (Js.join " " ws) /\
    executeCommand p ("cat " +:+ f) cwd w' = (resultSuccess (Some lines), w') /\
    Js.join newline lines = Js.join " " ws.
Proof.
  intros Hws Hf Hb He Hc Hch Hfile.
  pose proof (parseInput_echo_redirect ws f Hws Hf) as Hp1.
  pose proof (parseInput_cat f Hf) as Hp2.
  pose proof (writeFile_succeeds (fileSystem w) f (Js.join " " ws) (clock w)
                ch Hb Hch Hfile) as Hok.
  destruct (writeFile (fileSystem w) f (Js.join " " ws) (clock w))
    as [ok fs'] eqn:Hw.
  simpl in Hok. subst ok.
  pose proof (writeFile_true_readFile _ _ _ _ _ Hb Hw) as Hread.
  assert (Htf : Js.truthy f = true).
  { apply argWord_plainWord in Hf. unfold plainWord in Hf.
    now apply andb_prop in Hf as [Hf _]. }
  exists (withFileSystem w fs').
  exists (if Js.truthy (Js.join " " ws)
          then Js.split "010"%char (Js.join " " ws) else []).
  split; [|split; [exact Hread|split]].
  - unfold getCommand in He. unfold executeCommand.
    rewrite join_echo_head by (destruct ws; discriminate).
    rewrite trim_head by reflexivity.
    rewrite <- join_echo_head by (destruct ws; discriminate).
    rewrite Hp1. cbn [negb command args flags redirectToFile redirectMode].
    rewrite He.
    cbn [execute EchoCommand ctxArgs resultSuccess success output
         isTruthyTarget].
    rewrite Htf. unfold writeToFile.
    change (Js.join newline [Js.join " " ws]) with (Js.join " " ws).
    now rewrite Hw.
  - apply (executeCommand_plain p _ cwd _ _ CatCommand).
    + apply trim_head. reflexivity.
    + now rewrite Hp2.
    + rewrite Hp2.
      cbn [execute CatCommand args flags ctxArgs validateArgs
           List.length Nat.ltb Nat.leb catLoop].
      cbn [fileSystem withFileSystem]. rewrite Hread.
      now destruct (Js.truthy (Js.join " " ws)).
    + now rewrite Hp2.
  - destruct (Js.join " " ws) as [|c0 s0] eqn:E; [reflexivity|].
    cbn [Js.truthy]. apply join_split.
Qed.

Lemma echo_redirect_then_cat_witness :
  exists w' lines,
    executeCommand (registerAll [EchoCommand; CatCommand] emptyProcessor)
      (Js.join " " ("echo" :: ["hello"; "world"] ++ [">"; "notes.txt"])) "~"
      (mkWorld seededFs ∅ [] 3)
      = (mkResult true None None 0, w') /\
    readFile (fileSystem w') "notes.txt" = Some (Js.join " " ["hello"; "world"]) /\
    executeCommand (registerAll [EchoCommand; CatCommand] emptyProcessor)
      ("cat " +:+ "notes.txt") "~" w' = (resultSuccess (Some lines), w') /\
    Js.join newline lines = Js.join " " ["hello"; "world"].
Proof.
  refine (echo_redirect_then_cat
            (registerAll [EchoCommand; CatCommand] emptyProcessor)
            ["hello"; "world"] "notes.txt" "~" (mkWorld seededFs ∅ [] 3) _
            _ eq_refl eq_refl eq_refl eq_refl eq_refl _).
  - repeat constructor.
  - intros node H. vm_compute in H. discriminate.
Defined.

(** ** Saving and loading the tree *)

Lemma node_induction (P : IFileSystemNode -> Prop)
    (step : forall n,
       (forall ch, children n = Some ch ->
                   List.Forall (fun kc => P (snd kc)) ch) -> P n) :
  forall n, P n.
Proof.
  fix go 1. intros [nm ty ct ch pm cr md sz]. apply step.
  destruct ch as [l|]; simpl; intros ch' E; [|discriminate].
  injection E as <-. clear step.
  revert l. fix goList 1. intros [|[k c] l'].
  - constructor.
  - constructor; [apply go | apply goList].
Qed.

Lemma set_fresh {V} (k : string) (v : V) (m : JsMap.t V) :
  k ∉ JsMap.keys m -> JsMap.set k v m = m ++ [(k, v)].
Proof.
  induction m as [|[k' v'] m IH]; simpl; intros H; [reflexivity|].
  apply not_elem_of_cons in H as [Hne Hm].
  destruct (String.eqb_spec k' k) as [->|_]; [contradiction|].
  now rewrite IH.
Qed.

Lemma load_entries (g : IFileSystemNode -> IFileSystemNode)
    (l : list (string * IFileSystemNode)) :
  forall m : JsMap.t IFileSystemNode,
    NoDup (JsMap.keys (m ++ l)) ->
    List.Forall (fun kc => g (snd kc) = snd kc) l ->
    fold_left (fun acc kc => JsMap.set (fst kc) (g (snd kc)) acc) l m = m ++ l.
Proof.
  induction l as [|[k c] l IH]; intros m Hnd Hall.
  - simpl. now rewrite app_nil_r.
  - inversion Hall as [|? ? Hc Hl]; subst. simpl in Hc.
    cbn [fold_left fst snd]. rewrite Hc.
    assert (Hk : k ∉ JsMap.keys m).
    { unfold JsMap.keys in *. rewrite map_app in Hnd. simpl in Hnd.
      apply NoDup_app in Hnd as (_ & Hdis & _).
      intros Hin. apply (Hdis k Hin). apply list_elem_of_here. }
    rewrite set_fresh by assumption.
    rewrite IH; [now rewrite <- app_assoc | now rewrite <- app_assoc | assumption].
Qed.

Lemma fold_left_List_map {A B C} (f : A -> B -> A) (h : C -> B)
    (l : list C) : forall a,
  fold_left f (List.map h l) a = fold_left (fun acc x => f acc (h x)) l a.
Proof. induction l as [|x l IH]; intros a; simpl; [reflexivity | apply IH]. Qed.

Lemma deserialize_serialize (toISOString : Date -> string)
    (parseDate : string -> Date) :
  (forall d, parseDate (toISOString d) = d) ->
  forall n, wfNode n ->
    deserializeNode parseDate (serializeNode toISOString n) = n.
Proof.
  intros Hd. apply (node_induction (fun n => wfNode n -> _ = n)).
  intros n IH Hwf. apply wfNode_unfold in Hwf.
  destruct n as [nm ty ct ch pm cr md sz]. simpl in IH, Hwf.
  cbn [serializeNode deserializeNode]. rewrite !Hd. f_equal.
  destruct ch as [l|]; [|reflexivity]. f_equal.
  destruct Hwf as [Hnd Hall]. specialize (IH l eq_refl).
  rewrite fold_left_List_map. cbn [fst snd].
  apply (load_entries
           (fun c => deserializeNode parseDate (serializeNode toISOString c))
           l []).
  - exact Hnd.
  - rewrite List.Forall_forall in IH, Hall |- *. intros kc Hin.
    apply IH; [exact Hin|]. now destruct (Hall kc Hin).
Qed.

Lemma length_spaces (n : nat) : String.length (spaces n) = n.
Proof. induction n as [|n IH]; simpl; [reflexivity | now rewrite IH]. Qed.

(** X30: saving a well-formed tree and loading it again.  When parsing an
    ISO date string gives back the date it was made from, a file system
    built by the constructor from what [saveToStorage] wrote has the same
    tree, node for node with the children in the same order, and the same
    current path ([~] if that was empty); its home directory is the
    constructor's argument, not the stored one. *)
Theorem storage_round_trip (toISOString : Date -> string)
    (parseDate : string -> Date) (fs : VirtualFileSystem) (home : string)
    (now : Date) :
  (forall d, parseDate (toISOString d) = d) ->
  wfNode (root fs) ->
  let fs' := loadFromStorage parseDate (newVirtualFileSystem home now)
               (Some (saveToStorage toISOString fs)) in
  root fs' = root fs /\
  currentPath fs' =
    (if Js.truthy (currentPath fs) then currentPath fs else "~") /\
  homeDirectory fs' = home.
Proof.
  intros Hd Hwf fs'. subst fs'. unfold loadFromStorage, saveToStorage.
  cbn [root currentPath homeDirectory storedRoot storedCurrentPath
       newVirtualFileSystem].
  split; [now apply deserialize_serialize | now split].
Qed.

Lemma storage_round_trip_witness :
  root (loadFromStorage String.length (newVirtualFileSystem "/home/guest" 9)
          (Some (saveToStorage spaces seededFs)))
  = root seededFs.
Proof.
  exact (proj1 (storage_round_trip spaces String.length seededFs
                  "/home/guest" 9 length_spaces
                  (createInitialStructure_wf 0))).
Defined.
